(** * ai-writer: cursor offsets, paragraph navigation and statistics

    A shallow embedding of
    - [src/utils/cursor.ts]      ([getCursorPosition], [setCursorPosition],
                                  [setCursorAtOffset]),
    - [src/components/ui/Editor.tsx] (the Ctrl+ArrowUp / Ctrl+ArrowDown
                                  branches of [handleKeyDown]),
    - [src/components/WritingStudio.tsx] ([handleContentChange]),
    together with the part of the DOM they call into: a tree of elements
    and text nodes, a tree walker over the text nodes, collapsed ranges and
    the window's selection. *)

From Stdlib Require Import List ZArith NArith Lia Bool Arith Sorted.
From Stdlib Require String Ascii.
Import ListNotations String.StringSyntax.
Open Scope string_scope.
Open Scope list_scope.
Open Scope nat_scope.

(* ===================================================================== *)
(** ** JavaScript strings *)
(* ===================================================================== *)

(** A JavaScript string is a sequence of UTF-16 code units; [length] and
    indexing count code units. *)
Module JS.

Definition code_unit := N.
Definition str := list code_unit.

(** String literals of the sources are ASCII. *)
Definition lit (s : String.string) : str :=
  map Ascii.N_of_ascii (String.list_ascii_of_string s).

Definition LF : code_unit := 10%N.

(** [s.length] as a JavaScript number. *)
Definition length (s : str) : Z := Z.of_nat (List.length s).

(** [s[i]]: [undefined] (here [None]) outside [0 .. length-1]. *)
Definition at_ (s : str) (i : Z) : option code_unit :=
  if (i <? 0)%Z then None else nth_error s (Z.to_nat i).

(** [s[i] === "\n"]; [undefined] is not equal to any string. *)
Definition is_nl (c : option code_unit) : bool :=
  match c with
  | Some u => N.eqb u LF
  | None => false
  end.

(** The code units matched by [\s] and stripped by [trim]: WhiteSpace
    and LineTerminator of ECMA-262 (all of them lie in the BMP). *)
Definition is_space (u : code_unit) : bool :=
  ((9 <=? u) && (u <=? 13) || (u =? 32) || (u =? 160) || (u =? 5760)
   || (8192 <=? u) && (u <=? 8202) || (u =? 8232) || (u =? 8233)
   || (u =? 8239) || (u =? 8287) || (u =? 12288) || (u =? 65279))%N.

Fixpoint trimStart (s : str) : str :=
  match s with
  | [] => []
  | u :: s' => if is_space u then trimStart s' else s
  end.

Definition trimEnd (s : str) : str := rev (trimStart (rev s)).

(** [s.trim()] *)
Definition trim (s : str) : str := trimEnd (trimStart s).

(** [s.split(/\s+/)]. The pattern is greedy and never matches the empty
    string, so the pieces are the stretches between maximal runs of
    white space; a run at either end of [s] leaves an empty piece there,
    and the empty string splits into one empty piece. [piece] is the
    piece being collected and [in_sep] tells that the previous code unit
    belonged to a separator. *)
Fixpoint split_go (piece : str) (in_sep : bool) (s : str) : list str :=
  match s with
  | [] => [piece]
  | u :: s' =>
      if is_space u
      then (if in_sep then split_go [] true s'
            else piece :: split_go [] true s')
      else split_go (piece ++ [u]) false s'
  end.

Definition split_spaces (s : str) : list str := split_go [] false s.

(** [s === ""] *)
Definition is_empty (s : str) : bool :=
  match s with [] => true | _ => false end.

End JS.

(* ===================================================================== *)
(** ** The DOM tree under the editable element *)
(* ===================================================================== *)

(** Only text nodes carry characters; elements are structural. Nodes of
    other kinds (comments) add nothing to [textContent], to the text of a
    range or to what a text walker yields, and are left out. *)
#[warnings="-register-all"]
Inductive Node : Type :=
| Text (data : JS.str)
| Element (children : list Node).

(** A node of the tree is referred to by the child indices leading to it
    from the editable element; [[]] is the element itself. *)
Definition Path := list nat.

(** [node.textContent] *)
Fixpoint textContent (n : Node) : JS.str :=
  match n with
  | Text d => d
  | Element cs => flat_map textContent cs
  end.

Fixpoint resolve (n : Node) (p : Path) : option Node :=
  match p with
  | [] => Some n
  | i :: p' =>
      match n with
      | Text _ => None
      | Element cs =>
          match nth_error cs i with
          | Some c => resolve c p'
          | None => None
          end
      end
  end.

(** The DOM's length of a node: code units of a text node, children of an
    element. Boundary-point offsets range over [0 .. node_length]. *)
Definition node_length (n : Node) : nat :=
  match n with
  | Text d => List.length d
  | Element cs => List.length cs
  end.

(** A reference to a node as scripts hold it: where it is, and the node. *)
Record NodeRef := { ref_path : Path; ref_node : Node }.

Section Indexed.
Variables (A B : Type) (f : nat -> A -> list B).

(** [flat_map] that also passes the index of each element, from [i]. *)
Fixpoint flat_mapi (i : nat) (l : list A) : list B :=
  match l with
  | [] => []
  | a :: l' => f i a ++ flat_mapi (S i) l'
  end.
End Indexed.
Arguments flat_mapi {A B} f i l.

Definition under (i : nat) (r : NodeRef) : NodeRef :=
  {| ref_path := i :: ref_path r; ref_node := ref_node r |}.

(** The text nodes of [n] ([n] included) in document order. *)
Fixpoint text_nodes (n : Node) : list NodeRef :=
  match n with
  | Text _ => [ {| ref_path := []; ref_node := n |} ]
  | Element cs => flat_mapi (fun i c => map (under i) (text_nodes c)) 0 cs
  end.

(** [document.createTreeWalker(element, NodeFilter.SHOW_TEXT, null)]
    followed by repeated [walker.nextNode()]: the walker starts on its
    root and [nextNode] moves to the following text node inside the root,
    so it yields the text nodes below [element], never [element]. *)
Definition walker_nodes (element : Node) : list NodeRef :=
  match element with
  | Text _ => []
  | Element _ => text_nodes element
  end.

(** [node.textContent?.length ?? 0] *)
Definition textLength (n : Node) : Z := JS.length (textContent n).

(* ===================================================================== *)
(** ** Ranges, the selection and the console *)
(* ===================================================================== *)

(** A DOM range: two boundary points, each a container and an offset into
    it. *)
Record Range := {
  startContainer : Path;
  startOffset : nat;
  endContainer : Path;
  endOffset : nat
}.

Inductive DOMException := IndexSizeError.

Inductive LogEntry := Warn (message : String.string) (error : DOMException).

(** What the functions of [cursor.ts] see and change besides the tree:
    [selection] is [window.getSelection()], [None] when that is [null],
    otherwise the ranges of the Selection object ([rangeCount] is their
    number); [console] collects the [console.warn] calls. *)
Record Host := {
  selection : option (list Range);
  console : list LogEntry
}.

(** Scripts run on the host and either complete or throw. *)
Inductive Completion (A : Type) : Type :=
| Normal (a : A) (h : Host)
| Thrown (e : DOMException) (h : Host).
Arguments Normal {A} a h.
Arguments Thrown {A} e h.

Definition Script (A : Type) := Host -> Completion A.

Definition ret {A} (a : A) : Script A := fun h => Normal a h.

Definition bind {A B} (m : Script A) (k : A -> Script B) : Script B :=
  fun h =>
    match m h with
    | Normal a h' => k a h'
    | Thrown e h' => Thrown e h'
    end.

Definition throw {A} (e : DOMException) : Script A := fun h => Thrown e h.

(** [try { body } catch (error) { handler(error) }] *)
Definition try_catch {A} (body : Script A) (handler : DOMException -> Script A)
  : Script A :=
  fun h =>
    match body h with
    | Normal a h' => Normal a h'
    | Thrown e h' => handler e h'
    end.

Declare Scope script_scope.
Notation "x <- m ;; k" := (bind m (fun x => k))
  (at level 61, m at next level, right associativity) : script_scope.
Notation "m ;; k" := (bind m (fun _ => k))
  (at level 61, right associativity) : script_scope.
Open Scope script_scope.

(** A WebIDL [unsigned long] argument: an integer is taken modulo 2^32
    ([-1] arrives as [4294967295], [-4294967295] as [1]). *)
Definition unsigned_long (x : Z) : Z := (x mod 2 ^ 32)%Z.

(** The offset [range.setStart(node, offset)] works with: [offset] is an
    [unsigned long]. The length of a node is an [unsigned long] as well,
    so an offset within the node is its own conversion and is written as
    such; every other offset is converted. For nodes of a length below
    2^32, the only ones a document has, this is the conversion of every
    offset. *)
Definition setStart_offset (node : NodeRef) (offset : Z) : Z :=
  if ((0 <=? offset) && (offset <=? Z.of_nat (node_length (ref_node node))))%Z
  then offset
  else unsigned_long offset.

(** [range = document.createRange(); range.setStart(node, offset)]: an
    offset that, once converted, lies beyond the node's length raises
    [IndexSizeError]. The fresh range sits at the start of the document,
    before [node], so moving its start moves its end along. *)
Definition Range_setStart (node : NodeRef) (offset : Z) : Script Range :=
  let offset := setStart_offset node offset in
  if (offset <=? Z.of_nat (node_length (ref_node node)))%Z
  then ret {| startContainer := ref_path node;
              startOffset := Z.to_nat offset;
              endContainer := ref_path node;
              endOffset := Z.to_nat offset |}
  else throw IndexSizeError.

(** [range.collapse(true)] *)
Definition Range_collapse_toStart (r : Range) : Range :=
  {| startContainer := startContainer r;
     startOffset := startOffset r;
     endContainer := startContainer r;
     endOffset := startOffset r |}.

(** [selection?.removeAllRanges()] *)
Definition removeAllRanges : Script unit :=
  fun h =>
    Normal tt {| selection := match selection h with
                              | Some _ => Some []
                              | None => None
                              end;
                 console := console h |}.

(** [selection?.addRange(range)]: ignored when the selection already has
    a range. *)
Definition addRange (r : Range) : Script unit :=
  fun h =>
    Normal tt {| selection := match selection h with
                              | Some [] => Some [r]
                              | other => other
                              end;
                 console := console h |}.

(** [console.warn(message, error)] *)
Definition console_warn (message : String.string) (error : DOMException) : Script unit :=
  fun h =>
    Normal tt {| selection := selection h;
                 console := console h ++ [Warn message error] |}.

(** The text of the range that starts at [(element, 0)] and ends at the
    boundary point [(container, offset)] inside [element]: the data of
    every text node that ends before the boundary point, then the first
    [offset] code units of [container] when that is a text node. *)
Fixpoint Range_toString (container : Path) (element : Node) (offset : nat)
  : JS.str :=
  match container with
  | [] =>
      match element with
      | Text d => firstn offset d
      | Element cs => flat_map textContent (firstn offset cs)
      end
  | i :: container' =>
      match element with
      | Text _ => []
      | Element cs =>
          flat_map textContent (firstn i cs)
          ++ match nth_error cs i with
             | Some c => Range_toString container' c offset
             | None => []
             end
      end
  end.

(* ===================================================================== *)
(** ** [src/utils/cursor.ts] *)
(* ===================================================================== *)

(** [CursorPosition] of [types/editor]; [line] and [column] are never
    set. *)
Record CursorPosition := {
  offset : Z;
  node : option Path
}.

(** The offset computed by [getCursorPosition] from the anchor of the
    selection: [preRange.toString().length]. The anchor is given by a
    path below the element. An anchor elsewhere in the document, behind
    the element say, where [preRange] takes in text that is not the
    element's, has no path: what is stated of the offset is stated for
    anchors that are boundary points of the tree. *)
Definition offsetFromPosition (element : Node) (container : Path)
  (containerOffset : nat) : Z :=
  JS.length (Range_toString container element containerOffset).

Definition getCursorPosition (element : Node) (h : Host)
  : option CursorPosition :=
  match selection h with
  | None => None
  | Some [] => None
  | Some (range :: _) =>
      Some {| offset := offsetFromPosition element (startContainer range)
                          (startOffset range);
              node := Some (startContainer range) |}
  end.

(** The [while (walker.nextNode())] loop shared by [setCursorPosition]
    and [setCursorAtOffset]: [nodes] are the text nodes the walker has
    still to yield. *)
Fixpoint find_target (nodes : list NodeRef) (currentOffset offset_ : Z)
  : option (NodeRef * Z) :=
  match nodes with
  | [] => None
  | node_ :: rest =>
      let nodeLength := textLength (ref_node node_) in
      if (currentOffset + nodeLength >=? offset_)%Z
      then Some (node_, (offset_ - currentOffset)%Z)
      else find_target rest (currentOffset + nodeLength)%Z offset_
  end.

(** The [try { ... } catch] block that places the caret, the same in
    [setCursorPosition] and in [setCursorAtOffset]. *)
Definition applyPosition (targetNode : NodeRef) (targetOffset : Z)
  : Script unit :=
  try_catch
    (range <- Range_setStart targetNode
                (Z.min targetOffset (textLength (ref_node targetNode))) ;;
     let range := Range_collapse_toStart range in
     removeAllRanges ;;
     addRange range)
    (fun error => console_warn "Failed to set cursor position:" error).

Definition element_ref (element : Node) : NodeRef :=
  {| ref_path := []; ref_node := element |}.

(** The target [setCursorPosition] computes before it touches the
    selection: the node found by the walk, else the element itself. *)
Definition positionFromOffset (element : Node) (offset_ : Z) : NodeRef * Z :=
  match find_target (walker_nodes element) 0 offset_ with
  | Some target => target
  | None => (element_ref element, 0%Z)
  end.

Definition setCursorPosition (element : Node) (position : CursorPosition)
  : Script unit :=
  let (targetNode, targetOffset) := positionFromOffset element (offset position) in
  applyPosition targetNode targetOffset.

Definition saveCursorPosition (element : Node) (h : Host)
  : option CursorPosition :=
  getCursorPosition element h.

Definition restoreCursorPosition (element : Node)
  (position : option CursorPosition) : Script unit :=
  match position with
  | Some p => setCursorPosition element p
  | None => ret tt
  end.

Definition setCursorAtOffset (element : Node) (targetOffset : Z)
  : Script unit :=
  match find_target (walker_nodes element) 0 targetOffset with
  | Some (targetNode, nodeOffset) => applyPosition targetNode nodeOffset
  | None => ret tt
  end.

(* ===================================================================== *)
(** ** [src/hooks/useCursorPosition.ts] *)
(* ===================================================================== *)

(** [elementRef.current] is [null], here [None], while no editor element
    is mounted. *)
Module useCursorPosition.

Definition getCursor (elementRef : option Node) (h : Host)
  : option CursorPosition :=
  match elementRef with
  | None => None
  | Some element => getCursorPosition element h
  end.

Definition setCursor (elementRef : option Node) (position : CursorPosition)
  : Script unit :=
  match elementRef with
  | None => ret tt
  | Some element => setCursorPosition element position
  end.

End useCursorPosition.

(* ===================================================================== *)
(** ** [src/components/ui/Editor.tsx]: Ctrl+ArrowUp and Ctrl+ArrowDown *)
(* ===================================================================== *)

Section Loops.
Variable A : Type.

(** The loops of [handleKeyDown] search: the body either assigns a
    result and breaks ([Some]), or goes on ([None]). [iterations] is the
    number of times the loop test can still succeed. *)
Fixpoint for_ascending (iterations : nat) (i : Z) (body : Z -> option A)
  : option A :=
  match iterations with
  | O => None
  | S n =>
      match body i with
      | Some r => Some r
      | None => for_ascending n (i + 1)%Z body
      end
  end.

Fixpoint for_descending (iterations : nat) (i : Z) (body : Z -> option A)
  : option A :=
  match iterations with
  | O => None
  | S n =>
      match body i with
      | Some r => Some r
      | None => for_descending n (i - 1)%Z body
      end
  end.

(** [for (let i = from; i < to; i++) body] *)
Definition for_up (from to : Z) (body : Z -> option A) : option A :=
  for_ascending (Z.to_nat (to - from)) from body.

(** [for (let i = from; i >= 0; i--) body] *)
Definition for_down (from : Z) (body : Z -> option A) : option A :=
  for_descending (Z.to_nat (from + 1)) from body.
End Loops.
Arguments for_ascending {A} iterations i body.
Arguments for_descending {A} iterations i body.
Arguments for_up {A} from to body.
Arguments for_down {A} from body.

Module Editor.

(** The target of Ctrl+ArrowDown, from [content] and [currentOffset]. *)
Definition paragraphEnd (content : JS.str) (currentOffset : Z) : Z :=
  match for_up currentOffset (JS.length content)
          (fun i =>
             if JS.is_nl (JS.at_ content i)
                && ((i =? JS.length content - 1)%Z
                    || JS.is_nl (JS.at_ content (i + 1)))
             then Some i else None)
  with
  | Some i => i
  | None => JS.length content
  end.

Definition arrowDownTarget (content : JS.str) (currentOffset : Z) : Z :=
  let paragraphEnd := paragraphEnd content currentOffset in
  let targetPosition := paragraphEnd in
  if (currentOffset =? paragraphEnd)%Z then
    if (paragraphEnd <? JS.length content)%Z then
      match for_up (paragraphEnd + 1) (JS.length content)
              (fun i =>
                 if JS.is_nl (JS.at_ content (i - 1))
                    && JS.is_nl (JS.at_ content (i - 2))
                 then Some i
                 else if negb (JS.is_nl (JS.at_ content i))
                 then Some i
                 else None)
      with
      | Some i => i
      | None => targetPosition
      end
    else 0%Z
  else targetPosition.

(** The target of Ctrl+ArrowUp. *)
Definition paragraphStart (content : JS.str) (currentOffset : Z) : Z :=
  match for_down (currentOffset - 1)
          (fun i =>
             if JS.is_nl (JS.at_ content i)
             then if (i =? 0)%Z || JS.is_nl (JS.at_ content (i - 1))
                  then Some (i + 1)%Z else None
             else None)
  with
  | Some start => start
  | None => 0%Z
  end.

Definition arrowUpTarget (content : JS.str) (currentOffset : Z) : Z :=
  let paragraphStart := paragraphStart content currentOffset in
  let targetPosition := paragraphStart in
  if (Z.abs (currentOffset - paragraphStart) <=? 1)%Z then
    if (paragraphStart >? 0)%Z then
      match for_down (paragraphStart - 2)
              (fun i =>
                 if negb (JS.is_nl (JS.at_ content i))
                 then Some (i + 1)%Z
                 else if (i =? 0)%Z then Some 0%Z
                 else None)
      with
      | Some t => t
      | None => targetPosition
      end
    else JS.length content
  else targetPosition.

(** [getCursorPosition(editorRef.current)?.offset ?? 0] *)
Definition currentOffset (element : Node) (h : Host) : Z :=
  match getCursorPosition element h with
  | Some position => offset position
  | None => 0%Z
  end.

(** The two [case] branches, entered with the editor mounted. *)
Definition handleCtrlArrowDown (element : Node) : Script unit :=
  fun h =>
    match selection h with
    | Some (_ :: _) =>
        setCursorAtOffset element
          (arrowDownTarget (textContent element) (currentOffset element h)) h
    | _ => Normal tt h
    end.

Definition handleCtrlArrowUp (element : Node) : Script unit :=
  fun h =>
    match selection h with
    | Some (_ :: _) =>
        setCursorAtOffset element
          (arrowUpTarget (textContent element) (currentOffset element h)) h
    | _ => Normal tt h
    end.

End Editor.

(** The paragraph navigation under the name the specification gives it. *)
Inductive Direction := Backward | Forward.

Definition findParagraphBoundary (fullText : JS.str) (fromOffset : Z)
  (direction : Direction) : Z :=
  match direction with
  | Forward => Editor.arrowDownTarget fullText fromOffset
  | Backward => Editor.arrowUpTarget fullText fromOffset
  end.

(* ===================================================================== *)
(** ** [src/components/WritingStudio.tsx]: statistics *)
(* ===================================================================== *)

Module WritingStudio.

Record State := {
  content : JS.str;
  wordCount : Z;
  charCount : Z
}.

Definition words (newContent : JS.str) : Z :=
  if JS.is_empty (JS.trim newContent) then 0%Z
  else Z.of_nat (List.length (JS.split_spaces (JS.trim newContent))).

Definition handleContentChange (newContent : JS.str) : State :=
  {| content := newContent;
     wordCount := words newContent;
     charCount := JS.length newContent |}.

End WritingStudio.

(* ===================================================================== *)
(** ** Sample inputs *)
(* ===================================================================== *)

Definition hello_world : JS.str :=
  JS.lit "Hello" ++ [JS.LF; JS.LF] ++ JS.lit "World".

(** Two leaves ["abc"] and ["de"] under the editable element. *)
Definition abc_de : Node := Element [Text (JS.lit "abc"); Text (JS.lit "de")].

Definition live : Host := {| selection := Some []; console := [] |}.

(* ===================================================================== *)
(** ** Vocabulary of the specification *)
(* ===================================================================== *)

(** The text leaves of the tree in document order. *)
Definition leaves (element : Node) : list JS.str :=
  map (fun r => textContent (ref_node r)) (walker_nodes element).

(** Summed length of a list of leaves. *)
Fixpoint total (ls : list JS.str) : Z :=
  match ls with
  | [] => 0%Z
  | l :: ls' => (JS.length l + total ls')%Z
  end.

(** The total character count of the tree. *)
Definition totalLength (element : Node) : Z := textLength element.

(** The cumulative offset at which leaf number [k] ends. *)
Definition cumulative_end (ls : list JS.str) (k : nat) : Z :=
  total (firstn (S k) ls).

(** A boundary point of the tree: the container exists and the offset
    does not exceed its length. *)
Definition reachable (element : Node) (container : Path) (off : nat) : Prop :=
  exists n, resolve element container = Some n /\ off <= node_length n.

(** A tree without any text node. *)
Fixpoint no_text (n : Node) : bool :=
  match n with
  | Text _ => false
  | Element cs => forallb no_text cs
  end.

(** Number of maximal runs of code units that are not white space;
    [in_run] tells that the previous code unit was part of a run. *)
Fixpoint count_runs (in_run : bool) (s : JS.str) : nat :=
  match s with
  | [] => 0
  | u :: s' =>
      if JS.is_space u then count_runs false s'
      else if in_run then count_runs true s'
      else S (count_runs true s')
  end.

Definition word_runs (s : JS.str) : nat := count_runs false s.

Definition all_space (s : JS.str) : bool := forallb JS.is_space s.

(** [k] applications of [f], starting from [x]. *)
Fixpoint iterate {A : Type} (f : A -> A) (k : nat) (x : A) : A :=
  match k with
  | O => x
  | S k' => f (iterate f k' x)
  end.

(** Paragraphs joined by double line breaks. *)
Definition paragraph_break : JS.str := [JS.LF; JS.LF].

Fixpoint join_paragraphs (ps : list JS.str) : JS.str :=
  match ps with
  | [] => []
  | [p] => p
  | p :: ps' => p ++ paragraph_break ++ join_paragraphs ps'
  end.

(** No two line breaks in a row. *)
Fixpoint no_double_break (s : JS.str) : bool :=
  match s with
  | u :: ((v :: _) as s') =>
      negb ((u =? JS.LF)%N && (v =? JS.LF)%N) && no_double_break s'
  | _ => true
  end.

(** A paragraph: not empty, neither begins nor ends with a line break and
    has no double line break inside. *)
Definition is_paragraph (p : JS.str) : bool :=
  negb (JS.is_nl (hd_error p))
  && negb (JS.is_nl (hd_error (rev p)))
  && negb (JS.is_empty p)
  && no_double_break p.

(** Offsets at which the paragraphs of [join_paragraphs ps] start, the
    first paragraph starting at [from]. *)
Fixpoint paragraph_starts (from : Z) (ps : list JS.str) : list Z :=
  match ps with
  | [] => []
  | p :: ps' => from :: paragraph_starts (from + JS.length p + 2) ps'
  end.

(** The offsets visited by repeated application: [x], [f x], ... *)
Fixpoint trajectory (f : Z -> Z) (n : nat) (x : Z) : list Z :=
  match n with
  | O => []
  | S n' => x :: trajectory f n' (f x)
  end.

(** Start and end of every paragraph of [join_paragraphs ps] in turn. *)
Fixpoint paragraph_stops (from : Z) (ps : list JS.str) : list Z :=
  match ps with
  | [] => []
  | p :: ps' =>
      from :: (from + JS.length p)%Z
      :: paragraph_stops (from + JS.length p + 2) ps'
  end.

(** Whether [s] ends in white space; [d] answers for the empty string. *)
Fixpoint ends_in_space (d : bool) (s : JS.str) : bool :=
  match s with
  | [] => d
  | u :: s' => ends_in_space (JS.is_space u) s'
  end.

(** The caret at [(container, off)]. *)
Definition caret (container : Path) (off : nat) : Range :=
  {| startContainer := container; startOffset := off;
     endContainer := container; endOffset := off |}.

(** The offset [applyPosition] hands to [setStart]. *)
Definition clamped (targetNode : NodeRef) (targetOffset : Z) : Z :=
  Z.min targetOffset (textLength (ref_node targetNode)).

Definition in_node (targetNode : NodeRef) (k : Z) : bool :=
  ((0 <=? k) && (k <=? Z.of_nat (node_length (ref_node targetNode))))%Z.

(** Whether [setStart] raises for the offset [k] handed to it. *)
Definition setStart_raises (targetNode : NodeRef) (k : Z) : bool :=
  (Z.of_nat (node_length (ref_node targetNode))
   <? setStart_offset targetNode k)%Z.

(** The host after a failure of [setStart] has been caught and logged. *)
Definition logged (h : Host) : Host :=
  {| selection := selection h;
     console := console h
                ++ [Warn "Failed to set cursor position:" IndexSizeError] |}.

(** The host after the caret has been placed at [(container, off)]; a
    host without a Selection object has nothing to place it in. *)
Definition placed (container : Path) (off : nat) (h : Host) : Host :=
  {| selection := match selection h with
                  | Some _ => Some [caret container off]
                  | None => None
                  end;
     console := console h |}.

(** The text of a referenced node, and of a list of them. *)
Definition ref_text (r : NodeRef) : JS.str := textContent (ref_node r).

Definition texts (nodes : list NodeRef) : list JS.str := map ref_text nodes.

(** Induction over the tree that reaches the children of an element. *)
Section NodeInduction.
Variable P : Node -> Prop.
Hypothesis HText : forall d, P (Text d).
Hypothesis HElement : forall cs, Forall P cs -> P (Element cs).

Fixpoint Node_induction (n : Node) : P n :=
  match n with
  | Text d => HText d
  | Element cs =>
      HElement cs
        ((fix all (l : list Node) : Forall P l :=
            match l with
            | [] => Forall_nil P
            | c :: l' => Forall_cons c (Node_induction c) (all l')
            end) cs)
  end.
End NodeInduction.

(* ===================================================================== *)
(** ** The rest of [src/utils/cursor.ts] and of the hook *)
(* ===================================================================== *)

(** [element.textContent || ""] *)
Definition getTextContent (element : Node) : JS.str := textContent element.

(** The children an element has after [element.textContent = content]:
    one text node holding [content], and none for the empty string. *)
Definition text_children (content : JS.str) : list Node :=
  if JS.is_empty content then [] else [Text content].

(** [element.textContent = content]. All children are removed, which
    moves every boundary point of a live range inside the element to
    [(element, 0)], and the new text node is appended behind them. *)
Definition setTextContent (element : Node) (content : JS.str) (h : Host)
  : Node * Host :=
  (match element with
   | Text _ => Text content
   | Element _ => Element (text_children content)
   end,
   {| selection :=
        match selection h with
        | Some ranges => Some (map (fun _ => caret [] 0) ranges)
        | None => None
        end;
      console := console h |}).

(** [saveCursor] and [restoreCursor] of [useCursorPosition]:
    [savedPositionRef] is the value of [savedPositionRef.current]. *)
Module SavedCursor.

Definition saveCursor (elementRef : option Node)
  (savedPositionRef : option CursorPosition) (h : Host)
  : option CursorPosition :=
  match elementRef with
  | None => savedPositionRef
  | Some element => saveCursorPosition element h
  end.

Definition restoreCursor (elementRef : option Node)
  (savedPositionRef : option CursorPosition) : Script unit :=
  match elementRef, savedPositionRef with
  | Some element, Some position =>
      restoreCursorPosition element (Some position)
  | _, _ => ret tt
  end.

End SavedCursor.

(* ===================================================================== *)
(** ** The rest of [src/components/ui/Editor.tsx] *)
(* ===================================================================== *)

(** [range.selectNodeContents(node)] *)
Definition Range_selectNodeContents (node_ : NodeRef) : Range :=
  {| startContainer := ref_path node_;
     startOffset := 0;
     endContainer := ref_path node_;
     endOffset := node_length (ref_node node_) |}.

(** [range.collapse(false)] *)
Definition Range_collapse_toEnd (r : Range) : Range :=
  {| startContainer := endContainer r;
     startOffset := endOffset r;
     endContainer := endContainer r;
     endOffset := endOffset r |}.

Module EditorKeys.

(** [case "Home"], with the editor mounted. *)
Definition handleCtrlHome (element : Node) : Script unit :=
  range <- Range_setStart (element_ref element) 0 ;;
  let range := Range_collapse_toStart range in
  removeAllRanges ;;
  addRange range.

(** [case "End"] *)
Definition handleCtrlEnd (element : Node) : Script unit :=
  let range := Range_selectNodeContents (element_ref element) in
  let range := Range_collapse_toEnd range in
  removeAllRanges ;;
  addRange range.

(** The callback of the auto-focus effect:
    [if (content.length > 0) setCursorAtOffset(editorRef.current, content.length)]. *)
Definition autoFocusCaret (element : Node) (content : JS.str) : Script unit :=
  if (JS.length content >? 0)%Z
  then setCursorAtOffset element (JS.length content)
  else ret tt.

(** [content.trim() === ""] *)
Definition showPlaceholder (content : JS.str) : bool :=
  JS.is_empty (JS.trim content).

End EditorKeys.

(** A paragraph of at least two code units. *)
Definition is_long_paragraph (p : JS.str) : bool :=
  is_paragraph p && (2 <=? JS.length p)%Z.

(** What may stand in front of a paragraph of a joined text: nothing, or
    an earlier paragraph and a double line break. *)
Definition paragraph_prefix (pre : JS.str) : Prop :=
  pre = []
  \/ exists pre0 p0,
       pre = pre0 ++ p0 ++ [JS.LF; JS.LF] /\ is_paragraph p0 = true.

(** A word: not empty and free of white space. *)
Definition is_word (w : JS.str) : bool :=
  negb (JS.is_empty w) && forallb (fun u => negb (JS.is_space u)) w.

(** The code units of [s] outside white space. *)
Definition outside_space (s : JS.str) : JS.str :=
  filter (fun u => negb (JS.is_space u)) s.

(* ===================================================================== *)
(** ** The state of [src/components/WritingStudio.tsx] *)
(* ===================================================================== *)

Module Studio.

(** The [useState] cells of [WritingStudio]; the toast, which nothing
    ever sets, is left out. *)
Record State := {
  content : JS.str;
  cursorPosition : option CursorPosition;
  wordCount : Z;
  charCount : Z;
  showStats : bool
}.

Definition initial : State :=
  {| content := []; cursorPosition := None;
     wordCount := 0; charCount := 0; showStats := false |}.

Definition handleContentChange (newContent : JS.str) (st : State) : State :=
  {| content := newContent;
     cursorPosition := cursorPosition st;
     wordCount := WritingStudio.words newContent;
     charCount := JS.length newContent;
     showStats := showStats st |}.

Definition handleCursorChange (position : option CursorPosition) (st : State)
  : State :=
  {| content := content st;
     cursorPosition := position;
     wordCount := wordCount st;
     charCount := charCount st;
     showStats := showStats st |}.

(** [setContent] alone, as [insertSampleText] and [clearEditor] call it. *)
Definition setContent (newContent : JS.str) (st : State) : State :=
  {| content := newContent;
     cursorPosition := cursorPosition st;
     wordCount := wordCount st;
     charCount := charCount st;
     showStats := showStats st |}.

Definition clearEditor (st : State) : State := setContent [] st.

(** [cursorPosition?.offset ?? "—"] of the statistics panel; [None] is
    the dash. *)
Definition shownPosition (st : State) : option Z :=
  option_map offset (cursorPosition st).

(** The counts are those of the content. *)
Definition in_sync (st : State) : Prop :=
  wordCount st = WritingStudio.words (content st)
  /\ charCount st = JS.length (content st).

End Studio.

Module EditorSync.

(** [handleInput] of the editor with [onChange] and [onCursorChange] as
    [WritingStudio] passes them. *)
Definition handleInput (disabled : bool) (element : Node) (h : Host)
  (st : Studio.State) : Studio.State :=
  if disabled then st
  else
    let newContent := getTextContent element in
    let st := Studio.handleContentChange newContent st in
    let position := useCursorPosition.getCursor (Some element) h in
    Studio.handleCursorChange position st.

(** What the effects of the editor work on: the element behind
    [editorRef], the host, and the position saved by the hook. *)
Record Dom := {
  editorRef : option Node;
  host : Host;
  savedPositionRef : option CursorPosition
}.

(** [currentContent !== content] *)
Definition differs (a b : JS.str) : bool :=
  if list_eq_dec N.eq_dec a b then false else true.

(** The effect that syncs the [content] prop into the element.
    [focused] is [document.activeElement === editorRef.current]; the
    second component tells whether an animation frame was requested. *)
Definition syncContent (content : JS.str) (isComposing focused : bool)
  (d : Dom) : Dom * bool :=
  match editorRef d with
  | None => (d, false)
  | Some element =>
      if isComposing then (d, false)
      else
        let currentContent := getTextContent element in
        if differs currentContent content then
          let wasFocused := focused in
          let saved :=
            if wasFocused
            then SavedCursor.saveCursor (editorRef d) (savedPositionRef d)
                   (host d)
            else savedPositionRef d in
          let (element', host') := setTextContent element content (host d) in
          ({| editorRef := Some element';
              host := host';
              savedPositionRef := saved |}, wasFocused)
        else (d, false)
  end.

(** The callback of the requested frame: [restoreCursor()]. *)
Definition restoreFrame (d : Dom) : Script unit :=
  SavedCursor.restoreCursor (editorRef d) (savedPositionRef d).

End EditorSync.

(* ===================================================================== *)
(** ** The Enter key of [src/components/ui/Editor.tsx] *)
(* ===================================================================== *)

(** [range.insertNode(node)] on a range collapsed at the boundary point
    [(container, off)] of the tree [n], followed by
    [range.setStartAfter(node)]: the new tree and the boundary point
    behind the inserted node. Inside a text node the node is split at
    [off], also at its ends, and the new node goes between the two
    halves; in an element it becomes the child at index [off]. [None]
    when [(container, off)] is no boundary point of the tree. *)
Fixpoint insertNode_after (node_ : Node) (container : Path) (off : nat)
  (n : Node) {struct container} : option (Node * (Path * nat)) :=
  match n with
  | Text _ => None
  | Element cs =>
      match container with
      | [] =>
          if off <=? length cs
          then Some (Element (firstn off cs ++ node_ :: skipn off cs),
                     ([], S off))
          else None
      | i :: rest =>
          match nth_error cs i with
          | None => None
          | Some c =>
              match rest, c with
              | [], Text d =>
                  if off <=? length d
                  then Some (Element (firstn i cs
                                      ++ Text (firstn off d) :: node_
                                         :: Text (skipn off d)
                                         :: skipn (S i) cs),
                             ([], i + 2))
                  else None
              | _, _ =>
                  match insertNode_after node_ rest off c with
                  | Some (c', (p, k)) =>
                      Some (Element (firstn i cs ++ c' :: skipn (S i) cs),
                            (i :: p, k))
                  | None => None
                  end
              end
          end
      end
  end.

(** [range.collapsed] *)
Definition Range_collapsed (r : Range) : bool :=
  (if list_eq_dec Nat.eq_dec (startContainer r) (endContainer r)
   then true else false)
  && (startOffset r =? endOffset r).

Module EditorEnter.

(** The Enter branch of [handleKeyDown] (editor enabled, no Shift) on a
    collapsed selection, where [range.deleteContents()] does nothing,
    with the input event it dispatches handled by [handleInput]. [None]
    stands for what is not covered: a first range that is not collapsed
    or not inside the tree. *)
Definition handleEnter (element : Node) (h : Host) (st : Studio.State)
  : option (Node * Host * Studio.State) :=
  match selection h with
  | Some (range :: _) =>
      if Range_collapsed range then
        let lineBreak := Text [JS.LF] in
        match insertNode_after lineBreak (startContainer range)
                (startOffset range) element with
        | Some (element', (p, k)) =>
            let h' := {| selection := Some [caret p k];
                         console := console h |} in
            Some (element', h', EditorSync.handleInput false element' h' st)
        | None => None
        end
      else None
  | _ => Some (element, h, st)
  end.

End EditorEnter.

(* ===================================================================== *)
(** ** Lists and the tree *)
(* ===================================================================== *)

Lemma total_app : forall a b, total (a ++ b) = (total a + total b)%Z.
Proof.
  induction a as [|x a IH]; intros b; simpl; [reflexivity|].
  rewrite IH; lia.
Qed.

Lemma total_concat : forall ls, JS.length (concat ls) = total ls.
Proof.
  induction ls as [|l ls IH]; simpl; [reflexivity|].
  unfold JS.length in *. rewrite length_app, Nat2Z.inj_add, IH. reflexivity.
Qed.

Lemma total_nonneg : forall ls, (0 <= total ls)%Z.
Proof.
  induction ls as [|l ls IH]; simpl; unfold JS.length; lia.
Qed.

Lemma map_ref_text_under : forall i rs,
  map ref_text (map (under i) rs) = map ref_text rs.
Proof.
  intros i rs. rewrite map_map. apply map_ext. reflexivity.
Qed.

(** The text nodes carry the text content, in order. *)
Lemma concat_text_nodes_from : forall cs i,
  Forall (fun c => concat (map ref_text (text_nodes c)) = textContent c) cs ->
  concat (map ref_text
            (flat_mapi (fun i c => map (under i) (text_nodes c)) i cs))
  = flat_map textContent cs.
Proof.
  induction cs as [|c cs IH]; intros i H; simpl; [reflexivity|].
  inversion H as [|? ? Hc Hcs]; subst.
  rewrite map_app, concat_app, map_ref_text_under, Hc, IH by assumption.
  reflexivity.
Qed.

Lemma concat_text_nodes : forall n,
  concat (map ref_text (text_nodes n)) = textContent n.
Proof.
  induction n as [d|cs IH] using Node_induction; simpl.
  - apply app_nil_r.
  - apply concat_text_nodes_from; assumption.
Qed.

Lemma leaves_total : forall cs,
  total (leaves (Element cs)) = totalLength (Element cs).
Proof.
  intros cs. unfold leaves, totalLength, textLength, walker_nodes.
  rewrite <- total_concat.
  change (fun r => textContent (ref_node r)) with ref_text.
  rewrite concat_text_nodes. reflexivity.
Qed.

Lemma map_under_split : forall i rs pre r post,
  map (under i) rs = pre ++ r :: post ->
  exists pre' r' post',
    rs = pre' ++ r' :: post' /\ pre = map (under i) pre' /\ r = under i r'.
Proof.
  intros i rs pre r post H.
  apply map_eq_app in H. destruct H as (pre' & rest & -> & Hpre & Hrest).
  apply map_eq_cons in Hrest. destruct Hrest as (r' & post' & -> & Hr & _).
  exists pre', r', post'. subst. auto.
Qed.

(** Where a text node of an element comes from: child [j], and every
    earlier child lies before it. *)
Lemma text_nodes_split_from : forall cs i pre r post,
  flat_mapi (fun i c => map (under i) (text_nodes c)) i cs = pre ++ r :: post ->
  exists j c pre' r' post',
    nth_error cs j = Some c
    /\ text_nodes c = pre' ++ r' :: post'
    /\ r = under (i + j) r'
    /\ concat (map ref_text pre)
       = flat_map textContent (firstn j cs) ++ concat (map ref_text pre').
Proof.
  induction cs as [|c cs IH]; intros i pre r post H; simpl in H.
  - destruct pre; discriminate.
  - apply app_eq_app in H. destruct H as (l & [[Ha Hb] | [Ha Hb]]).
    + destruct l as [|x l].
      * simpl in Hb. rewrite app_nil_r in Ha.
        destruct (IH (S i) [] r post (eq_sym Hb))
          as (j & c' & pre' & r' & post' & Hn & Ht & Hr & Hc).
        exists (S j), c', pre', r', post'. repeat split; auto.
        -- rewrite Hr. f_equal. lia.
        -- simpl. rewrite <- Ha, map_ref_text_under, concat_text_nodes.
           simpl in Hc. rewrite <- app_assoc, <- Hc. rewrite app_nil_r.
           reflexivity.
      * inversion Hb; subst x post.
        destruct (map_under_split _ _ _ _ _ Ha)
          as (pre' & r' & post' & Ht & Hp & Hr).
        exists 0, c, pre', r', post'. repeat split; auto.
        -- rewrite Hr. f_equal. lia.
        -- simpl. rewrite Hp, map_ref_text_under. reflexivity.
    + destruct (IH (S i) l r post Hb)
        as (j & c' & pre' & r' & post' & Hn & Ht & Hr & Hc).
      exists (S j), c', pre', r', post'. repeat split; auto.
      * rewrite Hr. f_equal. lia.
      * simpl. rewrite Ha, map_app, concat_app, map_ref_text_under,
          concat_text_nodes, Hc, app_assoc. reflexivity.
Qed.

Lemma Forall_nth_error : forall (A : Type) (P : A -> Prop) l j x,
  Forall P l -> nth_error l j = Some x -> P x.
Proof.
  intros A P l j x H Hn. rewrite Forall_forall in H.
  apply H. eapply nth_error_In; eauto.
Qed.

(** The range from the start of the tree up to a point inside one of its
    text nodes holds the text of the nodes before it and the head of that
    node. *)
Lemma Range_toString_text_node : forall n pre r post,
  text_nodes n = pre ++ r :: post ->
  exists d,
    ref_node r = Text d
    /\ resolve n (ref_path r) = Some (Text d)
    /\ forall off,
         Range_toString (ref_path r) n off
         = concat (map ref_text pre) ++ firstn off d.
Proof.
  induction n as [d|cs IH] using Node_induction; intros pre r post H.
  - simpl in H. destruct pre as [|x pre].
    + inversion H; subst. exists d. simpl. auto.
    + inversion H. destruct pre; discriminate.
  - simpl in H.
    destruct (text_nodes_split_from _ _ _ _ _ H)
      as (j & c & pre' & r' & post' & Hn & Ht & Hr & Hc).
    destruct (Forall_nth_error _ _ _ _ _ IH Hn _ _ _ Ht) as (d & Hd & Hres & Hstr).
    exists d. subst r. simpl. rewrite Hn. repeat split; auto.
    intros off. rewrite Hstr, Hc, app_assoc. reflexivity.
Qed.

(* ===================================================================== *)
(** ** The walk *)
(* ===================================================================== *)

Lemma textLength_ref : forall r, textLength (ref_node r) = JS.length (ref_text r).
Proof. reflexivity. Qed.

Lemma JS_length_nonneg : forall s, (0 <= JS.length s)%Z.
Proof. intros; unfold JS.length; lia. Qed.

(** What the walk returns: the first node whose cumulative end reaches
    the offset, and the offset counted from that node's start. *)
Lemma find_target_some : forall nodes cur o r local,
  find_target nodes cur o = Some (r, local) ->
  exists pre post,
    nodes = pre ++ r :: post
    /\ local = (o - (cur + total (texts pre)))%Z
    /\ (o <= cur + total (texts pre) + JS.length (ref_text r))%Z
    /\ forall pre1 x pre2, pre = pre1 ++ x :: pre2 ->
         (cur + total (texts (pre1 ++ [x])) < o)%Z.
Proof.
  induction nodes as [|x nodes IH]; intros cur o r local H; simpl in H.
  - discriminate.
  - rewrite textLength_ref in H.
    destruct (cur + JS.length (ref_text x) >=? o)%Z eqn:E.
    + inversion H; subst. exists [], nodes. simpl. repeat split; try lia.
      intros pre1 y pre2 Hp. destruct pre1; discriminate.
    + destruct (IH _ _ _ _ H) as (pre & post & Hn & Hl & Hle & Hfirst).
      exists (x :: pre), post. subst nodes. simpl. repeat split; try lia.
      intros pre1 y pre2 Hp. destruct pre1 as [|z pre1].
      * inversion Hp; subst. simpl. lia.
      * inversion Hp; subst. specialize (Hfirst pre1 y pre2 eq_refl).
        unfold texts in *. simpl. lia.
Qed.

Lemma find_target_beyond : forall nodes cur o,
  (cur + total (texts nodes) < o)%Z -> find_target nodes cur o = None.
Proof.
  induction nodes as [|x nodes IH]; intros cur o H; simpl in *; [reflexivity|].
  rewrite textLength_ref.
  pose proof (total_nonneg (texts nodes)).
  destruct (cur + JS.length (ref_text x) >=? o)%Z eqn:E; [lia|].
  apply IH. unfold texts in *. lia.
Qed.

Lemma find_target_within : forall nodes cur o,
  nodes <> [] -> (o <= cur + total (texts nodes))%Z ->
  exists r local, find_target nodes cur o = Some (r, local).
Proof.
  induction nodes as [|x nodes IH]; intros cur o Hne H; [congruence|].
  simpl in *. rewrite textLength_ref.
  destruct (cur + JS.length (ref_text x) >=? o)%Z eqn:E; [eauto|].
  destruct nodes as [|y nodes].
  - simpl in H. lia.
  - apply IH; [discriminate|]. unfold texts in *. lia.
Qed.

Lemma find_target_none : forall nodes cur o,
  find_target nodes cur o = None ->
  nodes = [] \/ (cur + total (texts nodes) < o)%Z.
Proof.
  intros nodes cur o H. destruct nodes as [|x nodes]; [auto|right].
  destruct (Z_lt_le_dec (cur + total (texts (x :: nodes))) o) as [|Hle]; auto.
  destruct (find_target_within (x :: nodes) cur o) as (r & l & Hs);
    [discriminate|assumption|congruence].
Qed.

(** The local offset lies inside the node found, for targets from the
    start of the walk on; it is positive unless the node is the first. *)
Lemma find_target_local : forall nodes cur o r local,
  find_target nodes cur o = Some (r, local) ->
  (local <= JS.length (ref_text r))%Z
  /\ ((cur <= o)%Z -> (0 <= local)%Z)
  /\ ((cur < o)%Z -> (0 < local)%Z).
Proof.
  intros nodes cur o r local H.
  destruct (find_target_some _ _ _ _ _ H) as (pre & post & Hn & Hl & Hle & Hfirst).
  split; [lia|].
  destruct pre as [|y pre'].
  - simpl in *. split; lia.
  - destruct (@exists_last _ (y :: pre')) as (pre1 & x & Hp); [discriminate|].
    specialize (Hfirst pre1 x [] Hp). rewrite <- Hp in Hfirst. split; lia.
Qed.

(* ===================================================================== *)
(** ** Placing the caret *)
(* ===================================================================== *)

(** An offset within the node is handed on as it is and raises nothing. *)
Lemma setStart_offset_in_node : forall node k,
  in_node node k = true ->
  setStart_offset node k = k /\ setStart_raises node k = false.
Proof.
  intros node k Hin. unfold setStart_raises, setStart_offset.
  unfold in_node in Hin. rewrite Hin. split; [reflexivity|].
  apply andb_prop in Hin. destruct Hin as [_ H1].
  apply Z.leb_le in H1. apply Z.ltb_ge. exact H1.
Qed.

(** On a node whose length is an [unsigned long], the offset [setStart]
    works with is the conversion of the offset handed to it. *)
Lemma setStart_offset_unsigned_long : forall node k,
  (Z.of_nat (node_length (ref_node node)) < 2 ^ 32)%Z ->
  setStart_offset node k = unsigned_long k.
Proof.
  intros node k Hlen. unfold setStart_offset, unsigned_long.
  destruct ((0 <=? k) && (k <=? Z.of_nat (node_length (ref_node node))))%Z
    eqn:E; [|reflexivity].
  apply andb_prop in E. destruct E as [H0 H1].
  apply Z.leb_le in H0, H1. symmetry. apply Z.mod_small. lia.
Qed.

(** The [try] block in closed form: either [setStart] raises, and the
    failure is logged, or the caret is placed. *)
Lemma applyPosition_effect : forall targetNode targetOffset h,
  applyPosition targetNode targetOffset h
  = Normal tt
      (if setStart_raises targetNode (clamped targetNode targetOffset)
       then logged h
       else placed (ref_path targetNode)
              (Z.to_nat (setStart_offset targetNode
                           (clamped targetNode targetOffset))) h).
Proof.
  intros targetNode targetOffset h.
  unfold applyPosition, try_catch, bind, Range_setStart.
  fold (clamped targetNode targetOffset).
  unfold setStart_raises.
  destruct (Z.of_nat (node_length (ref_node targetNode))
            <? setStart_offset targetNode (clamped targetNode targetOffset))%Z
    eqn:E.
  - rewrite (proj2 (Z.leb_gt _ _)) by (apply Z.ltb_lt; exact E). reflexivity.
  - rewrite (proj2 (Z.leb_le _ _)) by (apply Z.ltb_ge; exact E).
    unfold ret, removeAllRanges, addRange, placed. simpl.
    destruct (selection h); reflexivity.
Qed.

(** With a valid offset the selection, when there is one, becomes the
    caret; nothing is logged. *)
Lemma applyPosition_placed : forall targetNode targetOffset h,
  in_node targetNode (clamped targetNode targetOffset) = true ->
  applyPosition targetNode targetOffset h
  = Normal tt
      {| selection :=
           match selection h with
           | Some _ =>
               Some [caret (ref_path targetNode)
                       (Z.to_nat (clamped targetNode targetOffset))]
           | None => None
           end;
         console := console h |}.
Proof.
  intros targetNode targetOffset h Hin.
  rewrite applyPosition_effect.
  destruct (setStart_offset_in_node _ _ Hin) as [Hk Hr].
  rewrite Hr, Hk. reflexivity.
Qed.

(** When [setStart] raises, the failure is logged and the selection
    stays as it was. *)
Lemma applyPosition_caught : forall targetNode targetOffset h,
  setStart_raises targetNode (clamped targetNode targetOffset) = true ->
  applyPosition targetNode targetOffset h = Normal tt (logged h).
Proof.
  intros targetNode targetOffset h Hr.
  rewrite applyPosition_effect, Hr. reflexivity.
Qed.

Lemma walker_nodes_Element : forall cs,
  walker_nodes (Element cs) = text_nodes (Element cs).
Proof. reflexivity. Qed.

Lemma walker_total : forall cs,
  total (texts (walker_nodes (Element cs))) = totalLength (Element cs).
Proof. intros cs. apply (leaves_total cs). Qed.

(** What [positionFromOffset] returns for an offset inside the text: a
    text node of the tree and a local offset inside it, such that the
    text before the node and the local offset add up to the offset. *)
Lemma positionFromOffset_in_range : forall cs o r local,
  (0 <= o)%Z ->
  find_target (walker_nodes (Element cs)) 0 o = Some (r, local) ->
  exists d,
    ref_node r = Text d
    /\ resolve (Element cs) (ref_path r) = Some (Text d)
    /\ (0 <= local <= JS.length d)%Z
    /\ offsetFromPosition (Element cs) (ref_path r) (Z.to_nat local) = o.
Proof.
  intros cs o r local Ho H.
  destruct (find_target_local _ _ _ _ _ H) as (Hhi & Hlo & _).
  destruct (find_target_some _ _ _ _ _ H) as (pre & post & Hn & Hl & _ & _).
  rewrite walker_nodes_Element in Hn.
  destruct (Range_toString_text_node _ _ _ _ Hn) as (d & Hd & Hres & Hstr).
  assert (Hrt : ref_text r = d) by (unfold ref_text; rewrite Hd; reflexivity).
  rewrite Hrt in Hhi. specialize (Hlo Ho).
  exists d. repeat split; auto.
  unfold offsetFromPosition. rewrite Hstr.
  unfold JS.length in *. rewrite length_app, length_firstn, Nat2Z.inj_add.
  fold (JS.length (concat (map ref_text pre))). rewrite total_concat.
  fold (texts pre). rewrite Nat2Z.inj_min, Z2Nat.id by lia. lia.
Qed.

(** Without text nodes there is no text. *)
Lemma no_walker_nodes_no_text : forall cs,
  walker_nodes (Element cs) = [] -> totalLength (Element cs) = 0%Z.
Proof.
  intros cs H. rewrite <- walker_total, H. reflexivity.
Qed.

(* ===================================================================== *)
(** ** Round trip *)
(* ===================================================================== *)

(** C1. Round-trip law. For every tree (an element with any children)
    and every offset [o] between 0 and the total length of its text, the
    position [setCursorPosition] computes for [o] is a boundary point of
    the tree (a text node with a local offset inside it, or the element
    at 0 when there is no text node), and [getCursorPosition] reads
    exactly [o] back from it: as pure functions, and through the
    selection of any host that has one. *)
Theorem round_trip_offset :
  forall (children : list Node) (o : Z),
    (0 <= o <= totalLength (Element children))%Z ->
    let T := Element children in
    let target := fst (positionFromOffset T o) in
    let local := snd (positionFromOffset T o) in
    resolve T (ref_path target) = Some (ref_node target)
    /\ (0 <= local <= Z.of_nat (node_length (ref_node target)))%Z
    /\ offsetFromPosition T (ref_path target) (Z.to_nat local) = o
    /\ forall (position : CursorPosition) (h : Host) (ranges : list Range),
         offset position = o ->
         selection h = Some ranges ->
         exists h',
           setCursorPosition T position h = Normal tt h'
           /\ selection h' = Some [caret (ref_path target) (Z.to_nat local)]
           /\ getCursorPosition T h'
              = Some {| offset := o; node := Some (ref_path target) |}.
Proof.
  intros children o Ho T target local.
  assert (Hpos : resolve T (ref_path target) = Some (ref_node target)
                 /\ (0 <= local <= Z.of_nat (node_length (ref_node target)))%Z
                 /\ (local <= textLength (ref_node target))%Z
                 /\ offsetFromPosition T (ref_path target) (Z.to_nat local) = o).
  { subst target local. unfold positionFromOffset.
    destruct (find_target (walker_nodes T) 0 o) as [[r l]|] eqn:E; simpl.
    - destruct (positionFromOffset_in_range children o r l (proj1 Ho) E)
        as (d & Hd & Hres & Hl & Hoff).
      rewrite Hd. simpl. unfold textLength. simpl.
      unfold JS.length in *. repeat split; auto; lia.
    - destruct (find_target_none _ _ _ E) as [Hnil | Hlt].
      + pose proof (no_walker_nodes_no_text children Hnil) as H0.
        assert (o = 0%Z) by lia. subst o.
        unfold textLength. pose proof (JS_length_nonneg (textContent T)).
        repeat split; auto; lia.
      + unfold T in Hlt. rewrite walker_total in Hlt. lia. }
  destruct Hpos as (Hres & Hl & Hlt & Hoff).
  repeat split; auto; try lia.
  intros position h ranges Hposn Hsel.
  unfold setCursorPosition. rewrite Hposn.
  rewrite (surjective_pairing (positionFromOffset T o)).
  fold target local.
  assert (Hc : clamped target local = local) by (unfold clamped; lia).
  rewrite applyPosition_placed.
  - rewrite Hsel, Hc. eexists. split; [reflexivity|]. split; [reflexivity|].
    unfold getCursorPosition. simpl. rewrite Hoff. reflexivity.
  - rewrite Hc. unfold in_node. apply andb_true_intro. split; lia.
Qed.

Lemma round_trip_offset_witness :
  (0 <= 3 <= totalLength abc_de)%Z
  /\ offsetFromPosition abc_de
       (ref_path (fst (positionFromOffset abc_de 3)))
       (Z.to_nat (snd (positionFromOffset abc_de 3))) = 3%Z
  /\ exists h',
       setCursorPosition abc_de {| offset := 3; node := None |} live
       = Normal tt h'
       /\ getCursorPosition abc_de h'
          = Some {| offset := 3; node := Some [0] |}.
Proof.
  assert (Hr : (0 <= 3 <= totalLength abc_de)%Z) by (vm_compute; split; discriminate).
  split; [exact Hr|].
  destruct (round_trip_offset [Text (JS.lit "abc"); Text (JS.lit "de")] 3 Hr)
    as (_ & _ & Hoff & Hhost).
  split; [exact Hoff|].
  destruct (Hhost {| offset := 3; node := None |} live [] eq_refl eq_refl)
    as (h' & Hset & _ & Hget).
  exists h'. split; [exact Hset | exact Hget].
Defined.

(* ===================================================================== *)
(** ** Leaf boundaries *)
(* ===================================================================== *)

Lemma leaves_texts : forall T, leaves T = texts (walker_nodes T).
Proof. reflexivity. Qed.

Lemma total_firstn_le : forall ls n, (total (firstn n ls) <= total ls)%Z.
Proof.
  induction ls as [|l ls IH]; intros [|n]; simpl; try lia.
  - pose proof (total_nonneg ls). pose proof (JS_length_nonneg l). lia.
  - specialize (IH n). lia.
Qed.

Lemma total_firstn_mono : forall ls n m,
  n <= m -> (total (firstn n ls) <= total (firstn m ls))%Z.
Proof.
  induction ls as [|l ls IH]; intros n m H.
  - rewrite !firstn_nil. lia.
  - destruct n as [|n]; destruct m as [|m]; simpl; try lia.
    + pose proof (total_nonneg (firstn m ls)). pose proof (JS_length_nonneg l).
      lia.
    + specialize (IH n m). lia.
Qed.

Lemma total_firstn_S : forall ls k l,
  nth_error ls k = Some l ->
  total (firstn (S k) ls) = (total (firstn k ls) + JS.length l)%Z.
Proof.
  induction ls as [|x ls IH]; intros [|k] l H; simpl in *; try discriminate.
  - inversion H; subst. lia.
  - rewrite (IH k l H). lia.
Qed.

Lemma firstn_texts_split : forall pre r post,
  firstn (S (length pre)) (texts (pre ++ r :: post)) = texts (pre ++ [r]).
Proof.
  induction pre as [|x pre IH]; intros r post.
  - reflexivity.
  - change (firstn (S (length (x :: pre))) (texts ((x :: pre) ++ r :: post)))
      with (ref_text x :: firstn (S (length pre)) (texts (pre ++ r :: post))).
    rewrite IH. reflexivity.
Qed.

(** The walk, told by positions in the list of leaves: it stops at the
    first leaf whose cumulative end reaches the offset. *)
Lemma find_target_index : forall nodes o r local,
  find_target nodes 0 o = Some (r, local) ->
  exists j,
    nth_error nodes j = Some r
    /\ local = (o - total (firstn j (texts nodes)))%Z
    /\ (o <= cumulative_end (texts nodes) j)%Z
    /\ forall i, i < j -> (cumulative_end (texts nodes) i < o)%Z.
Proof.
  intros nodes o r local H.
  destruct (find_target_some _ _ _ _ _ H) as (pre & post & Hn & Hl & Hle & Hfirst).
  exists (length pre). subst nodes. repeat split.
  - rewrite nth_error_app2, Nat.sub_diag by lia. reflexivity.
  - unfold texts at 1. rewrite map_app, firstn_app, length_map, Nat.sub_diag.
    rewrite firstn_all2 by (rewrite length_map; lia).
    simpl. rewrite app_nil_r. fold (texts pre). lia.
  - unfold cumulative_end. rewrite firstn_texts_split.
    unfold texts. rewrite map_app, total_app. simpl. fold (texts pre). lia.
  - intros i Hi.
    destruct (nth_error pre i) as [x|] eqn:Ex;
      [|apply nth_error_None in Ex; lia].
    apply nth_error_split in Ex. destruct Ex as (pre1 & pre2 & Hp & Hlen).
    specialize (Hfirst pre1 x pre2 Hp).
    unfold cumulative_end. subst pre i. rewrite <- app_assoc.
    change ((x :: pre2) ++ r :: post) with (x :: (pre2 ++ r :: post)).
    rewrite firstn_texts_split. lia.
Qed.

(** C2. Boundary tie-break. When some leaf ends at cumulative offset
    [c > 0], the position for [c] is on the earlier side of the
    boundary: on the first leaf in document order that ends at [c],
    which is that very leaf whenever it is not empty (an empty leaf that
    ends at [c] lies behind the boundary itself), with the local offset
    equal to the length of the leaf resolved to, a positive number:
    never local offset 0 on a later leaf. For the leaves ["abc"] and
    ["de"], offset 3 resolves to the first leaf at local offset 3 and
    offset 5 to the second leaf at local offset 2. *)
Theorem boundary_resolves_to_first_leaf :
  (forall (children : list Node) (k : nat) (leaf : JS.str) (c : Z),
     let T := Element children in
     nth_error (leaves T) k = Some leaf ->
     cumulative_end (leaves T) k = c ->
     (0 < c)%Z ->
     exists j r,
       j <= k
       /\ nth_error (walker_nodes T) j = Some r
       /\ cumulative_end (leaves T) j = c
       /\ (forall i, i < j -> (cumulative_end (leaves T) i < c)%Z)
       /\ positionFromOffset T c = (r, JS.length (ref_text r))
       /\ (0 < JS.length (ref_text r))%Z
       /\ (leaf <> [] -> j = k)
       /\ (forall later, positionFromOffset T c <> (later, 0%Z)))
  /\ positionFromOffset abc_de 3
     = ({| ref_path := [0]; ref_node := Text (JS.lit "abc") |}, 3%Z)
  /\ positionFromOffset abc_de 5
     = ({| ref_path := [1]; ref_node := Text (JS.lit "de") |}, 2%Z).
Proof.
  split; [|split; reflexivity].
  intros children k leaf c T Hk Hend Hc.
  rewrite leaves_texts in *. set (nodes := walker_nodes T) in *.
  assert (Hle : (c <= 0 + total (texts nodes))%Z).
  { rewrite <- Hend. unfold cumulative_end.
    pose proof (total_firstn_le (texts nodes) (S k)). lia. }
  assert (Hne : nodes <> []).
  { intros E. rewrite E in Hk. destruct k; discriminate. }
  destruct (find_target_within nodes 0 c Hne Hle) as (r & local & Hfind).
  destruct (find_target_index _ _ _ _ Hfind) as (j & Hj & Hl & Hreach & Hfirst).
  destruct (find_target_local _ _ _ _ _ Hfind) as (_ & _ & Hpos).
  specialize (Hpos Hc).
  assert (Hjk : j <= k).
  { destruct (le_lt_dec j k) as [|Hlt]; auto.
    specialize (Hfirst k Hlt). lia. }
  assert (Hmono : (cumulative_end (texts nodes) j
                   <= cumulative_end (texts nodes) k)%Z).
  { unfold cumulative_end. apply total_firstn_mono. lia. }
  assert (Hj' : nth_error (texts nodes) j = Some (ref_text r)).
  { unfold texts. rewrite nth_error_map, Hj. reflexivity. }
  assert (Hcum : cumulative_end (texts nodes) j = c) by lia.
  pose proof (total_firstn_S _ _ _ Hj') as HS. fold (cumulative_end (texts nodes) j) in HS.
  exists j, r. repeat split; auto; try lia.
  - unfold positionFromOffset. fold nodes. rewrite Hfind. f_equal. lia.
  - intros Hleaf. destruct (Nat.eq_dec j k) as [|Hneq]; auto. exfalso.
    assert (Hlt : S j <= k) by lia.
    pose proof (total_firstn_mono (texts nodes) _ _ Hlt) as Hm.
    pose proof (total_firstn_S _ _ _ Hk) as Hk'.
    fold (cumulative_end (texts nodes) k) in Hk'.
    fold (cumulative_end (texts nodes) j) in Hm.
    pose proof (JS_length_nonneg leaf).
    assert (Hz : JS.length leaf = 0%Z) by lia.
    destruct leaf; [congruence|]. discriminate Hz.
  - intros later E. unfold positionFromOffset in E. fold nodes in E.
    rewrite Hfind in E. inversion E. lia.
Qed.

Lemma boundary_resolves_to_first_leaf_witness :
  exists j r,
    j <= 0
    /\ nth_error (walker_nodes abc_de) j = Some r
    /\ positionFromOffset abc_de 3 = (r, JS.length (ref_text r)).
Proof.
  destruct (proj1 boundary_resolves_to_first_leaf
              [Text (JS.lit "abc"); Text (JS.lit "de")] 0 (JS.lit "abc") 3%Z
              eq_refl eq_refl eq_refl)
    as (j & r & Hj & Hn & _ & _ & Hp & _).
  exists j, r. repeat split; assumption.
Defined.

(* ===================================================================== *)
(** ** Offsets beyond the text, trees without text *)
(* ===================================================================== *)

Lemma no_text_no_nodes_from : forall cs i,
  Forall (fun c => no_text c = true -> text_nodes c = []) cs ->
  forallb no_text cs = true ->
  flat_mapi (fun i c => map (under i) (text_nodes c)) i cs = [].
Proof.
  induction cs as [|c cs IH]; intros i HF H; simpl in *; [reflexivity|].
  apply andb_prop in H. destruct H as [Hc Hcs].
  inversion HF as [|? ? Pc Pcs]; subst.
  rewrite (Pc Hc), (IH (S i) Pcs Hcs). reflexivity.
Qed.

Lemma no_text_no_nodes : forall n, no_text n = true -> text_nodes n = [].
Proof.
  induction n as [d|cs IH] using Node_induction; simpl; intros H.
  - discriminate.
  - apply no_text_no_nodes_from; assumption.
Qed.

Lemma no_text_walker : forall T, no_text T = true -> walker_nodes T = [].
Proof.
  intros [d|cs] H; [reflexivity|]. apply (no_text_no_nodes (Element cs) H).
Qed.

(** The fallback target always fits: the container at offset 0. *)
Lemma applyPosition_element : forall T h,
  applyPosition (element_ref T) 0 h
  = Normal tt
      {| selection := match selection h with
                      | Some _ => Some [caret [] 0]
                      | None => None
                      end;
         console := console h |}.
Proof.
  intros T h.
  assert (Hc : clamped (element_ref T) 0 = 0%Z).
  { unfold clamped, textLength. pose proof (JS_length_nonneg (textContent T)).
    simpl. lia. }
  rewrite applyPosition_placed; rewrite Hc; [reflexivity|].
  unfold in_node. simpl. apply Z.leb_le. lia.
Qed.

Lemma find_target_beyond_total : forall children o,
  (totalLength (Element children) < o)%Z ->
  find_target (walker_nodes (Element children)) 0 o = None.
Proof.
  intros children o H. apply find_target_beyond.
  rewrite walker_total. lia.
Qed.

(** C3 as amended. For every tree with total length [L] and every
    [k > 0], the walk for [L + k] finds no text node and nothing clamps
    to the last leaf: [setCursorPosition] falls back to the container
    element at offset 0 and [setCursorAtOffset] leaves the host as it is.
    Neither signals an error: both complete and nothing is logged. For
    the leaves ["abc"] and ["de"], offset 9 resolves to the container at
    offset 0. *)
Theorem beyond_total_no_clamp :
  forall (children : list Node) (k : Z) (position : CursorPosition) (h : Host),
    let T := Element children in
    let L := totalLength T in
    (0 < k)%Z ->
    offset position = (L + k)%Z ->
    find_target (walker_nodes T) 0 (L + k) = None
    /\ positionFromOffset T (L + k) = (element_ref T, 0%Z)
    /\ setCursorPosition T position h
       = Normal tt
           {| selection := match selection h with
                           | Some _ => Some [caret [] 0]
                           | None => None
                           end;
              console := console h |}
    /\ setCursorAtOffset T (L + k) h = Normal tt h.
Proof.
  intros children k position h T L Hk Hpos.
  assert (Hnone : find_target (walker_nodes T) 0 (L + k) = None).
  { apply find_target_beyond_total. fold T L. lia. }
  assert (Hp : positionFromOffset T (L + k) = (element_ref T, 0%Z)).
  { unfold positionFromOffset. rewrite Hnone. reflexivity. }
  repeat split; auto.
  - unfold setCursorPosition. rewrite Hpos, Hp. apply applyPosition_element.
  - unfold setCursorAtOffset. rewrite Hnone. reflexivity.
Qed.

Lemma beyond_total_no_clamp_witness :
  positionFromOffset abc_de 9 = (element_ref abc_de, 0%Z)
  /\ setCursorAtOffset abc_de 9 live = Normal tt live.
Proof.
  destruct (beyond_total_no_clamp [Text (JS.lit "abc"); Text (JS.lit "de")] 4
              {| offset := 9; node := None |} live eq_refl eq_refl)
    as (_ & Hp & _ & Hs).
  split; [exact Hp | exact Hs].
Defined.

(** C3 as stated fails: for the leaves ["abc"] and ["de"] (total length
    5) offset 9 does not resolve to the position of offset 5, the second
    leaf at local offset 2, but to the container at offset 0, and
    [setCursorAtOffset] does not move the caret at all. *)
Lemma offset_9_is_not_clamped :
  totalLength abc_de = 5%Z
  /\ positionFromOffset abc_de 5
     = ({| ref_path := [1]; ref_node := Text (JS.lit "de") |}, 2%Z)
  /\ positionFromOffset abc_de 9 = (element_ref abc_de, 0%Z)
  /\ positionFromOffset abc_de 9 <> positionFromOffset abc_de 5
  /\ setCursorAtOffset abc_de 9 live = Normal tt live
  /\ setCursorAtOffset abc_de 5 live
     = Normal tt {| selection := Some [caret [1] 2]; console := [] |}.
Proof.
  repeat split; try reflexivity. discriminate.
Qed.

(** C8. Empty tree. For every tree without text nodes,
    [setCursorPosition] resolves offset 0 to the degenerate position, the
    container itself at local offset 0. No tree leaves it without a
    position: for every element and every offset the target is a node of
    the tree, a text node found by the walk or else the container. The
    only case in which nothing is resolved is that of no element at all,
    where the hook [setCursor] returns without touching the host. *)
Theorem empty_tree_degenerate_position :
  (forall T : Node,
     no_text T = true ->
     positionFromOffset T 0 = (element_ref T, 0%Z))
  /\ (forall (T : Node) (o : Z),
        resolve T (ref_path (fst (positionFromOffset T o)))
        = Some (ref_node (fst (positionFromOffset T o)))
        /\ (find_target (walker_nodes T) 0 o = None ->
            positionFromOffset T o = (element_ref T, 0%Z)))
  /\ (forall (elementRef : option Node) (position : CursorPosition) (h : Host),
        match elementRef with
        | None => useCursorPosition.setCursor elementRef position h = Normal tt h
        | Some T =>
            useCursorPosition.setCursor elementRef position h
            = let (targetNode, targetOffset) :=
                positionFromOffset T (offset position) in
              applyPosition targetNode targetOffset h
        end).
Proof.
  split; [|split].
  - intros T H. unfold positionFromOffset.
    rewrite (no_text_walker T H). reflexivity.
  - intros T o. unfold positionFromOffset.
    destruct (find_target (walker_nodes T) 0 o) as [[r l]|] eqn:E; simpl.
    + split; [|discriminate].
      destruct T as [d|cs]; [discriminate|].
      destruct (find_target_some _ _ _ _ _ E) as (pre & post & Hn & _).
      destruct (Range_toString_text_node _ _ _ _ Hn) as (d & Hd & Hres & _).
      rewrite Hres, Hd. reflexivity.
    + split; reflexivity.
  - intros [T|] position h; [|reflexivity].
    unfold useCursorPosition.setCursor, setCursorPosition.
    destruct (positionFromOffset T (offset position)); reflexivity.
Qed.

Lemma empty_tree_degenerate_position_witness :
  positionFromOffset (Element [Element []; Element [Element []]]) 0
  = (element_ref (Element [Element []; Element [Element []]]), 0%Z).
Proof.
  apply (proj1 empty_tree_degenerate_position
           (Element [Element []; Element [Element []]])).
  reflexivity.
Defined.

(* ===================================================================== *)
(** ** Failures while placing the caret *)
(* ===================================================================== *)

(** Whatever the body of the [try] block does, the [catch] that logs a
    warning completes. *)
Lemma try_catch_warn_completes :
  forall (body : Script unit) (message : String.string) (h : Host),
  exists h', try_catch body (fun error => console_warn message error) h
             = Normal tt h'.
Proof.
  intros body message h. unfold try_catch.
  destruct (body h) as [[] h'|e h']; eexists; reflexivity.
Qed.

(** C9. Placing the caret never throws. For every tree, every requested
    offset and every host, [setCursorPosition] and [setCursorAtOffset]
    complete normally, and what they leave is known: when [setStart]
    raises for the target they computed (the offset handed to it, taken
    as an [unsigned long], lies beyond the target node) the failure is
    caught, one warning is logged and the selection is left as it was;
    otherwise the caret is placed and nothing is logged; and
    [setCursorAtOffset] leaves the host as it is when the walk finds no
    text node. The [catch] completes for any other body of the [try]
    block as well. Offset [-3] on the leaves ["abc"] and ["de"] is caught
    and logged by both functions; offset [-4294967295] arrives at
    [setStart] as 1 and places the caret. *)
Theorem applyPosition_never_throws :
  (forall (body : Script unit) (h : Host),
     exists h',
       try_catch body
         (fun error => console_warn "Failed to set cursor position:" error) h
       = Normal tt h')
  /\ (forall (targetNode : NodeRef) (targetOffset : Z) (h : Host),
        applyPosition targetNode targetOffset h
        = Normal tt
            (if setStart_raises targetNode (clamped targetNode targetOffset)
             then logged h
             else placed (ref_path targetNode)
                    (Z.to_nat (setStart_offset targetNode
                                 (clamped targetNode targetOffset))) h))
  /\ (forall (element : Node) (position : CursorPosition) (h : Host),
        setCursorPosition element position h
        = Normal tt
            (let (targetNode, targetOffset) :=
               positionFromOffset element (offset position) in
             if setStart_raises targetNode (clamped targetNode targetOffset)
             then logged h
             else placed (ref_path targetNode)
                    (Z.to_nat (setStart_offset targetNode
                                 (clamped targetNode targetOffset))) h))
  /\ (forall (element : Node) (targetOffset : Z) (h : Host),
        setCursorAtOffset element targetOffset h
        = Normal tt
            match find_target (walker_nodes element) 0 targetOffset with
            | Some (targetNode, nodeOffset) =>
                if setStart_raises targetNode (clamped targetNode nodeOffset)
                then logged h
                else placed (ref_path targetNode)
                       (Z.to_nat (setStart_offset targetNode
                                    (clamped targetNode nodeOffset))) h
            | None => h
            end)
  /\ setCursorPosition abc_de {| offset := -3; node := None |} live
     = Normal tt (logged live)
  /\ setCursorAtOffset abc_de (-3) live = Normal tt (logged live)
  /\ setCursorAtOffset abc_de (-4294967295) live
     = Normal tt (placed [0] 1 live)
  /\ logged live <> live
  /\ placed [0] 1 live <> live.
Proof.
  split; [|split; [|split; [|split]]].
  - intros body h. apply try_catch_warn_completes.
  - apply applyPosition_effect.
  - intros element position h. unfold setCursorPosition.
    destruct (positionFromOffset element (offset position)) as [t l].
    apply applyPosition_effect.
  - intros element targetOffset h. unfold setCursorAtOffset.
    destruct (find_target (walker_nodes element) 0 targetOffset) as [[t l]|].
    + apply applyPosition_effect.
    + reflexivity.
  - repeat split; try reflexivity; discriminate.
Qed.

(* ===================================================================== *)
(** ** The two setters compared *)
(* ===================================================================== *)

(** C10 as amended. Whenever the walk finds a text node, which it does
    for every tree with at least one text node and every offset up to
    the total length, [setCursorPosition] and [setCursorAtOffset] apply
    the same position (same text node, same local offset) and have the
    same effect. When the walk finds none, as for every offset beyond
    the total length and for every tree without text nodes,
    [setCursorAtOffset] leaves the host unchanged while
    [setCursorPosition] collapses the selection, if there is one, to the
    container at child offset 0; the two then differ unless the
    selection already was that caret. *)
Theorem setters_agree_iff_walk_finds :
  (forall (children : list Node) (o : Z),
     let T := Element children in
     walker_nodes T <> [] ->
     (o <= totalLength T)%Z ->
     exists r local, find_target (walker_nodes T) 0 o = Some (r, local))
  /\ (forall (T : Node) (position : CursorPosition) (h : Host) r local,
        find_target (walker_nodes T) 0 (offset position) = Some (r, local) ->
        positionFromOffset T (offset position) = (r, local)
        /\ setCursorPosition T position h = applyPosition r local h
        /\ setCursorAtOffset T (offset position) h = applyPosition r local h)
  /\ (forall (children : list Node) (o : Z),
        (totalLength (Element children) < o)%Z ->
        find_target (walker_nodes (Element children)) 0 o = None)
  /\ (forall (T : Node) (o : Z),
        no_text T = true -> find_target (walker_nodes T) 0 o = None)
  /\ (forall (T : Node) (position : CursorPosition) (h : Host),
        find_target (walker_nodes T) 0 (offset position) = None ->
        setCursorAtOffset T (offset position) h = Normal tt h
        /\ setCursorPosition T position h
           = Normal tt
               {| selection := match selection h with
                               | Some _ => Some [caret [] 0]
                               | None => None
                               end;
                  console := console h |}
        /\ forall ranges,
             selection h = Some ranges ->
             ranges <> [caret [] 0] ->
             setCursorPosition T position h
             <> setCursorAtOffset T (offset position) h).
Proof.
  split; [|split; [|split; [|split]]].
  - intros children o T Hne Hle. apply find_target_within; auto.
    unfold T in *. rewrite walker_total. lia.
  - intros T position h r local H.
    unfold positionFromOffset, setCursorPosition, setCursorAtOffset,
      positionFromOffset.
    rewrite H. auto.
  - apply find_target_beyond_total.
  - intros T o H. rewrite (no_text_walker T H). reflexivity.
  - intros T position h H.
    assert (Hat : setCursorAtOffset T (offset position) h = Normal tt h).
    { unfold setCursorAtOffset. rewrite H. reflexivity. }
    assert (Hset : setCursorPosition T position h
                   = Normal tt
                       {| selection := match selection h with
                                       | Some _ => Some [caret [] 0]
                                       | None => None
                                       end;
                          console := console h |}).
    { unfold setCursorPosition, positionFromOffset. rewrite H.
      apply applyPosition_element. }
    repeat split; auto.
    intros ranges Hsel Hne. rewrite Hat, Hset, Hsel. intros E.
    inversion E as [Hh]. rewrite <- Hh in Hsel. simpl in Hsel.
    inversion Hsel. congruence.
Qed.

Lemma setters_agree_iff_walk_finds_witness :
  (exists r local, find_target (walker_nodes abc_de) 0 5 = Some (r, local))
  /\ setCursorPosition abc_de {| offset := 5; node := None |} live
     = setCursorAtOffset abc_de 5 live
  /\ setCursorAtOffset abc_de 9 live = Normal tt live
  /\ setCursorPosition abc_de {| offset := 9; node := None |} live
     <> setCursorAtOffset abc_de 9 live
  /\ find_target (walker_nodes (Element [Element []])) 0 0 = None.
Proof.
  destruct setters_agree_iff_walk_finds as (Hfinds & Hsame & Hbeyond & Hnotext & Hnone).
  split; [|split; [|split; [|split]]].
  - apply (Hfinds [Text (JS.lit "abc"); Text (JS.lit "de")] 5%Z).
    + discriminate.
    + vm_compute. discriminate.
  - destruct (Hsame abc_de {| offset := 5; node := None |} live
                {| ref_path := [1]; ref_node := Text (JS.lit "de") |} 2%Z
                eq_refl) as (_ & H1 & H2).
    rewrite H1. symmetry. exact H2.
  - apply (Hnone abc_de {| offset := 9; node := None |} live).
    apply (Hbeyond [Text (JS.lit "abc"); Text (JS.lit "de")] 9%Z).
    reflexivity.
  - apply (Hnone abc_de {| offset := 9; node := None |} live) with (ranges := []).
    + apply (Hbeyond [Text (JS.lit "abc"); Text (JS.lit "de")] 9%Z). reflexivity.
    + reflexivity.
    + discriminate.
  - apply (Hnotext (Element [Element []]) 0%Z). reflexivity.
Defined.

(** C10 as stated fails on a tree without text nodes: there the total
    length is 0, offset 0 is in range, and still [setCursorAtOffset]
    does nothing while [setCursorPosition] places the caret in the
    container. *)
Lemma setters_differ_on_empty_tree :
  totalLength (Element []) = 0%Z
  /\ positionFromOffset (Element []) 0 = (element_ref (Element []), 0%Z)
  /\ find_target (walker_nodes (Element [])) 0 0 = None
  /\ setCursorAtOffset (Element []) 0 live = Normal tt live
  /\ setCursorPosition (Element []) {| offset := 0; node := None |} live
     = Normal tt {| selection := Some [caret [] 0]; console := [] |}
  /\ setCursorPosition (Element []) {| offset := 0; node := None |} live
     <> setCursorAtOffset (Element []) 0 live.
Proof.
  repeat split; try reflexivity. discriminate.
Qed.

(* ===================================================================== *)
(** ** Reading the caret *)
(* ===================================================================== *)

Lemma flat_map_firstn_length : forall (cs : list Node) k,
  length (flat_map textContent (firstn k cs))
  <= length (flat_map textContent cs).
Proof.
  induction cs as [|c cs IH]; intros [|k]; simpl; try lia.
  rewrite !length_app. specialize (IH k). lia.
Qed.

Lemma flat_map_split_nth : forall (cs : list Node) i c,
  nth_error cs i = Some c ->
  length (flat_map textContent (firstn i cs)) + length (textContent c)
  <= length (flat_map textContent cs).
Proof.
  induction cs as [|x cs IH]; intros [|i] c H; simpl in *; try discriminate.
  - inversion H; subst. rewrite length_app. lia.
  - rewrite !length_app. specialize (IH i c H). lia.
Qed.

(** The text before a boundary point is part of the text of the tree. *)
Lemma Range_toString_length : forall container element off,
  length (Range_toString container element off)
  <= length (textContent element).
Proof.
  induction container as [|i p IH]; intros element off; simpl.
  - destruct element as [d|cs]; simpl.
    + rewrite length_firstn. lia.
    + apply flat_map_firstn_length.
  - destruct element as [d|cs]; simpl; [lia|].
    rewrite length_app.
    destruct (nth_error cs i) as [c|] eqn:E.
    + specialize (IH c off). pose proof (flat_map_split_nth cs i c E). lia.
    + pose proof (flat_map_firstn_length cs i). simpl. lia.
Qed.

(** C7. [getCursorPosition] returns [null] exactly when there is no
    selection object or the selection has no range. In every other case
    it returns an offset, a non-negative integer computed from the first
    range (and that range's start container as node), so the absence of
    an anchor is never reported as offset 0. When the anchor is a
    boundary point of the tree, the offset is at most the total text
    length of the element. *)
Theorem getCursorPosition_null_iff_no_anchor :
  forall (element : Node) (h : Host),
    (getCursorPosition element h = None
     <-> selection h = None \/ selection h = Some [])
    /\ forall range rest,
         selection h = Some (range :: rest) ->
         exists off,
           getCursorPosition element h
           = Some {| offset := off; node := Some (startContainer range) |}
           /\ off = offsetFromPosition element (startContainer range)
                      (startOffset range)
           /\ (0 <= off)%Z
           /\ (reachable element (startContainer range) (startOffset range) ->
               (off <= totalLength element)%Z).
Proof.
  intros element h. split.
  - unfold getCursorPosition. destruct (selection h) as [[|r rs]|]; split;
      intros H; auto; try discriminate; destruct H; discriminate.
  - intros range rest Hsel. unfold getCursorPosition. rewrite Hsel.
    eexists. split; [reflexivity|]. split; [reflexivity|].
    unfold offsetFromPosition, totalLength, textLength, JS.length.
    split; [lia|]. intros _.
    pose proof (Range_toString_length (startContainer range) element
                  (startOffset range)). lia.
Qed.

Lemma getCursorPosition_null_iff_no_anchor_witness :
  exists off,
    getCursorPosition abc_de
      {| selection := Some [caret [1] 1]; console := [] |}
    = Some {| offset := off; node := Some [1] |}
    /\ (0 <= off <= totalLength abc_de)%Z.
Proof.
  destruct (proj2 (getCursorPosition_null_iff_no_anchor abc_de
                     {| selection := Some [caret [1] 1]; console := [] |})
              (caret [1] 1) [] eq_refl)
    as (off & Hget & _ & Hlo & Hhi).
  exists off. split; [exact Hget|]. split; [exact Hlo|].
  apply Hhi. exists (Text (JS.lit "de")). split; [reflexivity|].
  simpl. lia.
Defined.

(* ===================================================================== *)
(** ** Statistics *)
(* ===================================================================== *)

Lemma trimStart_all_space : forall s, all_space s = true -> JS.trimStart s = [].
Proof.
  induction s as [|u s IH]; simpl; intros H; [reflexivity|].
  apply andb_prop in H. destruct H as [Hu Hs]. rewrite Hu. auto.
Qed.

Lemma trimStart_head : forall s,
  JS.trimStart s = []
  \/ exists u t, JS.trimStart s = u :: t /\ JS.is_space u = false.
Proof.
  induction s as [|u s IH]; simpl; [auto|].
  destruct (JS.is_space u) eqn:E; [exact IH|right; eauto].
Qed.

Lemma trimStart_keeps_last : forall s x,
  JS.is_space x = false ->
  JS.trimStart (s ++ [x]) = JS.trimStart s ++ [x].
Proof.
  induction s as [|u s IH]; intros x Hx; simpl.
  - rewrite Hx. reflexivity.
  - destruct (JS.is_space u); [apply IH; assumption|reflexivity].
Qed.

Lemma ends_in_space_last : forall s d x,
  ends_in_space d (s ++ [x]) = JS.is_space x.
Proof.
  induction s as [|u s IH]; intros d x; simpl; [reflexivity|apply IH].
Qed.

(** A trimmed string is empty, or begins and ends outside white space. *)
Lemma trim_shape : forall s,
  JS.trim s = []
  \/ exists u t,
       JS.trim s = u :: t
       /\ JS.is_space u = false
       /\ ends_in_space false (JS.trim s) = false.
Proof.
  intros s.
  destruct (trimStart_head s) as [E | (u & t & E & Hu)].
  - left. unfold JS.trim, JS.trimEnd. rewrite E. reflexivity.
  - right.
    assert (Ht : JS.trim s = u :: rev (JS.trimStart (rev t))).
    { unfold JS.trim, JS.trimEnd. rewrite E. simpl rev.
      rewrite (trimStart_keeps_last (rev t) u Hu), rev_app_distr.
      reflexivity. }
    exists u, (rev (JS.trimStart (rev t))). rewrite Ht.
    repeat split; auto.
    destruct (trimStart_head (rev t)) as [E' | (v & w & E' & Hv)]; rewrite E'.
    + simpl. assumption.
    + change (u :: rev (v :: w)) with (u :: (rev w ++ [v])).
      rewrite app_comm_cons, ends_in_space_last. assumption.
Qed.

(** The number of pieces of a split, by the runs outside white space. *)
Lemma split_go_length : forall s,
  (forall piece,
     length (JS.split_go piece false s)
     = 1 + count_runs true s + Nat.b2n (ends_in_space false s))
  /\ length (JS.split_go [] true s)
     = count_runs false s + Nat.b2n (ends_in_space true s).
Proof.
  induction s as [|u s [IHf IHt]]; simpl.
  - split; reflexivity.
  - destruct (JS.is_space u) eqn:E; simpl.
    + split; [intros piece|]; rewrite IHt; reflexivity.
    + split; [intros piece|]; rewrite IHf; reflexivity.
Qed.

Lemma split_trimmed_length : forall s,
  JS.trim s <> [] ->
  length (JS.split_spaces (JS.trim s)) = word_runs (JS.trim s).
Proof.
  intros s Hne. destruct (trim_shape s) as [E | (u & t & E & Hu & Hend)];
    [congruence|].
  unfold JS.split_spaces, word_runs.
  rewrite (proj1 (split_go_length (JS.trim s)) []), Hend.
  rewrite E. simpl. rewrite Hu. simpl. lia.
Qed.

(** C6. Word and character count. [handleContentChange] reports 0 words
    for the empty string and for every string of white space only; for
    ["Hello world test"] it reports 3 words and 16 characters; the
    character count is the length of the untrimmed string and the word
    count is the number of maximal runs outside white space of the
    trimmed string. *)
Theorem word_and_character_count :
  WritingStudio.wordCount (WritingStudio.handleContentChange []) = 0%Z
  /\ (forall s,
        all_space s = true ->
        WritingStudio.wordCount (WritingStudio.handleContentChange s) = 0%Z)
  /\ WritingStudio.wordCount
       (WritingStudio.handleContentChange (JS.lit "Hello world test")) = 3%Z
  /\ WritingStudio.charCount
       (WritingStudio.handleContentChange (JS.lit "Hello world test")) = 16%Z
  /\ (forall s,
        WritingStudio.charCount (WritingStudio.handleContentChange s)
        = JS.length s)
  /\ (forall s,
        WritingStudio.wordCount (WritingStudio.handleContentChange s)
        = Z.of_nat (word_runs (JS.trim s))).
Proof.
  split; [reflexivity|]. split; [|split; [reflexivity|split; [reflexivity|split]]].
  - intros s H. simpl. unfold WritingStudio.words, JS.trim.
    rewrite (trimStart_all_space s H). reflexivity.
  - intros s. reflexivity.
  - intros s. simpl. unfold WritingStudio.words.
    destruct (JS.trim s) as [|u t] eqn:E; [reflexivity|].
    simpl JS.is_empty. cbv iota. rewrite <- E.
    rewrite split_trimmed_length; [reflexivity|]. rewrite E. discriminate.
Qed.

Lemma word_and_character_count_witness :
  WritingStudio.wordCount
    (WritingStudio.handleContentChange (JS.lit "  ")) = 0%Z.
Proof.
  apply (proj1 (proj2 word_and_character_count) (JS.lit "  ")).
  reflexivity.
Defined.

(* ===================================================================== *)
(** ** Paragraph navigation *)
(* ===================================================================== *)

(** C4 as amended. For ["Hello\n\nWorld"] (12 code units) Ctrl+ArrowDown
    from offset 0 goes to 5, the end of the first paragraph, from there
    to 7, the start of ["World"], and from 7 to 12, the end of the text;
    Ctrl+ArrowUp from 12 goes to 7, the start of the paragraph the caret
    is in, from there to 5 and from 5 to 0. *)
Theorem hello_world_paragraph_stops :
  JS.length hello_world = 12%Z
  /\ findParagraphBoundary hello_world 0 Forward = 5%Z
  /\ findParagraphBoundary hello_world 5 Forward = 7%Z
  /\ findParagraphBoundary hello_world 7 Forward = 12%Z
  /\ findParagraphBoundary hello_world 12 Backward = 7%Z
  /\ findParagraphBoundary hello_world 7 Backward = 5%Z
  /\ findParagraphBoundary hello_world 5 Backward = 0%Z.
Proof.
  repeat split; reflexivity.
Qed.

(** C4 as stated fails: forward from 0 the result is 5, not 7, and
    backward from 12 it is 7, not 0. *)
Lemma hello_world_not_7_12_0 :
  findParagraphBoundary hello_world 0 Forward <> 7%Z
  /\ findParagraphBoundary hello_world 7 Forward = 12%Z
  /\ findParagraphBoundary hello_world 12 Backward <> 0%Z.
Proof.
  repeat split; try reflexivity; discriminate.
Qed.

Section LoopFacts.
Context {A : Type}.
Implicit Types (body : Z -> option A).

Lemma for_ascending_some : forall n i body r,
  for_ascending n i body = Some r ->
  exists j, (i <= j < i + Z.of_nat n)%Z /\ body j = Some r
            /\ forall j', (i <= j' < j)%Z -> body j' = None.
Proof.
  induction n as [|n IH]; intros i body r H; simpl in H; [discriminate|].
  destruct (body i) as [x|] eqn:E.
  - inversion H; subst. exists i. split; [lia|]. split; [assumption|].
    intros j' Hj'. lia.
  - destruct (IH _ _ _ H) as (j & Hj & Hb & Hbefore).
    exists j. split; [lia|]. split; [assumption|].
    intros j' Hj'. destruct (Z.eq_dec j' i); [subst; auto|].
    apply Hbefore. lia.
Qed.

Lemma for_ascending_none : forall n i body,
  for_ascending n i body = None ->
  forall j, (i <= j < i + Z.of_nat n)%Z -> body j = None.
Proof.
  induction n as [|n IH]; intros i body H j Hj; simpl in H; [lia|].
  destruct (body i) as [x|] eqn:E; [discriminate|].
  destruct (Z.eq_dec j i); [subst; auto|].
  apply (IH _ _ H). lia.
Qed.

Lemma for_ascending_first : forall n i body j r,
  (i <= j < i + Z.of_nat n)%Z ->
  (forall j', (i <= j' < j)%Z -> body j' = None) ->
  body j = Some r ->
  for_ascending n i body = Some r.
Proof.
  induction n as [|n IH]; intros i body j r Hj Hbefore Hb; [lia|].
  simpl. destruct (Z.eq_dec j i) as [->|Hne].
  - rewrite Hb. reflexivity.
  - rewrite (Hbefore i) by lia. apply (IH _ _ j); auto; try lia.
    intros j' Hj'. apply Hbefore. lia.
Qed.

Lemma for_ascending_all_none : forall n i body,
  (forall j, (i <= j < i + Z.of_nat n)%Z -> body j = None) ->
  for_ascending n i body = None.
Proof.
  induction n as [|n IH]; intros i body H; [reflexivity|].
  simpl. rewrite (H i) by lia. apply IH. intros j Hj. apply H. lia.
Qed.

Lemma for_descending_some : forall n i body r,
  for_descending n i body = Some r ->
  exists j, (i - Z.of_nat n < j <= i)%Z /\ body j = Some r.
Proof.
  induction n as [|n IH]; intros i body r H; simpl in H; [discriminate|].
  destruct (body i) as [x|] eqn:E.
  - inversion H; subst. exists i. split; [lia|auto].
  - destruct (IH _ _ _ H) as (j & Hj & Hb). exists j. split; [lia|auto].
Qed.

Lemma for_descending_none : forall n i body,
  for_descending n i body = None ->
  forall j, (i - Z.of_nat n < j <= i)%Z -> body j = None.
Proof.
  induction n as [|n IH]; intros i body H j Hj; simpl in H; [lia|].
  destruct (body i) as [x|] eqn:E; [discriminate|].
  destruct (Z.eq_dec j i); [subst; auto|].
  apply (IH _ _ H). lia.
Qed.
End LoopFacts.

(** The paragraph end lies between the caret and the end of the text; if
    it lies inside the text it is a line break followed by the end of the
    text or by another line break. *)
Lemma paragraphEnd_spec : forall content cur,
  (0 <= cur <= JS.length content)%Z ->
  let pe := Editor.paragraphEnd content cur in
  (cur <= pe <= JS.length content)%Z
  /\ ((pe < JS.length content)%Z ->
      JS.is_nl (JS.at_ content pe) = true
      /\ (pe = JS.length content - 1
          \/ JS.is_nl (JS.at_ content (pe + 1)) = true)%Z).
Proof.
  intros content cur Hcur pe. subst pe. unfold Editor.paragraphEnd, for_up.
  destruct (for_ascending _ _ _) as [r|] eqn:E.
  - apply for_ascending_some in E. destruct E as (j & Hj & Hb & _).
    rewrite Z2Nat.id in Hj by lia.
    destruct (JS.is_nl (JS.at_ content j)) eqn:E1; simpl in Hb; [|discriminate].
    destruct ((j =? JS.length content - 1)%Z
              || JS.is_nl (JS.at_ content (j + 1))) eqn:E2; [|discriminate].
    inversion Hb; subst r. split; [lia|]. intros _. split; auto.
    apply orb_prop in E2. destruct E2 as [E2|E2]; [left; lia|right; auto].
  - split; lia.
Qed.

(** Forward progress: in a text that does not end in a line break,
    Ctrl+ArrowDown moves every caret before the end strictly forward. *)
Lemma arrowDownTarget_progress : forall content cur,
  JS.is_nl (JS.at_ content (JS.length content - 1)) = false ->
  (0 <= cur < JS.length content)%Z ->
  (cur < Editor.arrowDownTarget content cur <= JS.length content)%Z.
Proof.
  intros content cur Hlast Hcur.
  assert (Hcur' : (0 <= cur <= JS.length content)%Z) by lia.
  destruct (paragraphEnd_spec content cur Hcur') as (Hpe & Hbreak).
  unfold Editor.arrowDownTarget.
  set (pe := Editor.paragraphEnd content cur) in *.
  destruct (cur =? pe)%Z eqn:E; [|lia].
  apply Z.eqb_eq in E.
  assert (Hlt : (pe < JS.length content)%Z) by lia.
  rewrite (proj2 (Z.ltb_lt _ _) Hlt).
  destruct (Hbreak Hlt) as (Hnl & Hnext).
  assert (Hne : pe <> (JS.length content - 1)%Z) by congruence.
  destruct Hnext as [|Hnl2]; [lia|].
  assert (Hne2 : (pe + 1)%Z <> (JS.length content - 1)%Z) by congruence.
  assert (Hin : (pe + 1 < JS.length content)%Z).
  { destruct (Z_lt_le_dec (pe + 1) (JS.length content)); auto.
    unfold JS.at_ in Hnl2. destruct (pe + 1 <? 0)%Z; [discriminate|].
    rewrite (proj2 (nth_error_None _ _)) in Hnl2; [discriminate|].
    unfold JS.length in *. lia. }
  set (body := fun i : Z =>
                 if JS.is_nl (JS.at_ content (i - 1))
                    && JS.is_nl (JS.at_ content (i - 2))
                 then Some i
                 else if negb (JS.is_nl (JS.at_ content i)) then Some i
                      else None).
  unfold for_up.
  assert (H2 : body (pe + 2)%Z = Some (pe + 2)%Z).
  { unfold body. replace (pe + 2 - 1)%Z with (pe + 1)%Z by lia.
    replace (pe + 2 - 2)%Z with pe by lia. rewrite Hnl, Hnl2. reflexivity. }
  destruct (body (pe + 1)%Z) as [r|] eqn:E1.
  - assert (r = (pe + 1)%Z).
    { unfold body in E1.
      destruct (_ && _); [congruence|]. destruct (negb _); congruence. }
    subst r.
    rewrite (for_ascending_first _ _ body (pe + 1)%Z (pe + 1)%Z); auto; lia.
  - rewrite (for_ascending_first _ _ body (pe + 2)%Z (pe + 2)%Z); auto;
      try lia.
    intros j' Hj'. assert (Hj : j' = (pe + 1)%Z) by lia. rewrite Hj.
    assumption.
Qed.

(** At the end of the text Ctrl+ArrowDown wraps around to the start. *)
Lemma arrowDownTarget_wraps : forall content,
  Editor.arrowDownTarget content (JS.length content) = 0%Z.
Proof.
  intros content. unfold Editor.arrowDownTarget, Editor.paragraphEnd, for_up.
  rewrite Z.sub_diag. simpl. rewrite Z.eqb_refl, Z.ltb_irrefl. reflexivity.
Qed.

Lemma paragraphStart_range : forall content cur,
  (0 <= cur)%Z ->
  (0 <= Editor.paragraphStart content cur <= cur)%Z.
Proof.
  intros content cur Hcur. unfold Editor.paragraphStart, for_down.
  destruct (for_descending _ _ _) as [r|] eqn:E; [|lia].
  apply for_descending_some in E. destruct E as (j & Hj & Hb).
  rewrite Z2Nat.id in Hj by lia.
  destruct (JS.is_nl (JS.at_ content j)); [|discriminate].
  destruct ((j =? 0)%Z || JS.is_nl (JS.at_ content (j - 1))); [|discriminate].
  inversion Hb; subst r. lia.
Qed.

(** Backward progress: Ctrl+ArrowUp moves every caret at offset 2 or
    more strictly backward. *)
Lemma arrowUpTarget_progress : forall content cur,
  (2 <= cur)%Z ->
  (0 <= Editor.arrowUpTarget content cur < cur)%Z.
Proof.
  intros content cur Hcur.
  assert (H0 : (0 <= cur)%Z) by lia.
  pose proof (paragraphStart_range content cur H0) as Hps.
  unfold Editor.arrowUpTarget.
  set (ps := Editor.paragraphStart content cur) in *.
  destruct (Z.abs (cur - ps) <=? 1)%Z eqn:E.
  - apply Z.leb_le in E.
    assert (Hpos : (ps >? 0)%Z = true) by (apply Z.gtb_gt; lia).
    rewrite Hpos. unfold for_down.
    destruct (for_descending _ _ _) as [t|] eqn:El.
    + apply for_descending_some in El. destruct El as (j & Hj & Hb).
      rewrite Z2Nat.id in Hj by lia.
      destruct (negb (JS.is_nl (JS.at_ content j)));
        [inversion Hb; subst t; lia|].
      destruct (j =? 0)%Z; [inversion Hb; subst t; lia|discriminate].
    + destruct (Z.eq_dec ps 1) as [E1|E1]; [lia|].
      pose proof (for_descending_none _ _ _ El 0%Z) as Hz.
      rewrite Z2Nat.id in Hz by lia.
      assert (Hr : (ps - 2 - (ps - 2 + 1) < 0 <= ps - 2)%Z) by lia.
      specialize (Hz Hr). simpl in Hz.
      destruct (negb (JS.is_nl (JS.at_ content 0))); discriminate.
  - apply Z.leb_gt in E. lia.
Qed.

(** At the start of the text Ctrl+ArrowUp wraps around to the end. *)
Lemma arrowUpTarget_wraps : forall content,
  Editor.arrowUpTarget content 0 = JS.length content.
Proof. reflexivity. Qed.

(* ===================================================================== *)
(** ** Paragraphs joined by double line breaks *)
(* ===================================================================== *)

Lemma length_app_Z : forall a b : JS.str,
  JS.length (a ++ b) = (JS.length a + JS.length b)%Z.
Proof. intros a b. unfold JS.length. rewrite length_app. lia. Qed.

Lemma at_app_l : forall a b i,
  (0 <= i < JS.length a)%Z -> JS.at_ (a ++ b) i = JS.at_ a i.
Proof.
  intros a b i Hi. unfold JS.at_, JS.length in *.
  destruct (i <? 0)%Z; [reflexivity|]. apply nth_error_app1. lia.
Qed.

Lemma at_app_r : forall a b i,
  (JS.length a <= i)%Z -> JS.at_ (a ++ b) i = JS.at_ b (i - JS.length a).
Proof.
  intros a b i Hi. unfold JS.at_, JS.length in *.
  destruct (i <? 0)%Z eqn:E1; [apply Z.ltb_lt in E1; lia|].
  destruct (i - Z.of_nat (length a) <? 0)%Z eqn:E2;
    [apply Z.ltb_lt in E2; lia|].
  rewrite nth_error_app2 by lia. f_equal. lia.
Qed.

Lemma at_beyond : forall s i, (JS.length s <= i)%Z -> JS.at_ s i = None.
Proof.
  intros s i Hi. unfold JS.at_, JS.length in *.
  destruct (i <? 0)%Z; [reflexivity|]. apply nth_error_None. lia.
Qed.

Lemma at_before : forall s i, (i < 0)%Z -> JS.at_ s i = None.
Proof.
  intros s i Hi. unfold JS.at_. rewrite (proj2 (Z.ltb_lt _ _) Hi). reflexivity.
Qed.

Lemma no_double_break_nth : forall p j,
  no_double_break p = true ->
  JS.is_nl (nth_error p j) = true ->
  JS.is_nl (nth_error p (S j)) = false.
Proof.
  induction p as [|u p IH]; intros j Hp Hj.
  - destruct j; discriminate.
  - destruct p as [|v p]; [destruct j; reflexivity|].
    simpl in Hp. apply andb_prop in Hp. destruct Hp as [Huv Hp].
    destruct j as [|j].
    + simpl in *. unfold JS.LF in *. rewrite Hj in Huv. simpl in Huv.
      apply negb_true_iff in Huv. exact Huv.
    + apply (IH j Hp Hj).
Qed.

Lemma hd_error_rev : forall p : JS.str,
  hd_error (rev p) = JS.at_ p (JS.length p - 1).
Proof.
  intros p. destruct p as [|u p] using rev_ind.
  - reflexivity.
  - rewrite rev_app_distr. simpl. rewrite at_app_r.
    + rewrite length_app_Z. change (JS.length [u]) with 1%Z.
      replace (JS.length p + 1 - 1 - JS.length p)%Z with 0%Z by lia.
      reflexivity.
    + rewrite length_app_Z. change (JS.length [u]) with 1%Z. lia.
Qed.

(** What a paragraph is made of. *)
Lemma is_paragraph_facts : forall p,
  is_paragraph p = true ->
  (0 < JS.length p)%Z
  /\ JS.is_nl (JS.at_ p (JS.length p - 1)) = false
  /\ forall j, JS.is_nl (JS.at_ p j) = true ->
               (0 <= j)%Z /\ (j + 1 < JS.length p)%Z
               /\ JS.is_nl (JS.at_ p (j + 1)) = false.
Proof.
  intros p H. unfold is_paragraph in H.
  apply andb_prop in H. destruct H as [H Hnd].
  apply andb_prop in H. destruct H as [H Hne].
  apply andb_prop in H. destruct H as [Hfirst Hlast].
  rewrite hd_error_rev in Hlast. apply negb_true_iff in Hlast.
  assert (Hlen : (0 < JS.length p)%Z).
  { destruct p; [discriminate|]. unfold JS.length. simpl. lia. }
  split; [assumption|]. split; [assumption|].
  intros j Hj.
  assert (H0 : (0 <= j)%Z).
  { destruct (Z_lt_le_dec j 0) as [Hneg|]; auto.
    rewrite (at_before p j Hneg) in Hj. discriminate. }
  assert (Hin : (j < JS.length p)%Z).
  { destruct (Z_lt_le_dec j (JS.length p)) as [|Hge]; auto.
    rewrite (at_beyond p j Hge) in Hj. discriminate. }
  assert (Hnotlast : j <> (JS.length p - 1)%Z) by congruence.
  split; [assumption|]. split; [lia|].
  unfold JS.at_ in *.
  destruct (j <? 0)%Z eqn:E1; [discriminate|].
  destruct (j + 1 <? 0)%Z eqn:E2; [reflexivity|].
  replace (Z.to_nat (j + 1)) with (S (Z.to_nat j)) by lia.
  apply no_double_break_nth; assumption.
Qed.

(** Inside a paragraph nothing looks like a paragraph end. *)
Lemma no_end_inside_paragraph : forall pre p post i,
  is_paragraph p = true ->
  (JS.length pre <= i < JS.length pre + JS.length p)%Z ->
  JS.is_nl (JS.at_ (pre ++ p ++ post) i)
  && ((i =? JS.length (pre ++ p ++ post) - 1)%Z
      || JS.is_nl (JS.at_ (pre ++ p ++ post) (i + 1))) = false.
Proof.
  intros pre p post i Hp Hi.
  destruct (is_paragraph_facts p Hp) as (_ & _ & Hin).
  rewrite at_app_r, at_app_l by lia.
  destruct (JS.is_nl (JS.at_ p (i - JS.length pre))) eqn:E; [|reflexivity].
  destruct (Hin _ E) as (_ & Hnext & Hnl). simpl.
  rewrite at_app_r, at_app_l by lia.
  replace (i + 1 - JS.length pre)%Z with (i - JS.length pre + 1)%Z by lia.
  rewrite Hnl, orb_false_r. apply Z.eqb_neq.
  rewrite !length_app_Z. pose proof (JS_length_nonneg post). lia.
Qed.

(** From the start of a paragraph the scan stops at its end. *)
Lemma paragraphEnd_of_paragraph : forall pre p post,
  is_paragraph p = true ->
  (post = [] \/ exists post', post = JS.LF :: JS.LF :: post') ->
  Editor.paragraphEnd (pre ++ p ++ post) (JS.length pre)
  = (JS.length pre + JS.length p)%Z.
Proof.
  intros pre p post Hp Hpost.
  unfold Editor.paragraphEnd, for_up.
  set (content := pre ++ p ++ post).
  assert (Hlen : JS.length content
                 = (JS.length pre + JS.length p + JS.length post)%Z).
  { unfold content. rewrite !length_app_Z. lia. }
  pose proof (JS_length_nonneg pre). pose proof (JS_length_nonneg p).
  pose proof (JS_length_nonneg post).
  assert (Hinside : forall i,
             (JS.length pre <= i < JS.length pre + JS.length p)%Z ->
             (if JS.is_nl (JS.at_ content i)
                 && ((i =? JS.length content - 1)%Z
                     || JS.is_nl (JS.at_ content (i + 1)))
              then Some i else None) = None).
  { intros i Hi. unfold content.
    rewrite (no_end_inside_paragraph pre p post i Hp Hi). reflexivity. }
  destruct Hpost as [-> | (post' & ->)].
  - rewrite for_ascending_all_none.
    + rewrite Hlen. change (JS.length []) with 0%Z. lia.
    + intros j Hj. apply Hinside. rewrite Hlen in Hj.
      change (JS.length []) with 0%Z in Hj. lia.
  - assert (Hp2 : (2 <= JS.length (JS.LF :: JS.LF :: post'))%Z)
      by (unfold JS.length; simpl length; lia).
    rewrite (for_ascending_first _ _ _ (JS.length pre + JS.length p)%Z
               (JS.length pre + JS.length p)%Z).
    + reflexivity.
    + rewrite Hlen. lia.
    + intros j Hj. apply Hinside. lia.
    + unfold content. rewrite !at_app_r by lia.
      replace (JS.length pre + JS.length p - JS.length pre - JS.length p)%Z
        with 0%Z by lia.
      replace (JS.length pre + JS.length p + 1 - JS.length pre - JS.length p)%Z
        with 1%Z by lia.
      change (JS.is_nl (JS.at_ (JS.LF :: JS.LF :: post') 0)) with true.
      change (JS.is_nl (JS.at_ (JS.LF :: JS.LF :: post') 1)) with true.
      rewrite orb_true_r. reflexivity.
Qed.

(** Ctrl+ArrowDown at the start of a paragraph goes to its end. *)
Lemma arrowDownTarget_start_to_end : forall pre p post,
  is_paragraph p = true ->
  (post = [] \/ exists post', post = JS.LF :: JS.LF :: post') ->
  Editor.arrowDownTarget (pre ++ p ++ post) (JS.length pre)
  = (JS.length pre + JS.length p)%Z.
Proof.
  intros pre p post Hp Hpost. unfold Editor.arrowDownTarget.
  rewrite (paragraphEnd_of_paragraph pre p post Hp Hpost).
  destruct (is_paragraph_facts p Hp) as (Hlen & _).
  rewrite (proj2 (Z.eqb_neq _ _)) by lia. reflexivity.
Qed.

(** Ctrl+ArrowDown at the end of a paragraph that is followed by a
    double line break and more text goes behind the double break. *)
Lemma arrowDownTarget_end_to_start : forall pre p q,
  is_paragraph p = true ->
  q <> [] ->
  Editor.arrowDownTarget (pre ++ p ++ JS.LF :: JS.LF :: q)
    (JS.length pre + JS.length p)
  = (JS.length pre + JS.length p + 2)%Z.
Proof.
  intros pre p q Hp Hq.
  destruct (is_paragraph_facts p Hp) as (Hlenp & Hlast & _).
  pose proof (JS_length_nonneg pre).
  set (content := pre ++ p ++ JS.LF :: JS.LF :: q).
  set (e := (JS.length pre + JS.length p)%Z).
  assert (Hlenq : (0 < JS.length q)%Z).
  { destruct q; [congruence|]. unfold JS.length. simpl. lia. }
  assert (Hlen : JS.length content = (e + 2 + JS.length q)%Z).
  { unfold content, e. rewrite !length_app_Z.
    change (JS.length (JS.LF :: JS.LF :: q)) with (JS.length ([JS.LF; JS.LF] ++ q)).
    rewrite length_app_Z. change (JS.length [JS.LF; JS.LF]) with 2%Z. lia. }
  assert (Hat : forall k, (0 <= k)%Z ->
            JS.at_ content (e + k) = JS.at_ (JS.LF :: JS.LF :: q) k).
  { intros k Hk. unfold content, e. rewrite !at_app_r by lia.
    f_equal. lia. }
  assert (He0 : JS.at_ content e = Some JS.LF).
  { replace e with (e + 0)%Z by lia. rewrite Hat by lia. reflexivity. }
  assert (He1 : JS.at_ content (e + 1) = Some JS.LF).
  { rewrite Hat by lia. reflexivity. }
  assert (Hem1 : JS.is_nl (JS.at_ content (e - 1)) = false).
  { unfold content, e. rewrite at_app_r, at_app_l by lia.
    replace (JS.length pre + JS.length p - 1 - JS.length pre)%Z
      with (JS.length p - 1)%Z by lia.
    assumption. }
  assert (Hpe : Editor.paragraphEnd content e = e).
  { unfold Editor.paragraphEnd, for_up.
    rewrite (for_ascending_first _ _ _ e e); auto; try lia.
    rewrite He0, He1. change (JS.is_nl (Some JS.LF)) with true.
    rewrite orb_true_r. reflexivity. }
  unfold Editor.arrowDownTarget. rewrite Hpe, Z.eqb_refl.
  rewrite (proj2 (Z.ltb_lt _ _)) by lia.
  unfold for_up.
  rewrite (for_ascending_first _ _ _ (e + 2)%Z (e + 2)%Z); auto; try lia.
  - intros j Hj. assert (Hj1 : j = (e + 1)%Z) by lia. rewrite Hj1.
    replace (e + 1 - 1)%Z with e by lia.
    replace (e + 1 - 2)%Z with (e - 1)%Z by lia.
    rewrite He0, He1, Hem1. reflexivity.
  - replace (e + 2 - 1)%Z with (e + 1)%Z by lia.
    replace (e + 2 - 2)%Z with e by lia.
    rewrite He0, He1. reflexivity.
Qed.

Lemma join_paragraphs_cons : forall p q rest,
  join_paragraphs (p :: q :: rest)
  = p ++ JS.LF :: JS.LF :: join_paragraphs (q :: rest).
Proof. reflexivity. Qed.

Lemma join_paragraphs_nonempty : forall q rest,
  q <> [] -> join_paragraphs (q :: rest) <> [].
Proof.
  intros q rest Hq. destruct rest as [|r rest]; [exact Hq|].
  rewrite join_paragraphs_cons. destruct q; [congruence|discriminate].
Qed.

Lemma is_paragraph_nonempty : forall p, is_paragraph p = true -> p <> [].
Proof.
  intros p Hp E. subst p. discriminate.
Qed.

Lemma trajectory_two : forall f n x,
  trajectory f (S (S n)) x = x :: f x :: trajectory f n (f (f x)).
Proof. reflexivity. Qed.

Lemma paragraph_stops_cons : forall from p ps,
  paragraph_stops from (p :: ps)
  = from :: (from + JS.length p)%Z
    :: paragraph_stops (from + JS.length p + 2) ps.
Proof. reflexivity. Qed.

(** The walk of Ctrl+ArrowDown through paragraphs joined by double line
    breaks, started at the first of them. *)
Lemma trajectory_through_paragraphs : forall ps pre,
  Forall (fun p => is_paragraph p = true) ps ->
  trajectory (Editor.arrowDownTarget (pre ++ join_paragraphs ps))
    (2 * length ps) (JS.length pre)
  = paragraph_stops (JS.length pre) ps.
Proof.
  induction ps as [|p ps IH]; intros pre Hps; [reflexivity|].
  inversion Hps as [|? ? Hp Hrest]; subst.
  replace (2 * length (p :: ps)) with (S (S (2 * length ps)))
    by (simpl; lia).
  destruct ps as [|q rest].
  - simpl. replace (pre ++ p) with (pre ++ p ++ []) by (rewrite app_nil_r; reflexivity).
    rewrite arrowDownTarget_start_to_end; auto.
  - rewrite join_paragraphs_cons, trajectory_two, paragraph_stops_cons.
    rewrite arrowDownTarget_start_to_end; eauto.
    rewrite arrowDownTarget_end_to_start; auto.
    + f_equal. f_equal.
      specialize (IH (pre ++ p ++ [JS.LF; JS.LF]) Hrest).
      rewrite !length_app_Z in IH. change (JS.length [JS.LF; JS.LF]) with 2%Z in IH.
      rewrite Z.add_assoc in IH. rewrite <- IH. f_equal. f_equal.
      rewrite <- !app_assoc. reflexivity.
    + inversion Hrest; subst.
      apply join_paragraphs_nonempty. apply is_paragraph_nonempty. assumption.
Qed.

Lemma paragraph_stops_length : forall ps from,
  length (paragraph_stops from ps) = 2 * length ps.
Proof.
  induction ps as [|p ps IH]; intros from; simpl; [reflexivity|].
  rewrite IH. lia.
Qed.

Lemma paragraph_stops_lower : forall ps from,
  Forall (fun x => (from <= x)%Z) (paragraph_stops from ps).
Proof.
  induction ps as [|p ps IH]; intros from; simpl; constructor; [lia|].
  pose proof (JS_length_nonneg p).
  constructor; [lia|].
  eapply Forall_impl; [|apply IH]. intros x Hx. simpl in Hx. lia.
Qed.

Lemma paragraph_stops_sorted : forall ps from,
  Forall (fun p => is_paragraph p = true) ps ->
  StronglySorted Z.lt (paragraph_stops from ps).
Proof.
  induction ps as [|p ps IH]; intros from Hps; simpl; [constructor|].
  inversion Hps as [|? ? Hp Hrest]; subst.
  destruct (is_paragraph_facts p Hp) as (Hlen & _).
  pose proof (paragraph_stops_lower ps (from + JS.length p + 2)) as Hlow.
  constructor; [constructor|].
  - apply IH. assumption.
  - eapply Forall_impl; [|exact Hlow]. intros x Hx. simpl in Hx. lia.
  - constructor; [lia|].
    eapply Forall_impl; [|exact Hlow]. intros x Hx. simpl in Hx. lia.
Qed.

Lemma paragraph_stops_last : forall ps from,
  ps <> [] ->
  nth (2 * length ps - 1) (paragraph_stops from ps) 0%Z
  = (from + JS.length (join_paragraphs ps))%Z.
Proof.
  induction ps as [|p ps IH]; intros from Hne; [congruence|].
  destruct ps as [|q rest].
  - reflexivity.
  - replace (2 * length (p :: q :: rest) - 1)
      with (S (S (2 * length (q :: rest) - 1))) by (simpl; lia).
    rewrite paragraph_stops_cons. cbn [nth].
    rewrite join_paragraphs_cons.
    change (p ++ JS.LF :: JS.LF :: join_paragraphs (q :: rest))
      with (p ++ [JS.LF; JS.LF] ++ join_paragraphs (q :: rest)).
    rewrite !length_app_Z. change (JS.length [JS.LF; JS.LF]) with 2%Z.
    rewrite (IH (from + JS.length p + 2)%Z) by discriminate. lia.
Qed.

Lemma paragraph_starts_among_stops : forall ps from,
  incl (paragraph_starts from ps) (paragraph_stops from ps).
Proof.
  induction ps as [|p ps IH]; intros from x Hx; simpl in *; [assumption|].
  destruct Hx as [Hx|Hx]; [left; assumption|].
  right. right. apply IH. assumption.
Qed.

Lemma iterate_shift : forall (f : Z -> Z) k x,
  iterate f k (f x) = f (iterate f k x).
Proof.
  induction k as [|k IH]; intros x; simpl; [reflexivity|].
  rewrite IH. reflexivity.
Qed.

Lemma nth_trajectory : forall f n k x d,
  k < n -> nth k (trajectory f n x) d = iterate f k x.
Proof.
  induction n as [|n IH]; intros k x d Hk; [lia|].
  destruct k as [|k]; simpl; [reflexivity|].
  rewrite IH by lia. apply iterate_shift.
Qed.

Lemma StronglySorted_nth_lt : forall (l : list Z) i j d,
  StronglySorted Z.lt l ->
  i < j < length l ->
  (nth i l d < nth j l d)%Z.
Proof.
  induction l as [|x l IH]; intros i j d Hs Hij; simpl in Hij; [lia|].
  inversion Hs as [|? ? Hs' Hall]; subst.
  destruct j as [|j]; [lia|].
  destruct i as [|i]; simpl.
  - rewrite Forall_forall in Hall. apply Hall. apply nth_In. lia.
  - apply IH; auto. lia.
Qed.

(** Repeated from any offset of a text that does not end in a line
    break, Ctrl+ArrowDown climbs strictly until it reaches the end of the
    text. *)
Lemma arrowDownTarget_reaches_end : forall content,
  JS.is_nl (JS.at_ content (JS.length content - 1)) = false ->
  forall n x,
    (0 <= x <= JS.length content)%Z ->
    Z.to_nat (JS.length content - x) <= n ->
    exists k,
      k <= n
      /\ iterate (Editor.arrowDownTarget content) k x = JS.length content
      /\ forall j, j < k ->
           (iterate (Editor.arrowDownTarget content) j x
            < iterate (Editor.arrowDownTarget content) (S j) x
            <= JS.length content)%Z.
Proof.
  intros content Hlast. induction n as [|n IH]; intros x Hx Hn.
  - exists 0. split; [lia|]. split; [simpl; lia|]. intros j Hj. lia.
  - destruct (Z.eq_dec x (JS.length content)) as [E|E].
    + exists 0. split; [lia|]. split; [simpl; lia|]. intros j Hj. lia.
    + assert (Hx' : (0 <= x < JS.length content)%Z) by lia.
      pose proof (arrowDownTarget_progress content x Hlast Hx') as Hstep.
      destruct (IH (Editor.arrowDownTarget content x)) as (k & Hk & Hend & Hup);
        [lia|lia|].
      exists (S k). split; [lia|]. split.
      * simpl. rewrite <- iterate_shift. exact Hend.
      * intros j Hj. destruct j as [|j].
        -- simpl. exact Hstep.
        -- specialize (Hup j ltac:(lia)).
           simpl. rewrite <- !iterate_shift. simpl in Hup.
           rewrite <- iterate_shift in Hup. exact Hup.
Qed.

(** C5 as amended. In a text that does not end in a line break, every
    application of the forward computation to an offset before the end
    returns a strictly greater offset, at most the text length, so that
    repeated from offset 0 it climbs strictly until it reaches the text
    length; applied to the text length it wraps around to 0. The backward computation
    returns a strictly smaller offset for every offset from 2 on, and
    applied to 0 it wraps around to the text length. For paragraphs
    [p1 .. pN] joined by double line breaks, the forward computation
    repeated from offset 0 visits, in strictly increasing order, the end
    of [p1], the start of [p2], the end of [p2], ..., the start of [pN]
    and the end of [pN], the text length: every paragraph start exactly
    once, and also every paragraph end, so that the text length is
    reached after [2N - 1] applications and not before. *)
Theorem paragraph_walk :
  (forall content cur,
     JS.is_nl (JS.at_ content (JS.length content - 1)) = false ->
     (0 <= cur < JS.length content)%Z ->
     (cur < findParagraphBoundary content cur Forward <= JS.length content)%Z)
  /\ (forall content,
        JS.is_nl (JS.at_ content (JS.length content - 1)) = false ->
        let forward := fun o => findParagraphBoundary content o Forward in
        exists k,
          k <= Z.to_nat (JS.length content)
          /\ iterate forward k 0%Z = JS.length content
          /\ forall j, j < k ->
                (iterate forward j 0%Z < iterate forward (S j) 0%Z
                 <= JS.length content)%Z)
  /\ (forall content,
        findParagraphBoundary content (JS.length content) Forward = 0%Z)
  /\ (forall content cur,
        (2 <= cur)%Z ->
        (0 <= findParagraphBoundary content cur Backward < cur)%Z)
  /\ (forall content,
        findParagraphBoundary content 0 Backward = JS.length content)
  /\ (forall ps,
        ps <> [] ->
        Forall (fun p => is_paragraph p = true) ps ->
        let content := join_paragraphs ps in
        let N := length ps in
        let forward := fun o => findParagraphBoundary content o Forward in
        trajectory forward (2 * N) 0 = paragraph_stops 0 ps
        /\ StronglySorted Z.lt (paragraph_stops 0 ps)
        /\ incl (paragraph_starts 0 ps) (paragraph_stops 0 ps)
        /\ iterate forward (2 * N - 1) 0%Z = JS.length content
        /\ forall k, k < 2 * N - 1 ->
                     (iterate forward k 0%Z < JS.length content)%Z).
Proof.
  split; [exact arrowDownTarget_progress|].
  split.
  { intros content Hlast forward.
    pose proof (JS_length_nonneg content).
    apply (arrowDownTarget_reaches_end content Hlast); lia. }
  split; [exact arrowDownTarget_wraps|].
  split; [exact arrowUpTarget_progress|].
  split; [exact arrowUpTarget_wraps|].
  intros ps Hne Hps content N forward.
  assert (HN : 0 < N) by (unfold N; destruct ps; [congruence|simpl; lia]).
  assert (Htraj : trajectory forward (2 * N) 0 = paragraph_stops 0 ps).
  { apply (trajectory_through_paragraphs ps [] Hps). }
  pose proof (paragraph_stops_sorted ps 0 Hps) as Hsorted.
  pose proof (paragraph_stops_last ps 0 Hne) as Hlast.
  fold content N in Hlast. rewrite Z.add_0_l in Hlast.
  assert (Hiter : forall k, k < 2 * N ->
                    iterate forward k 0%Z = nth k (paragraph_stops 0 ps) 0%Z).
  { intros k Hk. rewrite <- Htraj. symmetry. apply nth_trajectory. exact Hk. }
  repeat split; auto.
  - apply paragraph_starts_among_stops.
  - rewrite Hiter by lia. exact Hlast.
  - intros k Hk. rewrite Hiter by lia. rewrite <- Hlast.
    apply StronglySorted_nth_lt; auto.
    rewrite paragraph_stops_length. fold N. lia.
Qed.

Lemma paragraph_walk_witness :
  (0 < findParagraphBoundary hello_world 0 Forward <= JS.length hello_world)%Z
  /\ (0 <= findParagraphBoundary hello_world 12 Backward < 12)%Z
  /\ trajectory (fun o => findParagraphBoundary hello_world o Forward) 4 0
     = [0; 5; 7; 12]%Z
  /\ iterate (fun o => findParagraphBoundary hello_world o Forward) 3 0%Z
     = JS.length hello_world.
Proof.
  destruct paragraph_walk as (Hfwd & _ & _ & Hbwd & _ & Hwalk).
  split; [|split].
  - apply (Hfwd hello_world 0%Z); [reflexivity|].
    split; [discriminate|reflexivity].
  - apply (Hbwd hello_world 12%Z). discriminate.
  - assert (Hps : Forall (fun p => is_paragraph p = true)
                    [JS.lit "Hello"; JS.lit "World"])
      by (repeat constructor).
    assert (Hne : [JS.lit "Hello"; JS.lit "World"] <> []) by discriminate.
    destruct (Hwalk [JS.lit "Hello"; JS.lit "World"] Hne Hps)
      as (Htraj & _ & _ & Hlast & _).
    split; [exact Htraj | exact Hlast].
Defined.

(** C5 as stated fails. ["Hello\n\nWorld"] has two paragraphs, yet the
    forward computation from 0 yields 5 and then 7, so the text length 12
    is not reached within two applications, only with the third, and 5
    is no paragraph start. In ["a\n\nb\n"] (length 5) the forward
    computation applied to 4 returns 4 again. *)
Lemma two_paragraphs_three_steps :
  let forward := fun o => findParagraphBoundary hello_world o Forward in
  hello_world = join_paragraphs [JS.lit "Hello"; JS.lit "World"]
  /\ paragraph_starts 0 [JS.lit "Hello"; JS.lit "World"] = [0; 7]%Z
  /\ iterate forward 1 0%Z = 5%Z
  /\ iterate forward 2 0%Z = 7%Z
  /\ iterate forward 3 0%Z = 12%Z
  /\ (forall k, k <= 2 -> iterate forward k 0%Z <> JS.length hello_world)
  /\ let trailing := JS.lit "a" ++ [JS.LF; JS.LF] ++ JS.lit "b" ++ [JS.LF] in
     JS.length trailing = 5%Z
     /\ findParagraphBoundary trailing 4 Forward = 4%Z.
Proof.
  cbv zeta. repeat split; try reflexivity.
  intros k Hk. destruct k as [|[|[|k]]]; try discriminate. lia.
Qed.

(* ===================================================================== *)
(** ** Further properties of the cursor utilities *)
(* ===================================================================== *)

(** What the walk finds is a text node of the tree. *)
Lemma find_target_resolves : forall T o r local,
  find_target (walker_nodes T) 0 o = Some (r, local) ->
  exists d, ref_node r = Text d /\ resolve T (ref_path r) = Some (Text d).
Proof.
  intros T o r local H. destruct T as [d|cs]; [discriminate|].
  destruct (find_target_some _ _ _ _ _ H) as (pre & post & Hn & _).
  destruct (Range_toString_text_node _ _ _ _ Hn) as (d & Hd & Hres & _).
  exists d. auto.
Qed.

(** The local offset found by the walk never exceeds the node's text, so
    the [Math.min] of the [try] block leaves it as it is. *)
Lemma find_target_clamped : forall nodes cur o r local,
  find_target nodes cur o = Some (r, local) -> clamped r local = local.
Proof.
  intros nodes cur o r local H.
  destruct (find_target_local _ _ _ _ _ H) as (Hhi & _).
  unfold clamped. rewrite textLength_ref. lia.
Qed.

Lemma clamped_element : forall T, clamped (element_ref T) 0 = 0%Z.
Proof.
  intros T. unfold clamped, textLength.
  pose proof (JS_length_nonneg (textContent T)). simpl. lia.
Qed.

(** For an offset inside the text the target can be applied and reads
    back as the offset. *)
Lemma position_reads_back : forall children o,
  (0 <= o <= totalLength (Element children))%Z ->
  forall t l,
    positionFromOffset (Element children) o = (t, l) ->
    clamped t l = l
    /\ in_node t l = true
    /\ offsetFromPosition (Element children) (ref_path t) (Z.to_nat l) = o.
Proof.
  intros children o Ho t l Hp. unfold positionFromOffset in Hp.
  destruct (find_target (walker_nodes (Element children)) 0 o)
    as [[r l']|] eqn:E.
  - inversion Hp; subst r l'.
    destruct (positionFromOffset_in_range children o t l (proj1 Ho) E)
      as (d & Hd & _ & Hl & Hoff).
    split; [apply (find_target_clamped _ _ _ _ _ E)|]. split; [|exact Hoff].
    unfold in_node. rewrite Hd. simpl. unfold JS.length in Hl.
    apply andb_true_intro. split; [apply Z.leb_le|apply Z.leb_le]; lia.
  - inversion Hp; subst t l.
    destruct (find_target_none _ _ _ E) as [Hnil | Hlt].
    + pose proof (no_walker_nodes_no_text children Hnil) as H0.
      assert (o = 0%Z) by lia. subst o.
      split; [apply clamped_element|]. split; [|reflexivity].
      unfold in_node. simpl. apply Z.leb_le. lia.
    + rewrite walker_total in Hlt. lia.
Qed.

Lemma positionFromOffset_resolves : forall T o t l,
  positionFromOffset T o = (t, l) ->
  resolve T (ref_path t) = Some (ref_node t).
Proof.
  intros T o t l Hp. unfold positionFromOffset in Hp.
  destruct (find_target (walker_nodes T) 0 o) as [[r l']|] eqn:E.
  - inversion Hp; subst r l'.
    destruct (find_target_resolves _ _ _ _ E) as (d & Hd & Hres).
    rewrite Hd. exact Hres.
  - inversion Hp. reflexivity.
Qed.

(** [setCursorPosition] for an offset inside the text, on a host with a
    Selection object. *)
Lemma setCursorPosition_in_range : forall children position h ranges,
  (0 <= offset position <= totalLength (Element children))%Z ->
  selection h = Some ranges ->
  let target := positionFromOffset (Element children) (offset position) in
  let p := ref_path (fst target) in
  let off := Z.to_nat (snd target) in
  setCursorPosition (Element children) position h
  = Normal tt {| selection := Some [caret p off]; console := console h |}
  /\ reachable (Element children) p off
  /\ offsetFromPosition (Element children) p off = offset position.
Proof.
  intros children position h ranges Ho Hsel target p off.
  subst p off target.
  destruct (positionFromOffset (Element children) (offset position))
    as [t l] eqn:Hp.
  destruct (position_reads_back children _ Ho t l Hp) as (Hc & Hin & Hoff).
  simpl. split; [|split; [|exact Hoff]].
  - unfold setCursorPosition. rewrite Hp.
    rewrite applyPosition_placed by (rewrite Hc; exact Hin).
    rewrite Hsel, Hc. reflexivity.
  - exists (ref_node t). split.
    + apply (positionFromOffset_resolves _ _ t l Hp).
    + unfold in_node in Hin. apply andb_prop in Hin. destruct Hin as [H0 H1].
      apply Z.leb_le in H0, H1. lia.
Qed.

(** X1. [setTextContent] followed by [getTextContent] returns the string
    that was set; the element is left with a single text node holding
    it, or with no child at all for the empty string, and nothing is
    logged. *)
Theorem setTextContent_then_getTextContent :
  forall (children : list Node) (content : JS.str) (h : Host),
    let element' := fst (setTextContent (Element children) content h) in
    getTextContent element' = content
    /\ leaves element' = (if JS.is_empty content then [] else [content])
    /\ totalLength element' = JS.length content
    /\ console (snd (setTextContent (Element children) content h))
       = console h.
Proof.
  intros children content h element'. subst element'.
  unfold setTextContent, getTextContent, text_children, totalLength,
    textLength, leaves.
  destruct content as [|u content]; simpl.
  - repeat split; reflexivity.
  - rewrite app_nil_r. repeat split; reflexivity.
Qed.

(** X2. Round trip through [setCursorAtOffset]: on a tree with at least
    one text node and a host with a Selection object, placing the caret
    at an offset between 0 and the total length completes without a
    warning, and [getCursorPosition] then reports that offset. *)
Theorem setCursorAtOffset_round_trip :
  forall (children : list Node) (o : Z) (h : Host) (ranges : list Range),
    let T := Element children in
    walker_nodes T <> [] ->
    (0 <= o <= totalLength T)%Z ->
    selection h = Some ranges ->
    exists h' p,
      setCursorAtOffset T o h = Normal tt h'
      /\ console h' = console h
      /\ getCursorPosition T h' = Some {| offset := o; node := Some p |}.
Proof.
  intros children o h ranges T Hne Ho Hsel. subst T.
  assert (Hle : (o <= 0 + total (texts (walker_nodes (Element children))))%Z).
  { rewrite walker_total. lia. }
  destruct (find_target_within _ 0 o Hne Hle) as (r & l & E).
  destruct (positionFromOffset_in_range children o r l (proj1 Ho) E)
    as (d & Hd & _ & Hl & Hoff).
  unfold setCursorAtOffset. rewrite E.
  pose proof (find_target_clamped _ _ _ _ _ E) as Hc.
  rewrite applyPosition_placed.
  - rewrite Hsel, Hc. eexists. exists (ref_path r).
    split; [reflexivity|]. split; [reflexivity|].
    unfold getCursorPosition. simpl. rewrite Hoff. reflexivity.
  - rewrite Hc. unfold in_node. rewrite Hd. simpl. unfold JS.length in Hl.
    apply andb_true_intro. split; apply Z.leb_le; lia.
Qed.

Lemma setCursorAtOffset_round_trip_witness :
  exists h' p,
    setCursorAtOffset abc_de 4 live = Normal tt h'
    /\ console h' = console live
    /\ getCursorPosition abc_de h' = Some {| offset := 4; node := Some p |}.
Proof.
  apply (setCursorAtOffset_round_trip
           [Text (JS.lit "abc"); Text (JS.lit "de")] 4 live []).
  - discriminate.
  - vm_compute. split; discriminate.
  - reflexivity.
Defined.

(** The effect of [applyPosition] on the selection: none, or a caret
    in the target. *)
Lemma applyPosition_selection : forall t l h h',
  applyPosition t l h = Normal tt h' ->
  selection h' = selection h
  \/ exists off, selection h' = Some [caret (ref_path t) off]
                 /\ off <= node_length (ref_node t).
Proof.
  intros t l h h' H. rewrite applyPosition_effect in H.
  inversion H as [Hh]. clear H Hh.
  destruct (setStart_raises t (clamped t l)) eqn:E; [left; reflexivity|].
  unfold placed. simpl. destruct (selection h); [right|left; reflexivity].
  eexists. split; [reflexivity|].
  unfold setStart_raises in E. apply Z.ltb_ge in E. lia.
Qed.

(** X3. Whatever the tree, the requested offset and the host,
    [setCursorPosition] and [setCursorAtOffset] either leave the
    selection as it was or replace it by exactly one collapsed range
    whose container is a node of the tree and whose offset lies within
    that node. *)
Theorem setters_leave_valid_caret :
  forall (T : Node) (o : Z) (position : CursorPosition) (h : Host),
    offset position = o ->
    (exists h',
       setCursorPosition T position h = Normal tt h'
       /\ (selection h' = selection h
           \/ exists p off, selection h' = Some [caret p off]
                            /\ reachable T p off))
    /\ (exists h',
          setCursorAtOffset T o h = Normal tt h'
          /\ (selection h' = selection h
              \/ exists p off, selection h' = Some [caret p off]
                               /\ reachable T p off)).
Proof.
  intros T o position h Ho. split.
  - unfold setCursorPosition. rewrite Ho.
    destruct (positionFromOffset T o) as [t l] eqn:Hp.
    eexists. split; [apply applyPosition_effect|].
    destruct (applyPosition_selection t l h _ (applyPosition_effect t l h))
      as [Hs|(off & Hs & Hle)]; [left; exact Hs|right].
    exists (ref_path t), off. split; [exact Hs|].
    exists (ref_node t). split; [|exact Hle].
    apply (positionFromOffset_resolves T o t l Hp).
  - unfold setCursorAtOffset.
    destruct (find_target (walker_nodes T) 0 o) as [[t l]|] eqn:Ef.
    + eexists. split; [apply applyPosition_effect|].
      destruct (applyPosition_selection t l h _ (applyPosition_effect t l h))
        as [Hs|(off & Hs & Hle)]; [left; exact Hs|right].
      exists (ref_path t), off. split; [exact Hs|].
      exists (ref_node t). split; [|exact Hle].
      destruct (find_target_resolves _ _ _ _ Ef) as (d & Hd & Hres).
      rewrite Hd. exact Hres.
    + eexists. split; [reflexivity|]. left. reflexivity.
Qed.

Lemma setters_leave_valid_caret_witness :
  exists h',
    setCursorPosition abc_de {| offset := 4; node := None |} live
    = Normal tt h'
    /\ (selection h' = selection live
        \/ exists p off, selection h' = Some [caret p off]
                         /\ reachable abc_de p off).
Proof.
  exact (proj1 (setters_leave_valid_caret abc_de 4
                  {| offset := 4; node := None |} live eq_refl)).
Defined.

(** X4. The [Math.min] in front of [setStart] never changes anything:
    for every tree and every offset, the offset of the target computed
    by [setCursorPosition], and of every target found by the walk of
    [setCursorAtOffset], is already at most the text length of the
    target node. *)
Theorem math_min_is_redundant :
  forall (T : Node) (o : Z),
    clamped (fst (positionFromOffset T o)) (snd (positionFromOffset T o))
    = snd (positionFromOffset T o)
    /\ forall t l,
         find_target (walker_nodes T) 0 o = Some (t, l) ->
         clamped t l = l.
Proof.
  intros T o. split.
  - unfold positionFromOffset.
    destruct (find_target (walker_nodes T) 0 o) as [[t l]|] eqn:E; simpl.
    + apply (find_target_clamped _ _ _ _ _ E).
    + apply clamped_element.
  - intros t l E. apply (find_target_clamped _ _ _ _ _ E).
Qed.

Lemma math_min_is_redundant_witness :
  clamped {| ref_path := [1]; ref_node := Text (JS.lit "de") |} 1 = 1%Z.
Proof.
  apply (proj2 (math_min_is_redundant abc_de 4)). reflexivity.
Defined.

(** X5. Negative offsets. On a tree with at least one text node both
    setters choose the first text node with the negative number as local
    offset, and [setStart] takes that number modulo 2^32, which for an
    offset above -2^32 is 2^32 plus the offset. If the result lies
    beyond the first text node, [setStart] raises: one warning is logged
    and the selection stays as it was. Otherwise the caret is placed in
    the first text node at the offset modulo 2^32, nothing is logged, and
    [getCursorPosition] then reports that number. *)
Theorem negative_offset_modulo_2_32 :
  forall (children : list Node) (o : Z) (position : CursorPosition)
         (h : Host),
    let T := Element children in
    walker_nodes T <> [] ->
    (o < 0)%Z ->
    offset position = o ->
    exists first rest,
      walker_nodes T = first :: rest
      /\ positionFromOffset T o = (first, o)
      /\ ((textLength (ref_node first) < unsigned_long o)%Z ->
          setCursorPosition T position h = Normal tt (logged h)
          /\ setCursorAtOffset T o h = Normal tt (logged h))
      /\ ((unsigned_long o <= textLength (ref_node first))%Z ->
          let h' := placed (ref_path first) (Z.to_nat (unsigned_long o)) h in
          setCursorPosition T position h = Normal tt h'
          /\ setCursorAtOffset T o h = Normal tt h'
          /\ (selection h <> None ->
              option_map offset (getCursorPosition T h')
              = Some (unsigned_long o)))
      /\ ((- 2 ^ 32 < o)%Z -> unsigned_long o = (2 ^ 32 + o)%Z).
Proof.
  intros children o position h T Hne Ho Hpos. subst T.
  destruct (walker_nodes (Element children)) as [|first rest] eqn:Ew;
    [congruence|].
  assert (E : find_target (walker_nodes (Element children)) 0 o
              = Some (first, o)).
  { rewrite Ew. simpl.
    pose proof (JS_length_nonneg (textContent (ref_node first))) as Hl.
    unfold textLength.
    assert (Hg : (JS.length (textContent (ref_node first)) >=? o)%Z = true).
    { rewrite Z.geb_leb. apply Z.leb_le. lia. }
    rewrite Hg. f_equal. f_equal. lia. }
  rewrite walker_nodes_Element in Ew.
  destruct (Range_toString_text_node (Element children) [] first rest Ew)
    as (d & Hd & _ & Hstr).
  assert (Hlen : Z.of_nat (node_length (ref_node first))
                 = textLength (ref_node first)).
  { rewrite Hd. reflexivity. }
  assert (Hc : clamped first o = o) by apply (find_target_clamped _ _ _ _ _ E).
  assert (Hk : setStart_offset first o = unsigned_long o).
  { unfold setStart_offset. rewrite (proj2 (Z.leb_gt 0 o)) by lia.
    reflexivity. }
  assert (Hu : (0 <= unsigned_long o)%Z).
  { unfold unsigned_long. apply Z.mod_pos_bound. reflexivity. }
  assert (Hset : setCursorPosition (Element children) position h
                 = applyPosition first o h).
  { unfold setCursorPosition, positionFromOffset. rewrite Hpos, E.
    reflexivity. }
  assert (Hat : setCursorAtOffset (Element children) o h
                = applyPosition first o h).
  { unfold setCursorAtOffset. rewrite E. reflexivity. }
  exists first, rest. split; [reflexivity|]. split.
  { unfold positionFromOffset. rewrite E. reflexivity. }
  split; [|split].
  - intros Hbeyond.
    assert (Hr : setStart_raises first (clamped first o) = true).
    { unfold setStart_raises. rewrite Hc, Hk, Hlen. apply Z.ltb_lt.
      exact Hbeyond. }
    rewrite Hset, Hat, (applyPosition_caught _ _ _ Hr). split; reflexivity.
  - intros Hwithin h'. subst h'.
    assert (Hr : setStart_raises first (clamped first o) = false).
    { unfold setStart_raises. rewrite Hc, Hk, Hlen. apply Z.ltb_ge.
      exact Hwithin. }
    rewrite Hset, Hat, applyPosition_effect, Hr, Hc, Hk.
    split; [reflexivity|]. split; [reflexivity|].
    intros Hsel. unfold getCursorPosition, placed. simpl.
    destruct (selection h) as [ranges|]; [|congruence]. simpl.
    unfold offsetFromPosition. rewrite Hstr. simpl.
    unfold JS.length. rewrite length_firstn.
    unfold textLength, JS.length in Hwithin. rewrite Hd in Hwithin.
    simpl in Hwithin. f_equal. lia.
  - intros Hlow. unfold unsigned_long.
    rewrite <- (Z.mod_add o 1 (2 ^ 32)) by discriminate.
    rewrite Z.mod_small; lia.
Qed.

Lemma negative_offset_modulo_2_32_witness :
  setCursorAtOffset abc_de (-1) live = Normal tt (logged live)
  /\ setCursorAtOffset abc_de (-4294967295) live
     = Normal tt (placed [0] 1 live)
  /\ option_map offset (getCursorPosition abc_de (placed [0] 1 live))
     = Some 1%Z.
Proof.
  assert (Hne : walker_nodes abc_de <> []) by discriminate.
  destruct (negative_offset_modulo_2_32
              [Text (JS.lit "abc"); Text (JS.lit "de")] (-1)
              {| offset := -1; node := None |} live Hne eq_refl eq_refl)
    as (first & rest & Hw & _ & Hcaught & _).
  inversion Hw; subst first rest.
  destruct (negative_offset_modulo_2_32
              [Text (JS.lit "abc"); Text (JS.lit "de")] (-4294967295)
              {| offset := -4294967295; node := None |} live Hne
              eq_refl eq_refl)
    as (first & rest & Hw' & _ & _ & Hplaced & _).
  inversion Hw'; subst first rest.
  split; [apply Hcaught; reflexivity|].
  destruct (Hplaced ltac:(vm_compute; discriminate)) as (_ & Hat & Hget).
  split; [exact Hat|]. apply Hget. discriminate.
Defined.

(** X6. Saving and restoring the cursor on an unchanged tree. With a
    range in the selection whose start is a boundary point of the tree,
    [restoreCursorPosition] of what [saveCursorPosition] returned
    completes without a warning, leaves a single caret at a boundary
    point of the tree, and [getCursorPosition] reports the same offset
    as before (the caret may sit on another node). The host reached is a
    fixed point: saving and restoring once more changes nothing. Without
    a range nothing is saved and restoring does nothing. *)
Theorem save_then_restore_keeps_offset :
  forall (children : list Node) (h : Host),
    let T := Element children in
    (forall range rest,
       selection h = Some (range :: rest) ->
       reachable T (startContainer range) (startOffset range) ->
       exists h' p off,
         restoreCursorPosition T (saveCursorPosition T h) h = Normal tt h'
         /\ h' = {| selection := Some [caret p off]; console := console h |}
         /\ reachable T p off
         /\ option_map offset (getCursorPosition T h')
            = option_map offset (getCursorPosition T h)
         /\ restoreCursorPosition T (saveCursorPosition T h') h'
            = Normal tt h')
    /\ (getCursorPosition T h = None ->
        restoreCursorPosition T (saveCursorPosition T h) h = Normal tt h).
Proof.
  intros children h T. subst T. split.
  - intros range rest Hsel Hanchor.
    set (o := offsetFromPosition (Element children) (startContainer range)
                (startOffset range)).
    assert (Ho : (0 <= o <= totalLength (Element children))%Z).
    { unfold o, offsetFromPosition, totalLength, textLength, JS.length.
      pose proof (Range_toString_length (startContainer range)
                    (Element children) (startOffset range)). lia. }
    assert (Hsave : saveCursorPosition (Element children) h
                    = Some {| offset := o;
                              node := Some (startContainer range) |}).
    { unfold saveCursorPosition, getCursorPosition. rewrite Hsel.
      reflexivity. }
    set (p := ref_path (fst (positionFromOffset (Element children) o))).
    set (off := Z.to_nat (snd (positionFromOffset (Element children) o))).
    destruct (setCursorPosition_in_range children
                {| offset := o; node := Some (startContainer range) |}
                h (range :: rest) Ho Hsel)
      as (Hset & Hreach & Hoff).
    simpl in Hset, Hreach, Hoff. fold p off in Hset, Hreach, Hoff.
    exists {| selection := Some [caret p off]; console := console h |},
      p, off.
    rewrite Hsave. simpl restoreCursorPosition.
    split; [exact Hset|]. split; [reflexivity|]. split; [exact Hreach|].
    split.
    + unfold getCursorPosition. rewrite Hsel. simpl. rewrite Hoff.
      reflexivity.
    + unfold saveCursorPosition, getCursorPosition. simpl.
      rewrite Hoff.
      destruct (setCursorPosition_in_range children
                  {| offset := o; node := Some p |}
                  {| selection := Some [caret p off]; console := console h |}
                  [caret p off] Ho eq_refl)
        as (Hset' & _ & _).
      simpl in Hset'. fold p off in Hset'. exact Hset'.
  - intros Hnone. unfold saveCursorPosition. rewrite Hnone. reflexivity.
Qed.

Lemma save_then_restore_keeps_offset_witness :
  let h := {| selection := Some [caret [1] 0]; console := [] |} in
  exists h' p off,
    restoreCursorPosition abc_de (saveCursorPosition abc_de h) h
    = Normal tt h'
    /\ h' = {| selection := Some [caret p off]; console := console h |}
    /\ option_map offset (getCursorPosition abc_de h')
       = option_map offset (getCursorPosition abc_de h).
Proof.
  intros h.
  assert (Hanchor : reachable abc_de [1] 0).
  { exists (Text (JS.lit "de")). split; [reflexivity|]. simpl. lia. }
  destruct (proj1 (save_then_restore_keeps_offset
                     [Text (JS.lit "abc"); Text (JS.lit "de")] h)
              (caret [1] 0) [] eq_refl Hanchor)
    as (h' & p & off & H1 & H2 & _ & H3 & _).
  exists h', p, off. repeat split; assumption.
Defined.

(** [setCursorAtOffset] for an offset inside the text of a tree with a
    text node, on a host with a Selection object. *)
Lemma setCursorAtOffset_in_range : forall children o h ranges,
  walker_nodes (Element children) <> [] ->
  (0 <= o <= totalLength (Element children))%Z ->
  selection h = Some ranges ->
  exists p off,
    setCursorAtOffset (Element children) o h
    = Normal tt {| selection := Some [caret p off]; console := console h |}
    /\ reachable (Element children) p off
    /\ offsetFromPosition (Element children) p off = o.
Proof.
  intros children o h ranges Hne Ho Hsel.
  assert (Hle : (o <= 0 + total (texts (walker_nodes (Element children))))%Z)
    by (rewrite walker_total; lia).
  destruct (find_target_within _ 0 o Hne Hle) as (r & l & E).
  assert (Hp : positionFromOffset (Element children) o = (r, l))
    by (unfold positionFromOffset; rewrite E; reflexivity).
  destruct (position_reads_back children o Ho r l Hp) as (Hc & Hin & Hoff).
  exists (ref_path r), (Z.to_nat l). split; [|split; [|exact Hoff]].
  - unfold setCursorAtOffset. rewrite E.
    rewrite applyPosition_placed by (rewrite Hc; exact Hin).
    rewrite Hsel, Hc. reflexivity.
  - exists (ref_node r). split.
    + apply (positionFromOffset_resolves _ _ r l Hp).
    + unfold in_node in Hin. apply andb_prop in Hin. destruct Hin as [H0 H1].
      apply Z.leb_le in H0, H1. lia.
Qed.

(** For an anchor given by a path below the element, the offset
    [getCursorPosition] computes is never negative and never beyond the
    text of the tree. *)
Lemma offsetFromPosition_bounds : forall T p off,
  (0 <= offsetFromPosition T p off <= totalLength T)%Z.
Proof.
  intros T p off.
  unfold offsetFromPosition, totalLength, textLength, JS.length.
  pose proof (Range_toString_length p T off). lia.
Qed.

(** X7. The hook's saved position. [restoreCursor] does nothing while
    nothing is saved or no element is mounted. [saveCursor] without an
    element keeps the position saved before, whereas [saveCursor] with
    an element but without a range in the selection overwrites it by
    [null], so that the next [restoreCursor] does nothing. With a range
    whose start is a boundary point of the tree, [saveCursor] followed
    by [restoreCursor] replaces whatever was saved before, completes
    without a warning and keeps the offset [getCursorPosition]
    reports. *)
Theorem saved_cursor_of_the_hook :
  forall (children : list Node) (saved : option CursorPosition) (h : Host),
    let T := Element children in
    (forall elementRef,
       SavedCursor.restoreCursor elementRef None h = Normal tt h)
    /\ SavedCursor.restoreCursor None saved h = Normal tt h
    /\ SavedCursor.saveCursor None saved h = saved
    /\ (getCursorPosition T h = None ->
        SavedCursor.saveCursor (Some T) saved h = None
        /\ SavedCursor.restoreCursor (Some T)
             (SavedCursor.saveCursor (Some T) saved h) h = Normal tt h)
    /\ (forall range rest,
          selection h = Some (range :: rest) ->
          reachable T (startContainer range) (startOffset range) ->
          exists h',
            SavedCursor.restoreCursor (Some T)
              (SavedCursor.saveCursor (Some T) saved h) h = Normal tt h'
            /\ console h' = console h
            /\ option_map offset (getCursorPosition T h')
               = option_map offset (getCursorPosition T h)).
Proof.
  intros children saved h T. subst T.
  split; [intros [e|]; reflexivity|].
  split; [destruct saved; reflexivity|].
  split; [reflexivity|]. split.
  - intros Hnone. unfold SavedCursor.saveCursor, saveCursorPosition.
    rewrite Hnone. split; reflexivity.
  - intros range rest Hsel Hanchor.
    unfold SavedCursor.saveCursor, saveCursorPosition, getCursorPosition.
    rewrite Hsel. cbn [SavedCursor.restoreCursor restoreCursorPosition].
    set (o := offsetFromPosition (Element children) (startContainer range)
                (startOffset range)).
    destruct (setCursorPosition_in_range children
                {| offset := o; node := Some (startContainer range) |}
                h (range :: rest)
                (offsetFromPosition_bounds _ _ _) Hsel)
      as (Hset & _ & Hoff).
    eexists. split; [exact Hset|]. split; [reflexivity|].
    simpl. simpl in Hoff. rewrite Hoff. reflexivity.
Qed.

Lemma saved_cursor_of_the_hook_witness :
  let h := {| selection := Some [caret [1] 1]; console := [] |} in
  let saved := Some {| offset := 2; node := None |} in
  SavedCursor.saveCursor (Some abc_de) saved live = None
  /\ exists h',
       SavedCursor.restoreCursor (Some abc_de)
         (SavedCursor.saveCursor (Some abc_de) saved h) h = Normal tt h'
       /\ console h' = console h
       /\ option_map offset (getCursorPosition abc_de h')
          = option_map offset (getCursorPosition abc_de h).
Proof.
  intros h saved. split.
  - destruct (saved_cursor_of_the_hook
                [Text (JS.lit "abc"); Text (JS.lit "de")] saved live)
      as (_ & _ & _ & H & _).
    exact (proj1 (H eq_refl)).
  - destruct (saved_cursor_of_the_hook
                [Text (JS.lit "abc"); Text (JS.lit "de")] saved h)
      as (_ & _ & _ & _ & H).
    apply (H (caret [1] 1) [] eq_refl).
    exists (Text (JS.lit "de")). split; [reflexivity|]. simpl. lia.
Defined.

Lemma Range_setStart_element_0 : forall T h,
  Range_setStart (element_ref T) 0 h = Normal (caret [] 0) h.
Proof.
  intros T h. unfold Range_setStart.
  assert (Hin : in_node (element_ref T) 0 = true).
  { unfold in_node. apply andb_true_intro. split; apply Z.leb_le; lia. }
  destruct (setStart_offset_in_node _ _ Hin) as [Hk _]. rewrite Hk.
  rewrite (proj2 (Z.leb_le _ _)) by lia. reflexivity.
Qed.

Lemma handleCtrlHome_effect : forall T h,
  EditorKeys.handleCtrlHome T h
  = Normal tt {| selection := match selection h with
                              | Some _ => Some [caret [] 0]
                              | None => None
                              end;
                 console := console h |}.
Proof.
  intros T h. unfold EditorKeys.handleCtrlHome, bind.
  rewrite Range_setStart_element_0.
  unfold removeAllRanges, addRange. simpl.
  destruct (selection h); reflexivity.
Qed.

Lemma handleCtrlEnd_effect : forall T h,
  EditorKeys.handleCtrlEnd T h
  = Normal tt {| selection := match selection h with
                              | Some _ => Some [caret [] (node_length T)]
                              | None => None
                              end;
                 console := console h |}.
Proof.
  intros T h. unfold EditorKeys.handleCtrlEnd, bind, removeAllRanges, addRange.
  simpl. destruct (selection h); reflexivity.
Qed.

Lemma offset_behind_last_child : forall children,
  offsetFromPosition (Element children) [] (length children)
  = totalLength (Element children).
Proof.
  intros children. unfold offsetFromPosition, totalLength, textLength.
  simpl. rewrite firstn_all. reflexivity.
Qed.

(** X8. Ctrl+Home and Ctrl+End never fail. With a Selection object,
    Ctrl+Home leaves the caret in the element before its first child,
    where [getCursorPosition] reports offset 0, and Ctrl+End leaves it
    behind the last child, where it reports the total text length;
    nothing is logged. Without a Selection object both leave the host as
    it is. *)
Theorem ctrl_home_and_end :
  forall (children : list Node) (h : Host),
    let T := Element children in
    (forall ranges,
       selection h = Some ranges ->
       EditorKeys.handleCtrlHome T h
       = Normal tt {| selection := Some [caret [] 0]; console := console h |}
       /\ getCursorPosition T
            {| selection := Some [caret [] 0]; console := console h |}
          = Some {| offset := 0; node := Some [] |}
       /\ EditorKeys.handleCtrlEnd T h
          = Normal tt {| selection := Some [caret [] (length children)];
                         console := console h |}
       /\ getCursorPosition T
            {| selection := Some [caret [] (length children)];
               console := console h |}
          = Some {| offset := totalLength T; node := Some [] |})
    /\ (selection h = None ->
        EditorKeys.handleCtrlHome T h
        = Normal tt {| selection := None; console := console h |}
        /\ EditorKeys.handleCtrlEnd T h
           = Normal tt {| selection := None; console := console h |}).
Proof.
  intros children h T. subst T.
  rewrite handleCtrlHome_effect, handleCtrlEnd_effect. split.
  - intros ranges Hsel. rewrite Hsel. simpl node_length.
    split; [reflexivity|]. split; [reflexivity|]. split; [reflexivity|].
    unfold getCursorPosition. simpl.
    rewrite offset_behind_last_child. reflexivity.
  - intros Hsel. rewrite Hsel. split; reflexivity.
Qed.

Lemma ctrl_home_and_end_witness :
  EditorKeys.handleCtrlEnd abc_de live
  = Normal tt {| selection := Some [caret [] 2]; console := [] |}
  /\ getCursorPosition abc_de
       {| selection := Some [caret [] 2]; console := [] |}
     = Some {| offset := totalLength abc_de; node := Some [] |}.
Proof.
  destruct (proj1 (ctrl_home_and_end
                     [Text (JS.lit "abc"); Text (JS.lit "de")] live)
              [] eq_refl)
    as (_ & _ & H1 & H2).
  split; [exact H1 | exact H2].
Defined.

(* ===================================================================== *)
(** ** Further properties of the paragraph navigation *)
(* ===================================================================== *)

Lemma arrowDownTarget_bounds : forall content cur,
  (0 <= cur <= JS.length content)%Z ->
  (0 <= Editor.arrowDownTarget content cur <= JS.length content)%Z.
Proof.
  intros content cur Hcur.
  destruct (paragraphEnd_spec content cur Hcur) as (Hpe & _).
  unfold Editor.arrowDownTarget.
  set (pe := Editor.paragraphEnd content cur) in *.
  destruct (cur =? pe)%Z; [|lia].
  destruct (pe <? JS.length content)%Z eqn:Elt; [|lia].
  apply Z.ltb_lt in Elt. unfold for_up.
  destruct (for_ascending _ _ _) as [t|] eqn:E; [|lia].
  apply for_ascending_some in E. destruct E as (j & Hj & Hb & _).
  rewrite Z2Nat.id in Hj by lia.
  destruct (_ && _); [inversion Hb; subst t; lia|].
  destruct (negb _); [inversion Hb; subst t; lia|discriminate].
Qed.

Lemma arrowUpTarget_bounds : forall content cur,
  (0 <= cur <= JS.length content)%Z ->
  (0 <= Editor.arrowUpTarget content cur <= JS.length content)%Z.
Proof.
  intros content cur Hcur.
  pose proof (paragraphStart_range content cur (proj1 Hcur)) as Hps.
  unfold Editor.arrowUpTarget.
  set (ps := Editor.paragraphStart content cur) in *.
  destruct (Z.abs (cur - ps) <=? 1)%Z; [|lia].
  destruct (ps >? 0)%Z eqn:Epos; [|lia].
  apply Z.gtb_gt in Epos. unfold for_down.
  destruct (for_descending _ _ _) as [t|] eqn:E; [|lia].
  apply for_descending_some in E. destruct E as (j & Hj & Hb).
  rewrite Z2Nat.id in Hj by lia.
  destruct (negb _); [inversion Hb; subst t; lia|].
  destruct (j =? 0)%Z; [inversion Hb; subst t; lia|discriminate].
Qed.

(** X9. The targets of Ctrl+ArrowDown and Ctrl+ArrowUp never leave the
    text: for a caret offset between 0 and the text length both lie
    between 0 and the text length. *)
Theorem paragraph_targets_stay_in_text :
  forall (content : JS.str) (cur : Z),
    (0 <= cur <= JS.length content)%Z ->
    (0 <= findParagraphBoundary content cur Forward <= JS.length content)%Z
    /\ (0 <= findParagraphBoundary content cur Backward
        <= JS.length content)%Z.
Proof.
  intros content cur Hcur. split.
  - apply arrowDownTarget_bounds. exact Hcur.
  - apply arrowUpTarget_bounds. exact Hcur.
Qed.

Lemma paragraph_targets_stay_in_text_witness :
  (0 <= findParagraphBoundary hello_world 6 Forward <= JS.length hello_world)%Z.
Proof.
  apply (paragraph_targets_stay_in_text hello_world 6).
  vm_compute. split; discriminate.
Defined.

(** The two key handlers on a tree with a text node and a range in the
    selection: the caret goes where the target says. *)
Lemma handleCtrlArrow_effect : forall children h range rest,
  walker_nodes (Element children) <> [] ->
  selection h = Some (range :: rest) ->
  let T := Element children in
  let cur := offsetFromPosition T (startContainer range) (startOffset range) in
  (exists p off,
     Editor.handleCtrlArrowDown T h
     = Normal tt {| selection := Some [caret p off]; console := console h |}
     /\ reachable T p off
     /\ offsetFromPosition T p off
        = Editor.arrowDownTarget (textContent T) cur)
  /\ (exists p off,
        Editor.handleCtrlArrowUp T h
        = Normal tt {| selection := Some [caret p off]; console := console h |}
        /\ reachable T p off
        /\ offsetFromPosition T p off
           = Editor.arrowUpTarget (textContent T) cur).
Proof.
  intros children h range rest Hne Hsel T cur. subst T.
  assert (Hcur : (0 <= cur <= JS.length (textContent (Element children)))%Z)
    by apply offsetFromPosition_bounds.
  assert (Hc : Editor.currentOffset (Element children) h = cur).
  { unfold Editor.currentOffset, getCursorPosition. rewrite Hsel.
    reflexivity. }
  split.
  - unfold Editor.handleCtrlArrowDown. rewrite Hsel, Hc.
    apply (setCursorAtOffset_in_range children _ h (range :: rest) Hne);
      [|exact Hsel].
    apply arrowDownTarget_bounds. exact Hcur.
  - unfold Editor.handleCtrlArrowUp. rewrite Hsel, Hc.
    apply (setCursorAtOffset_in_range children _ h (range :: rest) Hne);
      [|exact Hsel].
    apply arrowUpTarget_bounds. exact Hcur.
Qed.

(** X10. Ctrl+ArrowDown and Ctrl+ArrowUp end to end. On a tree with at
    least one text node and a range in the selection, each handler
    completes without a warning and leaves a single caret at a boundary
    point of the tree, at which [getCursorPosition] reports exactly the
    target computed from the text of the tree and the offset reported
    before. On a tree without text nodes, or without a range in the
    selection, the handlers change nothing. *)
Theorem ctrl_arrow_places_caret_at_target :
  forall (children : list Node) (h : Host),
    let T := Element children in
    (forall range rest,
       walker_nodes T <> [] ->
       selection h = Some (range :: rest) ->
       let cur :=
         offsetFromPosition T (startContainer range) (startOffset range) in
       (exists h' p,
          Editor.handleCtrlArrowDown T h = Normal tt h'
          /\ console h' = console h
          /\ getCursorPosition T h'
             = Some {| offset := Editor.arrowDownTarget (textContent T) cur;
                       node := Some p |})
       /\ (exists h' p,
             Editor.handleCtrlArrowUp T h = Normal tt h'
             /\ console h' = console h
             /\ getCursorPosition T h'
                = Some {| offset := Editor.arrowUpTarget (textContent T) cur;
                          node := Some p |}))
    /\ (walker_nodes T = [] \/ getCursorPosition T h = None ->
        Editor.handleCtrlArrowDown T h = Normal tt h
        /\ Editor.handleCtrlArrowUp T h = Normal tt h).
Proof.
  intros children h T. subst T. split.
  - intros range rest Hne Hsel cur.
    destruct (handleCtrlArrow_effect children h range rest Hne Hsel)
      as ((p & off & Hd & _ & Hdo) & (q & off' & Hu & _ & Huo)).
    split.
    + eexists. exists p. split; [exact Hd|]. split; [reflexivity|].
      unfold getCursorPosition. simpl. rewrite Hdo. reflexivity.
    + eexists. exists q. split; [exact Hu|]. split; [reflexivity|].
      unfold getCursorPosition. simpl. rewrite Huo. reflexivity.
  - intros [Hnil | Hnone].
    + unfold Editor.handleCtrlArrowDown, Editor.handleCtrlArrowUp,
        setCursorAtOffset.
      rewrite Hnil. simpl.
      destruct (selection h) as [[|r rs]|]; split; reflexivity.
    + unfold Editor.handleCtrlArrowDown, Editor.handleCtrlArrowUp.
      unfold getCursorPosition in Hnone.
      destruct (selection h) as [[|r rs]|]; try discriminate;
        split; reflexivity.
Qed.

Lemma ctrl_arrow_places_caret_at_target_witness :
  let h := {| selection := Some [caret [0] 1]; console := [] |} in
  exists h' p,
    Editor.handleCtrlArrowDown abc_de h = Normal tt h'
    /\ console h' = console h
    /\ getCursorPosition abc_de h'
       = Some {| offset := Editor.arrowDownTarget (textContent abc_de) 1;
                 node := Some p |}.
Proof.
  intros h.
  assert (Hne : walker_nodes abc_de <> []) by discriminate.
  exact (proj1 (proj1 (ctrl_arrow_places_caret_at_target
                         [Text (JS.lit "abc"); Text (JS.lit "de")] h)
                  (caret [0] 1) [] Hne eq_refl)).
Defined.

(** X11. Wrapping around with the keyboard. On a tree with at least one
    text node and a host with a Selection object, Ctrl+Home followed by
    Ctrl+ArrowUp leaves the caret where [getCursorPosition] reports the
    total text length, and Ctrl+End followed by Ctrl+ArrowDown leaves it
    where [getCursorPosition] reports 0. *)
Theorem home_up_and_end_down_wrap :
  forall (children : list Node) (h : Host) (ranges : list Range),
    let T := Element children in
    walker_nodes T <> [] ->
    selection h = Some ranges ->
    (exists h1 h2 p,
       EditorKeys.handleCtrlHome T h = Normal tt h1
       /\ Editor.handleCtrlArrowUp T h1 = Normal tt h2
       /\ getCursorPosition T h2
          = Some {| offset := totalLength T; node := Some p |})
    /\ (exists h1 h2 p,
          EditorKeys.handleCtrlEnd T h = Normal tt h1
          /\ Editor.handleCtrlArrowDown T h1 = Normal tt h2
          /\ getCursorPosition T h2 = Some {| offset := 0; node := Some p |}).
Proof.
  intros children h ranges T Hne Hsel. subst T. split.
  - rewrite handleCtrlHome_effect, Hsel.
    destruct (handleCtrlArrow_effect children
                {| selection := Some [caret [] 0]; console := console h |}
                (caret [] 0) [] Hne eq_refl)
      as (_ & (p & off & Hu & _ & Huo)).
    simpl in Huo. change (offsetFromPosition (Element children) [] 0)
      with 0%Z in Huo.
    rewrite arrowUpTarget_wraps in Huo.
    eexists. eexists. exists p. split; [reflexivity|]. split; [exact Hu|].
    unfold getCursorPosition. simpl. rewrite Huo. reflexivity.
  - rewrite handleCtrlEnd_effect, Hsel. simpl node_length.
    destruct (handleCtrlArrow_effect children
                {| selection := Some [caret [] (length children)];
                   console := console h |}
                (caret [] (length children)) [] Hne eq_refl)
      as ((p & off & Hd & _ & Hdo) & _).
    simpl in Hdo. rewrite offset_behind_last_child in Hdo.
    unfold totalLength, textLength in Hdo.
    rewrite arrowDownTarget_wraps in Hdo.
    eexists. eexists. exists p. split; [reflexivity|]. split; [exact Hd|].
    unfold getCursorPosition. simpl. rewrite Hdo. reflexivity.
Qed.

Lemma home_up_and_end_down_wrap_witness :
  exists h1 h2 p,
    EditorKeys.handleCtrlEnd abc_de live = Normal tt h1
    /\ Editor.handleCtrlArrowDown abc_de h1 = Normal tt h2
    /\ getCursorPosition abc_de h2 = Some {| offset := 0; node := Some p |}.
Proof.
  assert (Hne : walker_nodes abc_de <> []) by discriminate.
  exact (proj2 (home_up_and_end_down_wrap
                  [Text (JS.lit "abc"); Text (JS.lit "de")] live [] Hne
                  eq_refl)).
Defined.

Lemma at_some_in_range : forall s i,
  JS.is_nl (JS.at_ s i) = true -> (0 <= i < JS.length s)%Z.
Proof.
  intros s i H.
  destruct (Z_lt_le_dec i 0) as [Hneg|H0];
    [rewrite (at_before s i Hneg) in H; discriminate|].
  destruct (Z_lt_le_dec i (JS.length s)) as [|Hge]; [lia|].
  rewrite (at_beyond s i Hge) in H. discriminate.
Qed.

(** X12. Where the caret cannot move. If the text ends in a line break,
    Ctrl+ArrowDown with the caret in front of that last line break
    leaves the target at the caret, so the end of the text is not
    reached from there. If the text begins with a line break,
    Ctrl+ArrowUp with the caret behind that first line break leaves the
    target at the caret; and in a text of a single code unit
    Ctrl+ArrowUp at offset 1 stays at offset 1. *)
Theorem caret_stuck_at_edge_line_breaks :
  (forall content,
     JS.is_nl (JS.at_ content (JS.length content - 1)) = true ->
     Editor.arrowDownTarget content (JS.length content - 1)
     = (JS.length content - 1)%Z)
  /\ (forall content,
        JS.is_nl (JS.at_ content 0) = true ->
        Editor.arrowUpTarget content 1 = 1%Z)
  /\ (forall u, Editor.arrowUpTarget [u] 1 = 1%Z).
Proof.
  split; [|split].
  - intros content Hnl.
    pose proof (at_some_in_range _ _ Hnl) as Hr.
    set (e := (JS.length content - 1)%Z) in *.
    assert (Hpe : Editor.paragraphEnd content e = e).
    { unfold Editor.paragraphEnd, for_up.
      rewrite (for_ascending_first _ _ _ e e); auto; try lia.
      rewrite Hnl, Z.eqb_refl. reflexivity. }
    unfold Editor.arrowDownTarget. rewrite Hpe, Z.eqb_refl.
    rewrite (proj2 (Z.ltb_lt e (JS.length content))) by lia.
    unfold for_up.
    replace (Z.to_nat (JS.length content - (e + 1))) with 0 by lia.
    reflexivity.
  - intros content Hnl.
    assert (Hps : Editor.paragraphStart content 1 = 1%Z).
    { unfold Editor.paragraphStart, for_down. simpl. rewrite Hnl.
      reflexivity. }
    unfold Editor.arrowUpTarget. rewrite Hps. reflexivity.
  - intros u. unfold Editor.arrowUpTarget, Editor.paragraphStart, for_down.
    simpl. destruct (u =? JS.LF)%N; reflexivity.
Qed.

Lemma caret_stuck_at_edge_line_breaks_witness :
  Editor.arrowDownTarget (JS.lit "ab" ++ [JS.LF]) 2 = 2%Z.
Proof.
  apply (proj1 caret_stuck_at_edge_line_breaks (JS.lit "ab" ++ [JS.LF])).
  reflexivity.
Defined.

Lemma for_descending_first : forall (A : Type) n i (body : Z -> option A) j r,
  (i - Z.of_nat n < j <= i)%Z ->
  (forall j', (j < j' <= i)%Z -> body j' = None) ->
  body j = Some r ->
  for_descending n i body = Some r.
Proof.
  intros A. induction n as [|n IH]; intros i body j r Hj Hafter Hb; [lia|].
  simpl. destruct (Z.eq_dec j i) as [->|Hne].
  - rewrite Hb. reflexivity.
  - rewrite (Hafter i) by lia. apply (IH _ _ j); auto; try lia.
    intros j' Hj'. apply Hafter. lia.
Qed.

Lemma for_descending_all_none : forall (A : Type) n i (body : Z -> option A),
  (forall j, (i - Z.of_nat n < j <= i)%Z -> body j = None) ->
  for_descending n i body = None.
Proof.
  intros A. induction n as [|n IH]; intros i body H; [reflexivity|].
  simpl. rewrite (H i) by lia. apply IH. intros j Hj. apply H. lia.
Qed.

Lemma is_paragraph_first : forall p,
  is_paragraph p = true -> JS.is_nl (JS.at_ p 0) = false.
Proof.
  intros p H. unfold is_paragraph in H.
  apply andb_prop in H. destruct H as [H _].
  apply andb_prop in H. destruct H as [H _].
  apply andb_prop in H. destruct H as [Hfirst _].
  apply negb_true_iff in Hfirst. destruct p; exact Hfirst.
Qed.

(** Inside a paragraph nothing looks like a paragraph start. *)
Lemma no_start_inside_paragraph : forall pre p post i,
  is_paragraph p = true ->
  (JS.length pre <= i < JS.length pre + JS.length p)%Z ->
  (if JS.is_nl (JS.at_ (pre ++ p ++ post) i)
   then if (i =? 0)%Z || JS.is_nl (JS.at_ (pre ++ p ++ post) (i - 1))
        then Some (i + 1)%Z else None
   else None) = None.
Proof.
  intros pre p post i Hp Hi.
  destruct (is_paragraph_facts p Hp) as (_ & _ & Hin).
  pose proof (is_paragraph_first p Hp) as Hfirst.
  pose proof (JS_length_nonneg pre) as Hpre.
  rewrite at_app_r, at_app_l by lia.
  destruct (JS.is_nl (JS.at_ p (i - JS.length pre))) eqn:E; [|reflexivity].
  assert (Hj : (i - JS.length pre <> 0)%Z).
  { intros E0. rewrite E0 in E. congruence. }
  rewrite (proj2 (Z.eqb_neq i 0)) by lia. simpl.
  rewrite at_app_r, at_app_l by lia.
  destruct (JS.is_nl (JS.at_ p (i - 1 - JS.length pre))) eqn:E1;
    [|reflexivity].
  destruct (Hin _ E1) as (_ & _ & Hnext).
  replace (i - 1 - JS.length pre + 1)%Z with (i - JS.length pre)%Z
    in Hnext by lia.
  congruence.
Qed.

Lemma at_last_two : forall pre0 k,
  (k = 1 \/ k = 2)%Z ->
  JS.at_ (pre0 ++ [JS.LF; JS.LF]) (JS.length (pre0 ++ [JS.LF; JS.LF]) - k)
  = Some JS.LF.
Proof.
  intros pre0 k Hk. pose proof (JS_length_nonneg pre0).
  rewrite length_app_Z. change (JS.length [JS.LF; JS.LF]) with 2%Z.
  rewrite at_app_r by lia.
  destruct Hk as [-> | ->].
  - replace (JS.length pre0 + 2 - 1 - JS.length pre0)%Z with 1%Z by lia.
    reflexivity.
  - replace (JS.length pre0 + 2 - 2 - JS.length pre0)%Z with 0%Z by lia.
    reflexivity.
Qed.

(** Behind a double line break the scan for the paragraph start stops at
    once. *)
Lemma paragraphStart_behind_break : forall pre0 rest,
  Editor.paragraphStart ((pre0 ++ [JS.LF; JS.LF]) ++ rest)
    (JS.length (pre0 ++ [JS.LF; JS.LF]))
  = JS.length (pre0 ++ [JS.LF; JS.LF]).
Proof.
  intros pre0 rest. set (pre := pre0 ++ [JS.LF; JS.LF]).
  assert (Hlen : JS.length pre = (JS.length pre0 + 2)%Z).
  { unfold pre. rewrite length_app_Z. reflexivity. }
  pose proof (JS_length_nonneg pre0).
  unfold Editor.paragraphStart, for_down.
  rewrite (for_descending_first _ _ _ _ (JS.length pre - 1)%Z (JS.length pre));
    auto; try lia.
  rewrite !at_app_l by lia.
  replace (JS.length pre - 1 - 1)%Z with (JS.length pre - 2)%Z by lia.
  unfold pre. rewrite !at_last_two by auto.
  change (JS.is_nl (Some JS.LF)) with true. rewrite orb_true_r.
  f_equal. lia.
Qed.

(** From the end of a paragraph the scan goes back to its start. *)
Lemma paragraphStart_of_paragraph : forall pre p post,
  paragraph_prefix pre ->
  is_paragraph p = true ->
  Editor.paragraphStart (pre ++ p ++ post) (JS.length pre + JS.length p)
  = JS.length pre.
Proof.
  intros pre p post Hpre Hp.
  destruct (is_paragraph_facts p Hp) as (Hlenp & _ & _).
  pose proof (JS_length_nonneg pre) as Hn.
  unfold Editor.paragraphStart, for_down.
  destruct Hpre as [-> | (pre0 & p0 & -> & _)].
  - rewrite for_descending_all_none; [reflexivity|].
    intros j Hj. change (JS.length []) with 0%Z in *.
    apply (no_start_inside_paragraph [] p post j Hp).
    change (JS.length []) with 0%Z. lia.
  - rewrite app_assoc in *. set (pre := (pre0 ++ p0) ++ [JS.LF; JS.LF]) in *.
    assert (Hlen : JS.length pre = (JS.length (pre0 ++ p0) + 2)%Z).
    { unfold pre. rewrite length_app_Z. reflexivity. }
    pose proof (JS_length_nonneg (pre0 ++ p0)).
    rewrite (for_descending_first _ _ _ _ (JS.length pre - 1)%Z
               (JS.length pre)); auto; try lia.
    + intros j Hj. apply (no_start_inside_paragraph pre p post j Hp). lia.
    + rewrite !at_app_l by lia.
      replace (JS.length pre - 1 - 1)%Z with (JS.length pre - 2)%Z by lia.
      unfold pre. rewrite !at_last_two by auto.
      change (JS.is_nl (Some JS.LF)) with true. rewrite orb_true_r.
      f_equal. lia.
Qed.

(** Ctrl+ArrowUp at the end of a paragraph of two or more code units
    goes to its start. *)
Lemma arrowUpTarget_end_to_start : forall pre p post,
  paragraph_prefix pre ->
  is_long_paragraph p = true ->
  Editor.arrowUpTarget (pre ++ p ++ post) (JS.length pre + JS.length p)
  = JS.length pre.
Proof.
  intros pre p post Hpre Hlong. unfold is_long_paragraph in Hlong.
  apply andb_prop in Hlong. destruct Hlong as [Hp H2].
  apply Z.leb_le in H2.
  unfold Editor.arrowUpTarget.
  rewrite (paragraphStart_of_paragraph pre p post Hpre Hp).
  rewrite (proj2 (Z.leb_gt _ _)) by lia. reflexivity.
Qed.

(** Ctrl+ArrowUp at the start of a paragraph that follows a double line
    break goes to the end of the paragraph before. *)
Lemma arrowUpTarget_start_to_end : forall pre0 p0 rest,
  is_paragraph p0 = true ->
  Editor.arrowUpTarget (pre0 ++ p0 ++ JS.LF :: JS.LF :: rest)
    (JS.length pre0 + JS.length p0 + 2)
  = (JS.length pre0 + JS.length p0)%Z.
Proof.
  intros pre0 p0 rest Hp.
  destruct (is_paragraph_facts p0 Hp) as (Hlenp & Hlast & _).
  pose proof (JS_length_nonneg pre0) as Hn.
  set (e := (JS.length pre0 + JS.length p0)%Z).
  assert (Hc : pre0 ++ p0 ++ JS.LF :: JS.LF :: rest
               = ((pre0 ++ p0) ++ [JS.LF; JS.LF]) ++ rest).
  { rewrite <- !app_assoc. reflexivity. }
  assert (Hlen : JS.length ((pre0 ++ p0) ++ [JS.LF; JS.LF]) = (e + 2)%Z).
  { rewrite !length_app_Z. reflexivity. }
  assert (Hps : Editor.paragraphStart (pre0 ++ p0 ++ JS.LF :: JS.LF :: rest)
                  (e + 2) = (e + 2)%Z).
  { rewrite Hc, <- Hlen. apply paragraphStart_behind_break. }
  unfold Editor.arrowUpTarget. fold e. rewrite Hps.
  rewrite Z.sub_diag. simpl Z.abs.
  rewrite (proj2 (Z.leb_le 0 1)) by lia.
  rewrite (proj2 (Z.gtb_gt (e + 2) 0)) by lia.
  unfold for_down.
  assert (He : JS.at_ (pre0 ++ p0 ++ JS.LF :: JS.LF :: rest) e = Some JS.LF).
  { unfold e. rewrite !at_app_r by lia.
    replace (JS.length pre0 + JS.length p0 - JS.length pre0 - JS.length p0)%Z
      with 0%Z by lia. reflexivity. }
  assert (Hem1 : JS.is_nl (JS.at_ (pre0 ++ p0 ++ JS.LF :: JS.LF :: rest)
                             (e - 1)) = false).
  { unfold e. rewrite at_app_r, at_app_l by lia.
    replace (JS.length pre0 + JS.length p0 - 1 - JS.length pre0)%Z
      with (JS.length p0 - 1)%Z by lia.
    exact Hlast. }
  rewrite (for_descending_first _ _ _ _ (e - 1)%Z e); auto; try lia.
  - intros j Hj. assert (Hje : j = e) by lia. rewrite Hje, He.
    change (negb (JS.is_nl (Some JS.LF))) with false.
    rewrite (proj2 (Z.eqb_neq e 0)) by lia. reflexivity.
  - rewrite Hem1. simpl. f_equal. lia.
Qed.

Lemma is_long_paragraph_paragraph : forall p,
  is_long_paragraph p = true -> is_paragraph p = true.
Proof.
  intros p H. unfold is_long_paragraph in H.
  apply andb_prop in H. exact (proj1 H).
Qed.

(** Down and up again, and up and down again, at the start of a
    paragraph. *)
Lemma cycle_at_paragraph_start : forall pre p post,
  paragraph_prefix pre ->
  is_long_paragraph p = true ->
  (post = [] \/ exists post', post = JS.LF :: JS.LF :: post') ->
  let c := pre ++ p ++ post in
  Editor.arrowUpTarget c (Editor.arrowDownTarget c (JS.length pre))
  = JS.length pre
  /\ Editor.arrowDownTarget c (Editor.arrowUpTarget c (JS.length pre))
     = JS.length pre.
Proof.
  intros pre p post Hpre Hlong Hpost c. subst c.
  pose proof (is_long_paragraph_paragraph p Hlong) as Hp.
  split.
  - rewrite (arrowDownTarget_start_to_end pre p post Hp Hpost).
    apply arrowUpTarget_end_to_start; assumption.
  - destruct Hpre as [-> | (pre0 & p0 & -> & Hp0)].
    + change (JS.length []) with 0%Z. rewrite arrowUpTarget_wraps.
      apply arrowDownTarget_wraps.
    + assert (Hc : (pre0 ++ p0 ++ [JS.LF; JS.LF]) ++ p ++ post
                   = pre0 ++ p0 ++ JS.LF :: JS.LF :: (p ++ post)).
      { rewrite <- !app_assoc. reflexivity. }
      assert (Hlen : JS.length (pre0 ++ p0 ++ [JS.LF; JS.LF])
                     = (JS.length pre0 + JS.length p0 + 2)%Z).
      { rewrite !length_app_Z. change (JS.length [JS.LF; JS.LF]) with 2%Z.
        lia. }
      rewrite Hc, Hlen.
      rewrite (arrowUpTarget_start_to_end pre0 p0 (p ++ post) Hp0).
      apply arrowDownTarget_end_to_start; [exact Hp0|].
      pose proof (is_paragraph_nonempty p Hp).
      destruct p; [congruence|discriminate].
Qed.

(** The same at the end of a paragraph. *)
Lemma cycle_at_paragraph_end : forall pre p post,
  paragraph_prefix pre ->
  is_long_paragraph p = true ->
  (post = [] \/ exists q, post = JS.LF :: JS.LF :: q /\ q <> []) ->
  let c := pre ++ p ++ post in
  let e := (JS.length pre + JS.length p)%Z in
  Editor.arrowUpTarget c (Editor.arrowDownTarget c e) = e
  /\ Editor.arrowDownTarget c (Editor.arrowUpTarget c e) = e.
Proof.
  intros pre p post Hpre Hlong Hpost c e. subst c e.
  pose proof (is_long_paragraph_paragraph p Hlong) as Hp.
  split.
  - destruct Hpost as [-> | (q & -> & Hq)].
    + assert (Hlen : (JS.length pre + JS.length p)%Z
                     = JS.length (pre ++ p ++ [])).
      { rewrite !length_app_Z. change (JS.length []) with 0%Z. lia. }
      rewrite Hlen at 1. rewrite arrowDownTarget_wraps, arrowUpTarget_wraps.
      symmetry. exact Hlen.
    + rewrite (arrowDownTarget_end_to_start pre p q Hp Hq).
      apply (arrowUpTarget_start_to_end pre p q Hp).
  - rewrite (arrowUpTarget_end_to_start pre p post Hpre Hlong).
    apply arrowDownTarget_start_to_end; [exact Hp|].
    destruct Hpost as [-> | (q & -> & _)]; [left; reflexivity|right; eauto].
Qed.

Lemma stops_cycle_from : forall ps pre,
  paragraph_prefix pre ->
  Forall (fun p => is_long_paragraph p = true) ps ->
  let c := pre ++ join_paragraphs ps in
  forall x,
    In x (paragraph_stops (JS.length pre) ps) ->
    Editor.arrowUpTarget c (Editor.arrowDownTarget c x) = x
    /\ Editor.arrowDownTarget c (Editor.arrowUpTarget c x) = x.
Proof.
  induction ps as [|p ps IH]; intros pre Hpre Hps c x Hx; [destruct Hx|].
  inversion Hps as [|? ? Hlong Hrest]; subst.
  pose proof (is_long_paragraph_paragraph p Hlong) as Hp.
  destruct ps as [|q rest].
  - assert (Hc : c = pre ++ p ++ []) by (unfold c; simpl; rewrite app_nil_r; reflexivity).
    rewrite Hc. simpl in Hx. destruct Hx as [<- | [<- | []]].
    + apply cycle_at_paragraph_start; auto.
    + apply (cycle_at_paragraph_end pre p []); auto.
  - assert (Hq : join_paragraphs (q :: rest) <> []).
    { inversion Hrest; subst. apply join_paragraphs_nonempty.
      apply is_paragraph_nonempty. apply is_long_paragraph_paragraph.
      assumption. }
    assert (Hc : c = pre ++ p ++ JS.LF :: JS.LF :: join_paragraphs (q :: rest))
      by reflexivity.
    rewrite paragraph_stops_cons in Hx. destruct Hx as [<- | [<- | Hx]].
    + rewrite Hc. apply cycle_at_paragraph_start; eauto.
    + rewrite Hc.
      apply (cycle_at_paragraph_end pre p
               (JS.LF :: JS.LF :: join_paragraphs (q :: rest))); eauto.
    + assert (Hpre' : paragraph_prefix (pre ++ p ++ [JS.LF; JS.LF])).
      { right. exists pre, p. auto. }
      specialize (IH (pre ++ p ++ [JS.LF; JS.LF]) Hpre' Hrest x).
      rewrite !length_app_Z in IH.
      change (JS.length [JS.LF; JS.LF]) with 2%Z in IH.
      rewrite Z.add_assoc in IH.
      replace ((pre ++ p ++ [JS.LF; JS.LF]) ++ join_paragraphs (q :: rest))
        with c in IH by (rewrite Hc, <- !app_assoc; reflexivity).
      apply IH. exact Hx.
Qed.

(** X13. Up undoes down. In a text of paragraphs of at least two code
    units each, joined by double line breaks, Ctrl+ArrowDown and
    Ctrl+ArrowUp are inverse to each other on the paragraph starts and
    ends (offset 0 and the text length among them, where the two wrap
    around): from each of these offsets, down and then up, or up and
    then down, leads back to it. *)
Theorem up_undoes_down_on_paragraph_stops :
  forall (ps : list JS.str) (x : Z),
    Forall (fun p => is_long_paragraph p = true) ps ->
    In x (paragraph_stops 0 ps) ->
    let content := join_paragraphs ps in
    findParagraphBoundary content
      (findParagraphBoundary content x Forward) Backward = x
    /\ findParagraphBoundary content
         (findParagraphBoundary content x Backward) Forward = x.
Proof.
  intros ps x Hps Hx content.
  assert (Hpre : paragraph_prefix []) by (left; reflexivity).
  exact (stops_cycle_from ps [] Hpre Hps x Hx).
Qed.

Lemma up_undoes_down_on_paragraph_stops_witness :
  findParagraphBoundary hello_world
    (findParagraphBoundary hello_world 5 Forward) Backward = 5%Z
  /\ findParagraphBoundary hello_world
       (findParagraphBoundary hello_world 5 Backward) Forward = 5%Z.
Proof.
  apply (up_undoes_down_on_paragraph_stops
           [JS.lit "Hello"; JS.lit "World"] 5).
  - repeat constructor.
  - simpl. right. left. reflexivity.
Defined.

(* ===================================================================== *)
(** ** Further properties of the statistics *)
(* ===================================================================== *)

Lemma trimStart_split : forall s,
  exists w, s = w ++ JS.trimStart s /\ all_space w = true.
Proof.
  induction s as [|u s (w & Hs & Hw)]; simpl.
  - exists []. split; reflexivity.
  - destruct (JS.is_space u) eqn:E.
    + exists (u :: w). split; [simpl; f_equal; exact Hs|].
      simpl. rewrite E. exact Hw.
    + exists []. split; reflexivity.
Qed.

Lemma all_space_rev : forall w, all_space (rev w) = all_space w.
Proof.
  intros w. unfold all_space.
  induction w as [|u w IH]; simpl; [reflexivity|].
  rewrite forallb_app, IH. simpl. rewrite andb_true_r. apply andb_comm.
Qed.

Lemma trimEnd_split : forall s,
  exists w, s = JS.trimEnd s ++ w /\ all_space w = true.
Proof.
  intros s. destruct (trimStart_split (rev s)) as (w & Hs & Hw).
  exists (rev w). split; [|rewrite all_space_rev; exact Hw].
  unfold JS.trimEnd. rewrite <- rev_app_distr, <- Hs, rev_involutive.
  reflexivity.
Qed.

Lemma count_runs_leading_space : forall w s,
  all_space w = true -> count_runs false (w ++ s) = count_runs false s.
Proof.
  induction w as [|u w IH]; intros s Hw; simpl in *; [reflexivity|].
  apply andb_prop in Hw. destruct Hw as [Hu Hw]. rewrite Hu. auto.
Qed.

Lemma count_runs_trailing_space : forall s w b,
  all_space w = true -> count_runs b (s ++ w) = count_runs b s.
Proof.
  induction s as [|u s IH]; intros w b Hw; simpl.
  - revert b. induction w as [|v w IHw]; intros b; simpl in *; [reflexivity|].
    apply andb_prop in Hw. destruct Hw as [Hv Hw]. rewrite Hv. auto.
  - destruct (JS.is_space u); [auto|]. destruct b; rewrite IH; auto.
Qed.

(** Trimming changes no run. *)
Lemma word_runs_trim : forall s, word_runs (JS.trim s) = word_runs s.
Proof.
  intros s. unfold word_runs, JS.trim.
  destruct (trimStart_split s) as (w & Hs & Hw).
  destruct (trimEnd_split (JS.trimStart s)) as (w' & Hs' & Hw').
  rewrite Hs at 2. rewrite count_runs_leading_space by exact Hw.
  rewrite Hs' at 2. rewrite count_runs_trailing_space by exact Hw'.
  reflexivity.
Qed.

(** The word count is the number of runs of the untrimmed string. *)
Lemma words_are_runs : forall s,
  WritingStudio.words s = Z.of_nat (word_runs s).
Proof.
  intros s. unfold WritingStudio.words.
  destruct (JS.trim s) as [|u t] eqn:E.
  - rewrite <- word_runs_trim, E. reflexivity.
  - simpl JS.is_empty. cbv iota. rewrite <- E.
    rewrite split_trimmed_length by (rewrite E; discriminate).
    rewrite word_runs_trim. reflexivity.
Qed.

Lemma word_runs_zero : forall s,
  word_runs s = 0 <-> all_space s = true.
Proof.
  intros s. unfold word_runs, all_space.
  induction s as [|u s IH]; simpl; [tauto|].
  destruct (JS.is_space u); simpl; [exact IH|]. split; intros H; discriminate.
Qed.

Lemma trim_empty_iff : forall s, JS.trim s = [] <-> all_space s = true.
Proof.
  intros s. split; intros H.
  - apply word_runs_zero. rewrite <- word_runs_trim, H. reflexivity.
  - unfold JS.trim. rewrite (trimStart_all_space s H). reflexivity.
Qed.

(** X14. The placeholder and the word count agree. For every content,
    the editor shows its placeholder exactly when the statistics report
    zero words, and that is exactly when the content consists of white
    space only. *)
Theorem placeholder_iff_no_words :
  forall content : JS.str,
    (EditorKeys.showPlaceholder content = true
     <-> WritingStudio.wordCount
           (WritingStudio.handleContentChange content) = 0%Z)
    /\ (EditorKeys.showPlaceholder content = true
        <-> all_space content = true).
Proof.
  intros content.
  assert (Hshow : EditorKeys.showPlaceholder content = true
                  <-> all_space content = true).
  { unfold EditorKeys.showPlaceholder. rewrite <- trim_empty_iff.
    destruct (JS.trim content); simpl; split; intros H;
      try reflexivity; discriminate. }
  split; [|exact Hshow].
  rewrite Hshow. simpl. rewrite words_are_runs, <- word_runs_zero. lia.
Qed.

(** X15. White space around the text does not count. The word count of
    a content is the number of maximal runs outside white space of the
    content as it is, untrimmed, and it does not change when white space
    is put in front of the content or behind it. *)
Theorem word_count_ignores_outer_space :
  forall s : JS.str,
    WritingStudio.wordCount (WritingStudio.handleContentChange s)
    = Z.of_nat (word_runs s)
    /\ forall before behind,
         all_space before = true ->
         all_space behind = true ->
         WritingStudio.wordCount
           (WritingStudio.handleContentChange (before ++ s ++ behind))
         = WritingStudio.wordCount (WritingStudio.handleContentChange s).
Proof.
  intros s. split; [apply words_are_runs|].
  intros before behind Hb Ha. simpl. rewrite !words_are_runs.
  unfold word_runs.
  rewrite count_runs_leading_space by exact Hb.
  rewrite count_runs_trailing_space by exact Ha. reflexivity.
Qed.

Lemma word_count_ignores_outer_space_witness :
  WritingStudio.wordCount
    (WritingStudio.handleContentChange
       (JS.lit "  " ++ JS.lit "a b" ++ [JS.LF]))
  = WritingStudio.wordCount (WritingStudio.handleContentChange (JS.lit "a b")).
Proof.
  apply (proj2 (word_count_ignores_outer_space (JS.lit "a b"))
           (JS.lit "  ") [JS.LF]); reflexivity.
Defined.

Lemma is_word_snoc : forall piece u,
  (piece = [] \/ is_word piece = true) ->
  JS.is_space u = false ->
  is_word (piece ++ [u]) = true.
Proof.
  intros piece u Hp Hu. unfold is_word.
  rewrite forallb_app. simpl. rewrite Hu. simpl.
  destruct Hp as [-> | Hw]; [reflexivity|].
  unfold is_word in Hw. apply andb_prop in Hw. destruct Hw as [_ Hall].
  rewrite Hall. destruct piece; reflexivity.
Qed.

(** The pieces of a split that neither starts nor ends in white space. *)
Lemma split_go_words : forall s,
  (forall piece,
     is_word piece = true ->
     ends_in_space false s = false ->
     Forall (fun w => is_word w = true) (JS.split_go piece false s))
  /\ (ends_in_space true s = false ->
      Forall (fun w => is_word w = true) (JS.split_go [] true s)).
Proof.
  induction s as [|u s [IHf IHt]]; simpl.
  - split; [intros piece Hw _; constructor; [exact Hw|constructor]|].
    discriminate.
  - destruct (JS.is_space u) eqn:E.
    + split.
      * intros piece Hw Hend. constructor; [exact Hw|]. apply IHt. exact Hend.
      * intros Hend. apply IHt. exact Hend.
    + split.
      * intros piece Hw Hend. apply IHf; [|exact Hend].
        apply is_word_snoc; auto.
      * intros Hend. apply IHf; [|exact Hend].
        apply (is_word_snoc [] u); auto.
Qed.

Lemma split_go_concat : forall s piece in_sep,
  concat (JS.split_go piece in_sep s) = (if in_sep then [] else piece) ++ outside_space s
  \/ in_sep = true /\ piece <> [].
Proof.
  induction s as [|u s IH]; intros piece in_sep.
  - destruct in_sep; simpl.
    + destruct piece; [left; reflexivity|right; split; [reflexivity|discriminate]].
    + left. rewrite !app_nil_r. reflexivity.
  - simpl. unfold outside_space. simpl. fold (outside_space s).
    destruct (JS.is_space u) eqn:E; simpl.
    + destruct in_sep.
      * destruct (IH [] true) as [H | [_ H]]; [|congruence].
        destruct piece; [left; exact H|right; split; [reflexivity|discriminate]].
      * destruct (IH [] true) as [H | [_ H]]; [|congruence].
        left. simpl. rewrite H. reflexivity.
    + destruct (IH (piece ++ [u]) false) as [H | [H _]]; [|discriminate].
      destruct in_sep.
      * destruct piece; [left; rewrite H; reflexivity|
                         right; split; [reflexivity|discriminate]].
      * left. rewrite H, <- app_assoc. reflexivity.
Qed.

Lemma outside_space_trim : forall s,
  outside_space (JS.trim s) = outside_space s.
Proof.
  intros s. unfold JS.trim.
  destruct (trimStart_split s) as (w & Hs & Hw).
  destruct (trimEnd_split (JS.trimStart s)) as (w' & Hs' & Hw').
  assert (Hnone : forall v, all_space v = true -> outside_space v = []).
  { induction v as [|x v IHv]; simpl; intros Hv; [reflexivity|].
    apply andb_prop in Hv. destruct Hv as [Hx Hv]. rewrite Hx. simpl. auto. }
  rewrite Hs at 2. rewrite Hs' at 2. unfold outside_space.
  rewrite !filter_app. fold (outside_space w) (outside_space w').
  rewrite (Hnone w Hw), (Hnone w' Hw'), app_nil_r. reflexivity.
Qed.

(** X16. What is counted are words. For every content that is not white
    space only, each piece of the split of the trimmed content is a
    word, not empty and free of white space, and the pieces put together
    are exactly the code units of the content outside white space, in
    order. *)
Theorem counted_pieces_are_words :
  forall s : JS.str,
    all_space s = false ->
    let pieces := JS.split_spaces (JS.trim s) in
    Forall (fun w => is_word w = true) pieces
    /\ concat pieces = outside_space s
    /\ WritingStudio.wordCount (WritingStudio.handleContentChange s)
       = Z.of_nat (length pieces).
Proof.
  intros s Hs pieces. subst pieces.
  assert (Hne : JS.trim s <> []).
  { intros E. apply trim_empty_iff in E. congruence. }
  destruct (trim_shape s) as [E | (u & t & E & Hu & Hend)]; [congruence|].
  split; [|split].
  - unfold JS.split_spaces. rewrite E. simpl. rewrite Hu.
    apply (proj1 (split_go_words t) [u]).
    + unfold is_word. simpl. rewrite Hu. reflexivity.
    + rewrite E in Hend. simpl in Hend. rewrite Hu in Hend. exact Hend.
  - unfold JS.split_spaces.
    destruct (split_go_concat (JS.trim s) [] false) as [H | [H _]];
      [|discriminate].
    rewrite H. simpl. apply outside_space_trim.
  - simpl. unfold WritingStudio.words. rewrite E. reflexivity.
Qed.

Lemma counted_pieces_are_words_witness :
  Forall (fun w => is_word w = true)
    (JS.split_spaces (JS.trim (JS.lit " a  b "))).
Proof.
  apply (counted_pieces_are_words (JS.lit " a  b ")). reflexivity.
Defined.

Lemma count_runs_bound : forall s,
  2 * count_runs false s <= length s + 1
  /\ 2 * count_runs true s <= length s.
Proof.
  induction s as [|u s [IHf IHt]]; simpl; [lia|].
  destruct (JS.is_space u); lia.
Qed.

(** X17. Words need room. Twice the word count is at most the character
    count plus one; in particular the word count never exceeds the
    character count. *)
Theorem word_count_bounded_by_characters :
  forall s : JS.str,
    let st := WritingStudio.handleContentChange s in
    (0 <= WritingStudio.wordCount st)%Z
    /\ (2 * WritingStudio.wordCount st <= WritingStudio.charCount st + 1)%Z
    /\ (WritingStudio.wordCount st <= WritingStudio.charCount st)%Z.
Proof.
  intros s st. subst st.
  cbn [WritingStudio.handleContentChange WritingStudio.wordCount
       WritingStudio.charCount].
  rewrite words_are_runs. unfold word_runs, JS.length.
  pose proof (proj1 (count_runs_bound s)). lia.
Qed.

Lemma count_runs_snoc : forall s b u,
  count_runs b (s ++ [u])
  = count_runs b s
    + (if JS.is_space u || negb (ends_in_space (negb b) s) then 0 else 1).
Proof.
  induction s as [|v s IH]; intros b u; simpl.
  - rewrite negb_involutive. destruct (JS.is_space u), b; reflexivity.
  - destruct (JS.is_space v) eqn:E.
    + rewrite IH. reflexivity.
    + destruct b; rewrite IH; simpl; lia.
Qed.

(** X18. Typing one more code unit at the end. The word count grows by
    one exactly when the new code unit is not white space and the
    content before was empty or ended in white space; otherwise it stays
    the same. The character count grows by one. *)
Theorem typing_one_code_unit :
  forall (s : JS.str) (u : JS.code_unit),
    let before := WritingStudio.handleContentChange s in
    let after := WritingStudio.handleContentChange (s ++ [u]) in
    WritingStudio.charCount after = (WritingStudio.charCount before + 1)%Z
    /\ WritingStudio.wordCount after
       = (WritingStudio.wordCount before
          + (if negb (JS.is_space u) && ends_in_space true s
             then 1 else 0))%Z.
Proof.
  intros s u before after. subst before after. simpl. split.
  - rewrite length_app_Z. reflexivity.
  - rewrite !words_are_runs. unfold word_runs. rewrite count_runs_snoc.
    simpl negb.
    destruct (JS.is_space u), (ends_in_space true s); simpl; lia.
Qed.

(* ===================================================================== *)
(** ** The studio and the effects of the editor *)
(* ===================================================================== *)

(** X19. What the statistics panel shows after an input event. With the
    editor enabled, the content is the text of the element, the counts
    are those of that text, and the position shown is the dash exactly
    when the selection has no range; with a range whose start is a
    boundary point of the element's tree it is an offset between 0 and
    the character count. With the editor disabled the state is left as
    it is. *)
Theorem statistics_after_input :
  forall (element : Node) (h : Host) (st : Studio.State),
    let st' := EditorSync.handleInput false element h st in
    Studio.content st' = textContent element
    /\ Studio.in_sync st'
    /\ Studio.charCount st' = totalLength element
    /\ (Studio.shownPosition st' = None
        <-> selection h = None \/ selection h = Some [])
    /\ (forall range rest,
          selection h = Some (range :: rest) ->
          reachable element (startContainer range) (startOffset range) ->
          exists o,
            Studio.shownPosition st' = Some o
            /\ (0 <= o <= Studio.charCount st')%Z)
    /\ EditorSync.handleInput true element h st = st.
Proof.
  intros element h st st'. subst st'.
  unfold EditorSync.handleInput, Studio.shownPosition, Studio.in_sync.
  simpl. unfold getTextContent.
  split; [reflexivity|]. split; [split; reflexivity|]. split; [reflexivity|].
  split; [|split; [|reflexivity]].
  - unfold getCursorPosition.
    destruct (selection h) as [[|r rs]|]; simpl; split; intros H; auto;
      try discriminate; destruct H; discriminate.
  - intros range rest Hsel Hanchor. unfold getCursorPosition.
    rewrite Hsel. simpl. eexists. split; [reflexivity|].
    apply offsetFromPosition_bounds.
Qed.

Lemma statistics_after_input_witness :
  let st' :=
    EditorSync.handleInput false abc_de
      {| selection := Some [caret [1] 1]; console := [] |} Studio.initial in
  exists o,
    Studio.shownPosition st' = Some o
    /\ (0 <= o <= Studio.charCount st')%Z.
Proof.
  destruct (statistics_after_input abc_de
              {| selection := Some [caret [1] 1]; console := [] |}
              Studio.initial)
    as (_ & _ & _ & _ & H & _).
  intros st'. apply (H (caret [1] 1) [] eq_refl).
  exists (Text (JS.lit "de")). split; [reflexivity|]. simpl. lia.
Defined.

(** X20. Clear leaves the statistics stale. [handleContentChange] always
    leaves the counts in sync with the content, but [clearEditor] only
    empties the content: counts and position keep their values, so the
    state stays in sync only if both counts were 0 already. After typing
    a content with at least one word and pressing Clear, the placeholder
    is shown while the word count is still positive. *)
Theorem clear_leaves_counts_stale :
  forall (s : JS.str) (st : Studio.State),
    Studio.in_sync (Studio.handleContentChange s st)
    /\ (let st' := Studio.clearEditor st in
        Studio.content st' = []
        /\ Studio.wordCount st' = Studio.wordCount st
        /\ Studio.charCount st' = Studio.charCount st
        /\ Studio.cursorPosition st' = Studio.cursorPosition st
        /\ (Studio.in_sync st'
            <-> Studio.wordCount st = 0%Z /\ Studio.charCount st = 0%Z))
    /\ (all_space s = false ->
        let st' := Studio.clearEditor (Studio.handleContentChange s st) in
        EditorKeys.showPlaceholder (Studio.content st') = true
        /\ (0 < Studio.wordCount st')%Z
        /\ ~ Studio.in_sync st').
Proof.
  intros s st. split; [split; reflexivity|]. split.
  - simpl. repeat split; try reflexivity; unfold Studio.in_sync in *;
      simpl in *; tauto.
  - intros Hs. simpl.
    assert (Hpos : (0 < WritingStudio.words s)%Z).
    { rewrite words_are_runs.
      destruct (word_runs s) eqn:E; [|lia].
      apply word_runs_zero in E. congruence. }
    split; [reflexivity|]. split; [exact Hpos|].
    unfold Studio.in_sync. simpl.
    change (WritingStudio.words []) with 0%Z. lia.
Qed.

Lemma clear_leaves_counts_stale_witness :
  (0 < Studio.wordCount
         (Studio.clearEditor
            (Studio.handleContentChange (JS.lit "one two") Studio.initial)))%Z.
Proof.
  destruct (clear_leaves_counts_stale (JS.lit "one two") Studio.initial)
    as (_ & _ & H).
  exact (proj1 (proj2 (H eq_refl))).
Defined.

Lemma differs_iff : forall a b, EditorSync.differs a b = true <-> a <> b.
Proof.
  intros a b. unfold EditorSync.differs.
  destruct (list_eq_dec N.eq_dec a b); split; intros H;
    congruence || reflexivity || discriminate.
Qed.

Lemma getTextContent_text_children : forall content,
  getTextContent (Element (text_children content)) = content.
Proof.
  intros content. unfold getTextContent, text_children.
  destruct content; simpl; [reflexivity|]. rewrite app_nil_r. reflexivity.
Qed.

(** X21. The sync effect. With the editor mounted and no composition
    going on, the element holds the content afterwards; running the
    effect again changes nothing and requests no frame. During a
    composition, or with no element mounted, the effect changes
    nothing. *)
Theorem sync_effect_sets_content_once :
  forall (children : list Node) (content : JS.str) (focused : bool)
         (h : Host) (saved : option CursorPosition),
    let d := {| EditorSync.editorRef := Some (Element children);
                EditorSync.host := h;
                EditorSync.savedPositionRef := saved |} in
    let d' := fst (EditorSync.syncContent content false focused d) in
    (exists element',
       EditorSync.editorRef d' = Some element'
       /\ getTextContent element' = content)
    /\ EditorSync.syncContent content false focused d' = (d', false)
    /\ EditorSync.syncContent content true focused d = (d, false)
    /\ EditorSync.syncContent content false focused
         {| EditorSync.editorRef := None;
            EditorSync.host := h;
            EditorSync.savedPositionRef := saved |}
       = ({| EditorSync.editorRef := None;
             EditorSync.host := h;
             EditorSync.savedPositionRef := saved |}, false).
Proof.
  intros children content focused h saved d d'. subst d' d.
  unfold EditorSync.syncContent.
  cbn [EditorSync.editorRef EditorSync.host EditorSync.savedPositionRef].
  split; [|split; [|split; reflexivity]].
  - destruct (EditorSync.differs (getTextContent (Element children)) content)
      eqn:E.
    + unfold setTextContent. cbn [fst EditorSync.editorRef].
      eexists. split; [reflexivity|]. apply getTextContent_text_children.
    + cbn [fst EditorSync.editorRef]. eexists. split; [reflexivity|].
      destruct (list_eq_dec N.eq_dec (getTextContent (Element children))
                  content) as [Heq|Hne]; auto.
      apply differs_iff in Hne. congruence.
  - destruct (EditorSync.differs (getTextContent (Element children)) content)
      eqn:E.
    + unfold setTextContent.
      cbn [fst EditorSync.editorRef EditorSync.host
           EditorSync.savedPositionRef].
      rewrite getTextContent_text_children.
      assert (Hsame : EditorSync.differs content content = false).
      { destruct (EditorSync.differs content content) eqn:E'; auto.
        apply differs_iff in E'. congruence. }
      rewrite Hsame. reflexivity.
    + cbn [fst EditorSync.editorRef EditorSync.host
           EditorSync.savedPositionRef].
      rewrite E. reflexivity.
Qed.

(** What [getCursorPosition] reports after [setCursorPosition] with a
    non-negative offset: the offset, or 0 when it lies beyond the text. *)
Lemma setCursorPosition_then_offset : forall children position h ranges,
  (0 <= offset position)%Z ->
  selection h = Some ranges ->
  exists h',
    setCursorPosition (Element children) position h = Normal tt h'
    /\ console h' = console h
    /\ option_map offset (getCursorPosition (Element children) h')
       = Some (if (offset position <=? totalLength (Element children))%Z
               then offset position else 0%Z).
Proof.
  intros children position h ranges H0 Hsel.
  destruct (offset position <=? totalLength (Element children))%Z eqn:E.
  - apply Z.leb_le in E.
    destruct (setCursorPosition_in_range children position h ranges
                (conj H0 E) Hsel) as (Hset & _ & Hoff).
    eexists. split; [exact Hset|]. split; [reflexivity|].
    unfold getCursorPosition. simpl. rewrite Hoff. reflexivity.
  - apply Z.leb_gt in E.
    pose proof (find_target_beyond_total children _ E) as Hnone.
    eexists. split.
    + unfold setCursorPosition, positionFromOffset. rewrite Hnone.
      apply applyPosition_element.
    + rewrite Hsel. split; reflexivity.
Qed.

(** X22. The cursor across a sync. When the effect replaces the text of
    the focused editor and the selection has a range, the offset
    reported before is saved, a frame is requested, and its callback
    completes without a warning. Afterwards [getCursorPosition] reports
    the saved offset if the new content is at least that long, and 0,
    the start of the text, if the new content is shorter. *)
Theorem cursor_across_sync :
  forall (children : list Node) (content : JS.str) (h : Host)
         (saved : option CursorPosition) (range : Range) (rest : list Range),
    textContent (Element children) <> content ->
    selection h = Some (range :: rest) ->
    let T := Element children in
    let o := offsetFromPosition T (startContainer range) (startOffset range) in
    let d := {| EditorSync.editorRef := Some T;
                EditorSync.host := h;
                EditorSync.savedPositionRef := saved |} in
    let d' := fst (EditorSync.syncContent content false true d) in
    snd (EditorSync.syncContent content false true d) = true
    /\ option_map offset (EditorSync.savedPositionRef d') = Some o
    /\ exists element' h',
         EditorSync.editorRef d' = Some element'
         /\ EditorSync.restoreFrame d' (EditorSync.host d') = Normal tt h'
         /\ console h' = console h
         /\ option_map offset (getCursorPosition element' h')
            = Some (if (o <=? JS.length content)%Z then o else 0%Z).
Proof.
  intros children content h saved range rest Hne Hsel T o d d'.
  subst d' d T.
  assert (Hd : EditorSync.differs (getTextContent (Element children)) content
               = true) by (apply differs_iff; exact Hne).
  unfold EditorSync.syncContent.
  cbn [EditorSync.editorRef EditorSync.host EditorSync.savedPositionRef].
  rewrite Hd. unfold setTextContent.
  cbn [fst snd EditorSync.editorRef EditorSync.host
       EditorSync.savedPositionRef].
  assert (Hsaved : SavedCursor.saveCursor (Some (Element children)) saved h
                   = Some {| offset := o;
                             node := Some (startContainer range) |}).
  { unfold SavedCursor.saveCursor, saveCursorPosition, getCursorPosition.
    rewrite Hsel. reflexivity. }
  rewrite Hsaved.
  split; [reflexivity|]. split; [reflexivity|].
  exists (Element (text_children content)).
  unfold EditorSync.restoreFrame.
  cbn [EditorSync.editorRef EditorSync.savedPositionRef
       SavedCursor.restoreCursor restoreCursorPosition].
  assert (H0 : (0 <= o)%Z) by apply offsetFromPosition_bounds.
  destruct (setCursorPosition_then_offset (text_children content)
              {| offset := o; node := Some (startContainer range) |}
              {| selection := Some (map (fun _ => caret [] 0) (range :: rest));
                 console := console h |}
              (map (fun _ => caret [] 0) (range :: rest)) H0 eq_refl)
    as (h' & Hset & Hcon & Hoff).
  exists h'. split; [reflexivity|]. rewrite Hsel.
  split; [exact Hset|]. split; [exact Hcon|].
  rewrite Hoff. cbn [offset].
  unfold totalLength, textLength.
  change (textContent (Element (text_children content)))
    with (getTextContent (Element (text_children content))).
  rewrite getTextContent_text_children. reflexivity.
Qed.

Lemma cursor_across_sync_witness :
  let h := {| selection := Some [caret [1] 1]; console := [] |} in
  let d := {| EditorSync.editorRef := Some abc_de;
              EditorSync.host := h;
              EditorSync.savedPositionRef := None |} in
  let d' := fst (EditorSync.syncContent (JS.lit "xy") false true d) in
  exists element' h',
    EditorSync.editorRef d' = Some element'
    /\ EditorSync.restoreFrame d' (EditorSync.host d') = Normal tt h'
    /\ console h' = console h
    /\ option_map offset (getCursorPosition element' h') = Some 0%Z.
Proof.
  intros h d d'.
  assert (Hne : textContent abc_de <> JS.lit "xy") by discriminate.
  destruct (cursor_across_sync
              [Text (JS.lit "abc"); Text (JS.lit "de")] (JS.lit "xy")
              h None (caret [1] 1) [] Hne eq_refl)
    as (_ & _ & H).
  exact H.
Defined.

(** X23. The caret after auto-focus. When the text of the element is the
    content and the content is not empty, the callback of the auto-focus
    effect places the caret, without a warning, where
    [getCursorPosition] reports the length of the content, the end of
    the text; this is so in particular right after [setTextContent] has
    put the content into the element. With an empty content the
    callback does nothing. *)
Theorem auto_focus_puts_caret_at_end :
  forall (children : list Node) (content : JS.str) (h : Host)
         (ranges : list Range),
    selection h = Some ranges ->
    (content <> [] ->
     textContent (Element children) = content ->
     exists h' p,
       EditorKeys.autoFocusCaret (Element children) content h = Normal tt h'
       /\ console h' = console h
       /\ getCursorPosition (Element children) h'
          = Some {| offset := JS.length content; node := Some p |})
    /\ (content <> [] ->
        let mounted := setTextContent (Element children) content h in
        exists h' p,
          EditorKeys.autoFocusCaret (fst mounted) content (snd mounted)
          = Normal tt h'
          /\ console h' = console h
          /\ getCursorPosition (fst mounted) h'
             = Some {| offset := JS.length content; node := Some p |})
    /\ EditorKeys.autoFocusCaret (Element children) [] h = Normal tt h.
Proof.
  intros children content h ranges Hsel.
  assert (Hgen : forall cs hh rs,
             selection hh = Some rs ->
             content <> [] ->
             textContent (Element cs) = content ->
             exists h' p,
               EditorKeys.autoFocusCaret (Element cs) content hh
               = Normal tt h'
               /\ console h' = console hh
               /\ getCursorPosition (Element cs) h'
                  = Some {| offset := JS.length content; node := Some p |}).
  { intros cs hh rs Hs Hne Htext.
    assert (Hpos : (0 < JS.length content)%Z).
    { destruct content; [congruence|]. unfold JS.length. simpl. lia. }
    assert (Hw : walker_nodes (Element cs) <> []).
    { intros Hnil. pose proof (no_walker_nodes_no_text cs Hnil) as H0.
      unfold totalLength, textLength in H0. rewrite Htext in H0. lia. }
    unfold EditorKeys.autoFocusCaret.
    rewrite (proj2 (Z.gtb_gt _ _)) by lia.
    destruct (setCursorAtOffset_in_range cs (JS.length content) hh rs Hw)
      as (p & off & Hset & _ & Hoff); [|exact Hs|].
    - unfold totalLength, textLength. rewrite Htext. lia.
    - eexists. exists p. split; [exact Hset|]. split; [reflexivity|].
      unfold getCursorPosition. simpl. rewrite Hoff. reflexivity. }
  split; [|split].
  - intros Hne Htext. apply (Hgen children h ranges Hsel Hne Htext).
  - intros Hne mounted. subst mounted. unfold setTextContent.
    cbn [fst snd].
    destruct (Hgen (text_children content)
                {| selection :=
                     match selection h with
                     | Some ranges0 =>
                         Some (map (fun _ => caret [] 0) ranges0)
                     | None => None
                     end;
                   console := console h |}
                (map (fun _ => caret [] 0) ranges))
      as (h' & p & H1 & H2 & H3).
    + simpl. rewrite Hsel. reflexivity.
    + exact Hne.
    + apply getTextContent_text_children.
    + exists h', p. auto.
  - reflexivity.
Qed.

Lemma auto_focus_puts_caret_at_end_witness :
  exists h' p,
    EditorKeys.autoFocusCaret abc_de (JS.lit "abcde") live = Normal tt h'
    /\ console h' = console live
    /\ getCursorPosition abc_de h'
       = Some {| offset := JS.length (JS.lit "abcde"); node := Some p |}.
Proof.
  apply (proj1 (auto_focus_puts_caret_at_end
                  [Text (JS.lit "abc"); Text (JS.lit "de")] (JS.lit "abcde")
                  live [] eq_refl)).
  - discriminate.
  - reflexivity.
Defined.

(* ===================================================================== *)
(** ** The Enter key *)
(* ===================================================================== *)

Lemma children_split : forall (cs : list Node) i c,
  nth_error cs i = Some c ->
  cs = firstn i cs ++ c :: skipn (S i) cs /\ length (firstn i cs) = i.
Proof.
  induction cs as [|x cs IH]; intros [|i] c H; simpl in *; try discriminate.
  - inversion H; subst. split; reflexivity.
  - destruct (IH i c H) as (Hs & Hl). split; [f_equal; exact Hs|].
    f_equal. exact Hl.
Qed.

Lemma firstn_behind : forall (a b : list Node) more,
  firstn (length a + length more) (a ++ more ++ b) = a ++ more.
Proof.
  intros a b more. rewrite firstn_app_2.
  replace (length more) with (length more + 0) by lia.
  rewrite firstn_app_2. simpl. rewrite app_nil_r. reflexivity.
Qed.

Lemma nth_error_middle : forall (a b : list Node) c,
  nth_error (a ++ c :: b) (length a) = Some c.
Proof.
  intros a b c. rewrite nth_error_app2 by lia.
  rewrite Nat.sub_diag. reflexivity.
Qed.

Lemma Range_toString_root : forall cs k,
  Range_toString [] (Element cs) k = flat_map textContent (firstn k cs).
Proof. reflexivity. Qed.

Lemma Range_toString_child : forall i p cs k,
  Range_toString (i :: p) (Element cs) k
  = flat_map textContent (firstn i cs)
    ++ match nth_error cs i with
       | Some c => Range_toString p c k
       | None => []
       end.
Proof. reflexivity. Qed.

Lemma Range_toString_replaced : forall (a b : list Node) c p k,
  Range_toString (length a :: p) (Element (a ++ c :: b)) k
  = flat_map textContent a ++ Range_toString p c k.
Proof.
  intros a b c p k. rewrite Range_toString_child, nth_error_middle.
  rewrite firstn_app, firstn_all, Nat.sub_diag. simpl.
  rewrite app_nil_r. reflexivity.
Qed.

(** The text before and behind the place of insertion stays, the text of
    the new node comes between, and the boundary point returned lies
    right behind it. *)
Lemma insertNode_after_text : forall p cs k nd,
  reachable (Element cs) p k ->
  exists n' p' k' behind,
    insertNode_after nd p k (Element cs) = Some (n', (p', k'))
    /\ textContent (Element cs)
       = Range_toString p (Element cs) k ++ behind
    /\ textContent n'
       = Range_toString p (Element cs) k ++ textContent nd ++ behind
    /\ Range_toString p' n' k'
       = Range_toString p (Element cs) k ++ textContent nd.
Proof.
  induction p as [|i p IH]; intros cs k nd (n & Hres & Hk).
  - simpl in Hres. inversion Hres; subst n. simpl in Hk.
    simpl insertNode_after. rewrite (proj2 (Nat.leb_le _ _) Hk).
    exists (Element (firstn k cs ++ nd :: skipn k cs)), [], (S k),
      (flat_map textContent (skipn k cs)).
    split; [reflexivity|]. split; [|split].
    + simpl. rewrite <- flat_map_app, firstn_skipn. reflexivity.
    + simpl. rewrite flat_map_app. reflexivity.
    + rewrite ?Range_toString_root, ?Range_toString_child.
      replace (S k) with (length (firstn k cs) + length [nd])
        by (rewrite length_firstn; simpl; lia).
      change (firstn k cs ++ nd :: skipn k cs)
        with (firstn k cs ++ [nd] ++ skipn k cs).
      rewrite firstn_behind, flat_map_app. simpl. rewrite app_nil_r.
      reflexivity.
  - simpl in Hres. destruct (nth_error cs i) as [c|] eqn:En; [|discriminate].
    destruct (children_split cs i c En) as (Hsplit & Hlen).
    assert (Hrec : forall cs',
               c = Element cs' ->
               reachable (Element cs') p k ->
               exists n' p' k' behind,
                 insertNode_after nd (i :: p) k (Element cs)
                 = Some (n', (p', k'))
                 /\ textContent (Element cs)
                    = Range_toString (i :: p) (Element cs) k ++ behind
                 /\ textContent n'
                    = Range_toString (i :: p) (Element cs) k
                      ++ textContent nd ++ behind
                 /\ Range_toString p' n' k'
                    = Range_toString (i :: p) (Element cs) k
                      ++ textContent nd).
    { intros cs' Hc Hreach. subst c.
      destruct (IH cs' k nd Hreach)
        as (c' & p' & k' & behind & Hins & Ht & Ht' & Hr).
      exists (Element (firstn i cs ++ c' :: skipn (S i) cs)), (i :: p'), k',
        (behind ++ flat_map textContent (skipn (S i) cs)).
      split; [|split; [|split]].
      - simpl insertNode_after. rewrite En.
        destruct p; rewrite Hins; reflexivity.
      - rewrite ?Range_toString_root, ?Range_toString_child. rewrite En. simpl textContent.
        rewrite Hsplit at 1. rewrite flat_map_app. simpl flat_map.
        change (flat_map textContent cs') with (textContent (Element cs')).
        rewrite Ht, <- !app_assoc. reflexivity.
      - rewrite ?Range_toString_root, ?Range_toString_child. rewrite En. simpl textContent.
        rewrite flat_map_app. simpl flat_map. rewrite Ht', <- !app_assoc.
        reflexivity.
      - pose proof (Range_toString_replaced (firstn i cs) (skipn (S i) cs)
                      c' p' k') as Hrep.
        rewrite Hlen in Hrep. rewrite Hrep, Hr.
        rewrite Range_toString_child, En, <- app_assoc. reflexivity. }
    destruct c as [d|cs'].
    + destruct p as [|j p']; [|discriminate].
      simpl in Hres. inversion Hres; subst n. simpl in Hk.
      simpl insertNode_after. rewrite En, (proj2 (Nat.leb_le _ _) Hk).
      exists (Element (firstn i cs
                       ++ Text (firstn k d) :: nd :: Text (skipn k d)
                          :: skipn (S i) cs)),
        [], (i + 2), (skipn k d ++ flat_map textContent (skipn (S i) cs)).
      split; [reflexivity|]. split; [|split].
      * rewrite ?Range_toString_root, ?Range_toString_child. rewrite En. simpl textContent.
        rewrite Hsplit at 1. rewrite flat_map_app. simpl.
        rewrite <- (firstn_skipn k d) at 1. rewrite <- !app_assoc.
        reflexivity.
      * rewrite ?Range_toString_root, ?Range_toString_child. rewrite En. simpl textContent.
        rewrite flat_map_app. simpl. rewrite <- !app_assoc. reflexivity.
      * rewrite ?Range_toString_root, ?Range_toString_child. rewrite En.
        replace (i + 2)
          with (length (firstn i cs) + length [Text (firstn k d); nd])
          by (rewrite Hlen; simpl; lia).
        change (firstn i cs
                ++ Text (firstn k d) :: nd :: Text (skipn k d)
                   :: skipn (S i) cs)
          with (firstn i cs ++ [Text (firstn k d); nd]
                ++ Text (skipn k d) :: skipn (S i) cs).
        rewrite firstn_behind, flat_map_app. simpl.
        rewrite app_nil_r, <- app_assoc. reflexivity.
    + apply (Hrec cs' eq_refl). exists n. split; assumption.
Qed.

Lemma Range_collapsed_caret : forall p k, Range_collapsed (caret p k) = true.
Proof.
  intros p k. unfold Range_collapsed. simpl.
  destruct (list_eq_dec Nat.eq_dec p p); [|congruence].
  rewrite Nat.eqb_refl. reflexivity.
Qed.

(** X24. Enter inserts a line break at the caret. With the caret at a
    boundary point of the tree where [getCursorPosition] reports offset
    [o], the Enter key leaves a tree whose text is the old text with one
    line break inserted at [o], and a single caret right behind the line
    break, where [getCursorPosition] reports [o + 1]; nothing is logged.
    The input event it dispatches brings the statistics up to date: the
    content is the new text, the character count has grown by one and
    the position shown is [o + 1]. Without a range in the selection the
    key changes nothing. *)
Theorem enter_inserts_line_break :
  forall (children : list Node) (h : Host) (st : Studio.State),
    let T := Element children in
    (forall p k rest,
       selection h = Some (caret p k :: rest) ->
       reachable T p k ->
       let o := offsetFromPosition T p k in
       exists T' h' st',
         EditorEnter.handleEnter T h st = Some (T', h', st')
         /\ textContent T'
            = firstn (Z.to_nat o) (textContent T) ++ [JS.LF]
              ++ skipn (Z.to_nat o) (textContent T)
         /\ console h' = console h
         /\ option_map offset (getCursorPosition T' h') = Some (o + 1)%Z
         /\ Studio.content st' = textContent T'
         /\ Studio.charCount st' = (totalLength T + 1)%Z
         /\ Studio.shownPosition st' = Some (o + 1)%Z)
    /\ (getCursorPosition T h = None ->
        EditorEnter.handleEnter T h st = Some (T, h, st)).
Proof.
  intros children h st T. subst T. split.
  - intros p k rest Hsel Hreach o.
    destruct (insertNode_after_text p children k (Text [JS.LF]) Hreach)
      as (T' & p' & k' & behind & Hins & Ht & Ht' & Hr).
    set (before := Range_toString p (Element children) k) in *.
    assert (Ho : Z.to_nat o = length before).
    { unfold o, offsetFromPosition, JS.length. fold before. lia. }
    assert (Hoff : offsetFromPosition T' p' k' = (o + 1)%Z).
    { unfold offsetFromPosition. rewrite Hr, length_app_Z.
      reflexivity. }
    exists T', {| selection := Some [caret p' k']; console := console h |},
      (EditorSync.handleInput false T'
         {| selection := Some [caret p' k']; console := console h |} st).
    split; [|split; [|split; [|split; [|split; [|split]]]]].
    + unfold EditorEnter.handleEnter. rewrite Hsel, Range_collapsed_caret.
      cbn [startContainer startOffset caret]. rewrite Hins. reflexivity.
    + rewrite Ht', Ht, Ho.
      rewrite firstn_app, firstn_all, Nat.sub_diag.
      rewrite skipn_app, skipn_all, Nat.sub_diag. simpl.
      rewrite app_nil_r. reflexivity.
    + reflexivity.
    + unfold getCursorPosition. simpl. rewrite Hoff. reflexivity.
    + reflexivity.
    + unfold EditorSync.handleInput. simpl. unfold getTextContent.
      rewrite Ht'. unfold totalLength, textLength. rewrite Ht.
      rewrite !length_app_Z.
      change (JS.length (textContent (Text [JS.LF]))) with 1%Z. lia.
    + unfold EditorSync.handleInput, Studio.shownPosition. simpl.
      unfold getCursorPosition. simpl. rewrite Hoff. reflexivity.
  - intros Hnone. unfold EditorEnter.handleEnter.
    unfold getCursorPosition in Hnone.
    destruct (selection h) as [[|r rs]|]; try discriminate; reflexivity.
Qed.

Lemma enter_inserts_line_break_witness :
  exists T' h' st',
    EditorEnter.handleEnter abc_de
      {| selection := Some [caret [0] 1]; console := [] |} Studio.initial
    = Some (T', h', st')
    /\ textContent T' = JS.lit "a" ++ [JS.LF] ++ JS.lit "bcde"
    /\ Studio.shownPosition st' = Some 2%Z.
Proof.
  assert (Hreach : reachable abc_de [0] 1).
  { exists (Text (JS.lit "abc")). split; [reflexivity|]. simpl. lia. }
  destruct (proj1 (enter_inserts_line_break
                     [Text (JS.lit "abc"); Text (JS.lit "de")]
                     {| selection := Some [caret [0] 1]; console := [] |}
                     Studio.initial)
              [0] 1 [] eq_refl Hreach)
    as (T' & h' & st' & H1 & H2 & _ & _ & _ & _ & H3).
  exists T', h', st'. split; [exact H1|]. split; [exact H2 | exact H3].
Defined.
